(** * CueMe: the audio stream processor (electron/AudioStreamProcessor.ts)

    A shallow embedding of the segmentation-and-extraction pipeline:
    sample accumulation, the chunk boundary policy, the streaming hint
    tracker, the question extraction pipeline and the orchestrator that
    ties them together.

    Conventions.
    - A JavaScript string is the list of its UTF-16 code units; [length],
      [slice], [split] and the regular expressions of the source (none has
      the [u] flag) all work on code units.
    - [Date.now()] reads a clock that is fixed during one synchronous
      segment of code (the stretch between two [await]s) and is supplied
      by the environment with every segment.
    - [uuidv4()] draws from a counter.
    - [console.log] and friends are dropped.
    - [emit] appends to the chronological list of emitted events and
      returns, its listeners being taken to return normally; but an
      ['error'] event that no listener is registered for is thrown by
      [emit], as [EventEmitter] does, and is not in the list. The
      constructor registers no listener. *)

From Stdlib Require Import String Ascii ZArith NArith QArith List Bool Lia.
From Stdlib.Strings Require Import Byte.
From Stdlib Require Import Qround SpecFloat.
Import ListNotations.
Close Scope Q_scope.

(** ** JavaScript strings *)

Definition char16 := N.
Definition jsstring := list char16.

Definition char_eqb (a b : char16) : bool := N.eqb a b.

Fixpoint str_eqb (a b : jsstring) : bool :=
  match a, b with
  | [], [] => true
  | x :: a', y :: b' => char_eqb x y && str_eqb a' b'
  | _, _ => false
  end.

(** Source literals are written as Rocq strings (UTF-8 bytes) and decoded
    to code units. *)
Fixpoint bytes_of (s : string) : list N :=
  match s with
  | EmptyString => []
  | String a s' => N_of_ascii a :: bytes_of s'
  end.

Definition cont (b : N) : N := N.land b 0x3F.

Definition surrogates (cp : N) : list N :=
  if (cp <? 0x10000)%N then [cp]
  else let v := (cp - 0x10000)%N in
       [(0xD800 + N.shiftr v 10)%N; (0xDC00 + N.land v 0x3FF)%N].

Fixpoint utf8_decode (l : list N) : jsstring :=
  match l with
  | [] => []
  | b0 :: t0 =>
    if (b0 <? 0x80)%N then b0 :: utf8_decode t0
    else if (b0 <? 0xE0)%N then
      match t0 with
      | b1 :: t1 => (N.shiftl (N.land b0 0x1F) 6 + cont b1)%N :: utf8_decode t1
      | _ => []
      end
    else if (b0 <? 0xF0)%N then
      match t0 with
      | b1 :: b2 :: t2 =>
        (N.shiftl (N.land b0 0x0F) 12 + N.shiftl (cont b1) 6 + cont b2)%N
          :: utf8_decode t2
      | _ => []
      end
    else
      match t0 with
      | b1 :: b2 :: b3 :: t3 =>
        surrogates (N.shiftl (N.land b0 0x07) 18 + N.shiftl (cont b1) 12
                    + N.shiftl (cont b2) 6 + cont b3)%N ++ utf8_decode t3
      | _ => []
      end
  end.

Definition utf16 (s : string) : jsstring := utf8_decode (bytes_of s).

(** [WhiteSpace] and [LineTerminator] of ECMAScript: what [\s] matches and
    what [trim] strips. *)
Definition is_line_terminator (c : char16) : bool :=
  (c =? 0x0A)%N || (c =? 0x0D)%N || (c =? 0x2028)%N || (c =? 0x2029)%N.

Definition is_space (c : char16) : bool :=
  (c =? 0x09)%N || (c =? 0x0B)%N || (c =? 0x0C)%N || (c =? 0x20)%N
  || (c =? 0xA0)%N || (c =? 0x1680)%N
  || ((0x2000 <=? c)%N && (c <=? 0x200A)%N)
  || (c =? 0x202F)%N || (c =? 0x205F)%N || (c =? 0x3000)%N || (c =? 0xFEFF)%N
  || is_line_terminator c.

Fixpoint trimStart (s : jsstring) : jsstring :=
  match s with
  | c :: s' => if is_space c then trimStart s' else s
  | [] => []
  end.

Definition trimEnd (s : jsstring) : jsstring := rev (trimStart (rev s)).

Definition trim (s : jsstring) : jsstring := trimEnd (trimStart s).

Definition nonempty (s : jsstring) : bool :=
  match s with [] => false | _ => true end.

Fixpoint startsWith (p s : jsstring) : bool :=
  match p, s with
  | [], _ => true
  | x :: p', y :: s' => char_eqb x y && startsWith p' s'
  | _ :: _, [] => false
  end.

Definition endsWith (s p : jsstring) : bool := startsWith (rev p) (rev s).

Fixpoint includes (s sub : jsstring) : bool :=
  startsWith sub s || match s with [] => false | _ :: s' => includes s' sub end.

(** [s.slice(-n)] for [n > 0]: the last [n] code units. *)
Definition slice_last (n : nat) (s : jsstring) : jsstring :=
  skipn (length s - n) s.

Definition join (sep : jsstring) (l : list jsstring) : jsstring :=
  match l with
  | [] => []
  | x :: l' => x ++ flat_map (fun y => sep ++ y) l'
  end.

(** ** Regular expressions

    The backtracking semantics of ECMAScript for the constructs the source
    uses. The matcher is in continuation-passing style: [k] receives the
    rest of the subject after the part matched so far, and the first
    alternative that lets the whole continuation succeed wins. *)

Inductive regex : Type :=
| Eps
| Chr (c : char16)
| Class (p : char16 -> bool)
| Dot
| Seq (r1 r2 : regex)
| Alt (r1 r2 : regex)
| Star (r : regex)
| Bol
| Eol.

Fixpoint Str (s : jsstring) : regex :=
  match s with
  | [] => Eps
  | [c] => Chr c
  | c :: s' => Seq (Chr c) (Str s')
  end.

Definition Lit (s : string) : regex := Str (utf16 s).

Fixpoint AltL (l : list regex) : regex :=
  match l with
  | [] => Class (fun _ => false)
  | [r] => r
  | r :: l' => Alt r (AltL l')
  end.

Definition Words (l : list string) : regex := AltL (map Lit l).

Definition Plus (r : regex) : regex := Seq r (Star r).
Definition Opt (r : regex) : regex := Alt r Eps.

Definition one_of (s : string) : char16 -> bool :=
  fun c => existsb (char_eqb c) (utf16 s).

Definition space_or (s : string) : char16 -> bool :=
  fun c => is_space c || one_of s c.

Section Matcher.

(** Length of the whole subject: [^] holds where nothing is consumed. *)
Variable total : nat.

Fixpoint run_re (r : regex) (s : jsstring)
         (k : jsstring -> option jsstring) {struct r} : option jsstring :=
  match r with
  | Eps => k s
  | Chr c =>
    match s with
    | x :: s' => if char_eqb x c then k s' else None
    | [] => None
    end
  | Class p =>
    match s with
    | x :: s' => if p x then k s' else None
    | [] => None
    end
  | Dot =>
    match s with
    | x :: s' => if is_line_terminator x then None else k s'
    | [] => None
    end
  | Seq r1 r2 => run_re r1 s (fun s' => run_re r2 s' k)
  | Alt r1 r2 =>
    match run_re r1 s k with
    | Some e => Some e
    | None => run_re r2 s k
    end
  | Star r0 =>
    (fix loop (n : nat) (s : jsstring) {struct n} : option jsstring :=
       match n with
       | O => k s
       | S n' =>
         match run_re r0 s (fun s' =>
                 if (length s' <? length s)%nat then loop n' s' else None) with
         | Some e => Some e
         | None => k s
         end
       end) (length s) s
  | Bol => if (length s =? total)%nat then k s else None
  | Eol => match s with [] => k s | _ => None end
  end.

(** A match attempted at the position where [s] starts: the rest of the
    subject after the match. *)
Definition match_here (r : regex) (s : jsstring) : option jsstring :=
  run_re r s (fun e => Some e).

(** Leftmost match: the text before it and the text after it. *)
Fixpoint search (r : regex) (before_rev : jsstring) (s : jsstring)
  : option (jsstring * jsstring) :=
  match match_here r s with
  | Some rest => Some (rev before_rev, rest)
  | None =>
    match s with
    | [] => None
    | c :: s' => search r (c :: before_rev) s'
    end
  end.

(** [replace] with the [g] flag: [skip] counts the code units of the
    current match that are still to be dropped. *)
Fixpoint replace_loop (r : regex) (by_ : jsstring) (skip : nat)
         (s : jsstring) {struct s} : jsstring :=
  match skip with
  | S k =>
    match s with
    | [] => []
    | _ :: s' => replace_loop r by_ k s'
    end
  | O =>
    match match_here r s with
    | Some rest =>
      match (length s - length rest)%nat with
      | O => by_ ++ match s with
                    | [] => []
                    | c :: s' => c :: replace_loop r by_ 0 s'
                    end
      | S k => by_ ++ match s with
                      | [] => []
                      | _ :: s' => replace_loop r by_ k s'
                      end
      end
    | None =>
      match s with
      | [] => []
      | c :: s' => c :: replace_loop r by_ 0 s'
      end
    end
  end.

(** The loop of [split]: [cur_rev] is the piece since the last
    separator (position [p] of the standard's algorithm), [s] starts at
    position [q]. A match that ends at [p] does not split. *)
Fixpoint split_loop (r : regex) (skip : nat) (cur_rev : jsstring)
         (s : jsstring) {struct s} : list jsstring :=
  match s with
  | [] => [rev cur_rev]
  | c :: s' =>
    match skip with
    | S k => split_loop r k [] s'
    | O =>
      match match_here r s with
      | None => split_loop r 0 (c :: cur_rev) s'
      | Some rest =>
        match (length s - length rest)%nat with
        | O =>
          match cur_rev with
          | [] => split_loop r 0 [c] s'
          | _ => rev cur_rev :: split_loop r 0 [c] s'
          end
        | S k => rev cur_rev :: split_loop r k [] s'
        end
      end
    end
  end.

End Matcher.

Definition test (r : regex) (s : jsstring) : bool :=
  match search (length s) r [] s with Some _ => true | None => false end.

(** [s.replace(r, by_)] without the [g] flag. *)
Definition replace (r : regex) (by_ : jsstring) (s : jsstring) : jsstring :=
  match search (length s) r [] s with
  | Some (before, rest) => before ++ by_ ++ rest
  | None => s
  end.

Definition replaceAll (r : regex) (by_ : jsstring) (s : jsstring) : jsstring :=
  replace_loop (length s) r by_ 0 s.

Definition split (r : regex) (s : jsstring) : list jsstring :=
  match s with
  | [] => match match_here 0 r [] with Some _ => [] | None => [[]] end
  | _ => split_loop (length s) r 0 [] s
  end.

(** [s.split(sep)] for a non-empty separator string. *)
Definition split_on (sep : jsstring) (s : jsstring) : list jsstring :=
  split (Str sep) s.

(** ** Data model (src/types/audio-stream, as the processor uses it)

    A [Float32Array] holds the samples [v / 32768.0] for 16-bit integers
    [v]; the division is exact in binary floating point, so a sample is
    kept as its numerator [v]. Counters, sizes, times and the numbers of
    the configuration are integers, on which the sums, differences and
    comparisons of the source are exact (all stay far below 2^53).
    Durations are computed by a division and are kept as the source has
    them, in double precision. Confidences are only handed on. *)

(** A JavaScript number that comes out of a division: an IEEE 754
    binary64 value, with the operations of the standard (rounding to
    nearest, ties to even; infinities and NaN). *)
Definition number : Type := spec_float.

(** The number an integer denotes. *)
Definition Number (z : Z) : number := binary_normalize 53 1024 z 0 false.

Definition Number_div (a b : number) : number := SFdiv 53 1024 a b.
Definition Number_mul (a b : number) : number := SFmul 53 1024 a b.

(** [a >= b], false when one of them is NaN. *)
Definition Number_ge (a b : number) : bool := SFleb b a.

(** [(sampleCount / sampleRate) * 1000] *)
Definition milliseconds (sampleCount sampleRate : Z) : number :=
  Number_mul (Number_div (Number sampleCount) (Number sampleRate))
             (Number 1000).

Definition Float32Array := list Z.
Definition uuid := nat.

(** An [Error] object, named by its message: what the transcription
    service and the file system reject with. *)
Definition JsError := jsstring.

Record AudioChunk : Type := {
  chunk_id : uuid;
  chunk_data : Float32Array;
  chunk_timestamp : Z;
  chunk_duration : number;
  chunk_wordCount : Z
}.

Record TranscriptionResult : Type := {
  tr_id : uuid;
  tr_text : jsstring;
  tr_timestamp : Z;
  tr_confidence : Q;
  tr_isQuestion : bool;
  tr_originalChunkId : uuid
}.

Record DetectedQuestion : Type := {
  q_id : uuid;
  q_text : jsstring;
  q_timestamp : Z;
  q_confidence : Q;
  q_refinedText : option jsstring
}.

Record AudioStreamConfig : Type := {
  sampleRate : Z;
  chunkDuration : Z;
  silenceThreshold : Z;
  maxWords : Z;
  questionDetectionEnabled : bool;
  batchInterval : Z;
  maxBatchSize : Z
}.

(** The defaults of the constructor. *)
Definition defaultConfig : AudioStreamConfig := {|
  sampleRate := 16000;
  chunkDuration := 1000;
  silenceThreshold := 800;
  maxWords := 40;
  questionDetectionEnabled := true;
  batchInterval := 0;
  maxBatchSize := 0
|}.

(** [batchProcessor] is never read or written after construction and is
    left out. *)
Record AudioStreamState : Type := {
  isListening : bool;
  isProcessing : bool;
  lastActivityTime : Z;
  questionBuffer : list DetectedQuestion
}.

(** ** The lexicon *)

Definition fillerWords : list jsstring := map utf16 [
  "えー"; "あー"; "うー"; "んー"; "そのー"; "あのー"; "えーっと"; "あーと";
  "まあ"; "なんか"; "ちょっと"; "やっぱり"; "やっぱ"; "だから"; "でも";
  "うん"; "はい"; "そう"; "ですね"; "ですが"; "ただ"; "まず"; "それで";
  "というか"; "てか"; "なので"; "けど"; "けれど"; "しかし"; "でも";
  "ー"; "〜"; "う〜ん"; "え〜"; "あ〜"; "そ〜"; "ん〜";
  "じゃあ"; "では"; "それでは"; "さて"; "ちなみに"; "ところで"; "えっと"; "えと";
  "あの"; "その"; "とりあえず"; "まぁ"; "まぁその"; "なんていうか"
]%string.

Definition fillerWords_has (w : jsstring) : bool :=
  existsb (str_eqb w) fillerWords.

Definition questionStarters : list jsstring := map utf16 [
  "どう"; "どの"; "どこ"; "いつ"; "なぜ"; "なん"; "何"; "だれ"; "誰";
  "どちら"; "どれ"; "いくら"; "いくつ"; "どのよう"; "どんな"
]%string.

(** ** looksLikeQuestion *)

Definition politeEndings : list string := [
  "教えてください"; "お聞かせください"; "お願いします"; "お願いできますか";
  "お願いしてもいいですか"; "いただけますか"; "頂けますか"; "いただけませんか";
  "てもらえますか"; "てくれますか"; "てください"
]%string.

Definition questionPatterns : list regex :=
  map (fun w => Seq (Lit w) (Star Dot)) [
    "どう"; "どの"; "どこ"; "いつ"; "なぜ"; "なん"; "何";
    "だれ"; "誰"; "どちら"; "どれ"; "いくら"; "いくつ"
  ]%string
  ++ map (fun w => Seq (Star Dot) (Lit w)) [
    "ですか"; "ますか"; "でしょうか"; "かしら"; "のか"
  ]%string
  ++ [ Seq (Star Dot)
        (Seq (Words politeEndings)
          (Seq (Opt (Class (one_of "。?？"))) Eol)) ].

Definition looksLikeQuestion (text : jsstring) : bool :=
  existsb (fun pattern => test pattern text) questionPatterns.

(** ** splitIntoQuestions *)

(** [/[\n]+|[！？!。]/] *)
Definition re_sentence : regex :=
  Alt (Plus (Chr 0x0A%N)) (Class (one_of "！？!。")).

(** [/[？?]/] *)
Definition re_qmark : regex := Class (one_of "？?").

(** [/[、\s]+$/g] *)
Definition re_trailing_comma : regex := Seq (Plus (Class (space_or "、"))) Eol.

(** [/[?？]$/] *)
Definition re_qmark_end : regex := Seq (Class (one_of "?？")) Eol.

(** [/(ですか|ますか|でしょうか|か)$/] *)
Definition re_ka_end : regex :=
  Seq (Words ["ですか"; "ますか"; "でしょうか"; "か"]%string) Eol.

(** The request endings of the final filter: the list of
    [looksLikeQuestion] without its fifth entry, anchored at the end. *)
Definition re_request_end : regex :=
  Seq (Words [
    "教えてください"; "お聞かせください"; "お願いします"; "お願いできますか";
    "いただけますか"; "頂けますか"; "いただけませんか";
    "てもらえますか"; "てくれますか"; "てください"
  ]%string) Eol.

Definition connectors : list jsstring :=
  map utf16 ["それから"; "あと"; "次に"; "つぎに"]%string.

Definition split_question_marks (part : jsstring) : list jsstring :=
  let qmSplit := filter nonempty (map trim (split re_qmark part)) in
  if (1 <? length qmSplit)%nat then qmSplit else [part].

Definition split_connector (subParts : list jsstring) (c : jsstring)
  : list jsstring :=
  flat_map (fun sp => filter nonempty (map trim (split_on c sp))) subParts.

Definition split_connectors (p : jsstring) : list jsstring :=
  fold_left split_connector connectors [p].

Definition strip_trailing_comma (p : jsstring) : jsstring :=
  trim (replaceAll re_trailing_comma [] p).

Definition question_shaped (p : jsstring) : bool :=
  (2 <=? length p)%nat
  && (looksLikeQuestion p || test re_qmark_end p || test re_ka_end p
      || test re_request_end p).

Definition splitIntoQuestions (text : jsstring) : list jsstring :=
  if negb (nonempty text) then []
  else
    let parts :=
      filter (fun p => (0 <? length p)%nat) (map trim (split re_sentence text)) in
    let refinedParts := flat_map split_question_marks parts in
    let finalParts := flat_map split_connectors refinedParts in
    filter question_shaped (map strip_trailing_comma finalParts).

(** ** trimPreface *)

(** [/について.*(ですか|ますか|でしょうか|か|[?？]$)/] *)
Definition keepTopicPatterns : list regex := [
  Seq (Lit "について")
    (Seq (Star Dot)
      (AltL [Lit "ですか"; Lit "ますか"; Lit "でしょうか"; Lit "か";
             Seq (Class (one_of "?？")) Eol]))
].

Definition leadingPrefacePattern : regex :=
  Seq Bol
    (Seq (Words [
        "じゃあ"; "では"; "それでは"; "さて"; "ちなみに"; "ところで"; "えっと";
        "えと"; "あの"; "その"; "とりあえず"; "まぁ"; "まぁその"; "なんていうか";
        "まず"; "えー"; "あー"; "うー"; "そのー"; "えーっと"
      ]%string)
      (Plus (Class is_space))).

(** The loop [for (let i = 0; i < 3; i++)] with its [break]. *)
Fixpoint strip_leading_preface (i : nat) (result : jsstring) : jsstring :=
  match i with
  | O => result
  | S i' =>
    if test leadingPrefacePattern result
    then strip_leading_preface i' (trim (replace leadingPrefacePattern [] result))
    else result
  end.

Definition trimPreface (text : jsstring) : jsstring :=
  let trimmed := trim text in
  if negb (nonempty trimmed) then trimmed
  else if existsb (fun p => test p trimmed) keepTopicPatterns then trimmed
  else strip_leading_preface 3 trimmed.

(** ** refineQuestionAlgorithmically *)

(** [/[\s、。！？]+/] *)
Definition re_token_sep : regex := Plus (Class (space_or "、。！？")).

(** [/\s+/g] *)
Definition re_spaces : regex := Plus (Class is_space).

(** [/[、。！？\s]*$/] *)
Definition re_trailing_punct : regex :=
  Seq (Star (Class (space_or "、。！？"))) Eol.

(** [/\s*(です|ます|だ|である|でしょう|かな|よね)?\s*$/i]: no character of
    the pattern has a case variant, so the [i] flag changes nothing. *)
Definition re_trailing_particle : regex :=
  Seq (Star (Class is_space))
    (Seq (Opt (Words ["です"; "ます"; "だ"; "である"; "でしょう"; "かな"; "よね"]%string))
      (Seq (Star (Class is_space)) Eol)).

(** Step 2: a word is dropped when it repeats the previous one and is a
    filler. *)
Fixpoint deduplicate (lastWord : jsstring) (cleanedWords : list jsstring)
  : list jsstring :=
  match cleanedWords with
  | [] => []
  | word :: rest =>
    if negb (str_eqb word lastWord) || negb (fillerWords_has word)
    then word :: deduplicate word rest
    else deduplicate word rest
  end.

Definition is_latin_letter (c : char16) : bool :=
  ((0x61 <=? c)%N && (c <=? 0x7A)%N) || ((0x41 <=? c)%N && (c <=? 0x5A)%N).

(** [toUpperCase] of one Latin letter. *)
Definition upper_latin (c : char16) : char16 :=
  if ((0x61 <=? c)%N && (c <=? 0x7A)%N) then (c - 0x20)%N else c.

Definition qmark_full : jsstring := utf16 "？".
Definition qmark_ascii : jsstring := utf16 "?".

(** [String.prototype.toLowerCase]: the Unicode case mapping is a
    parameter of the development. *)
Class Locale : Type := {
  toLowerCase : jsstring -> jsstring
}.

(** The two methods of [QuestionDetector] that the processor calls; the
    class is not part of the sources at hand. *)
Class QuestionDetector : Type := {
  detectQuestion : TranscriptionResult -> option DetectedQuestion;
  isValidQuestion : DetectedQuestion -> bool
}.

Section TextPipeline.

Context {locale : Locale}.

(** Steps 1 to 7: the text before the fallback test. *)
Definition refine_steps (text : jsstring) : jsstring :=
  let refined := trim (toLowerCase text) in
  let words :=
    filter (fun word => (0 <? length word)%nat) (split re_token_sep refined) in
  let cleanedWords := filter (fun word => negb (fillerWords_has word)) words in
  let deduplicatedWords := deduplicate [] cleanedWords in
  let refined := join (utf16 " ") deduplicatedWords in
  let refined := trim (replaceAll re_spaces (utf16 " ") refined) in
  let refined := replace re_trailing_punct [] refined in
  let refined := replace re_trailing_particle [] refined in
  let refined :=
    if negb (endsWith refined qmark_full) && negb (endsWith refined qmark_ascii)
    then
      let hasQuestionWord :=
        existsb (fun starter => includes refined starter) questionStarters in
      if hasQuestionWord || looksLikeQuestion refined
      then refined ++ qmark_full
      else refined
    else refined in
  match refined with
  | c :: rest => if is_latin_letter c then upper_latin c :: rest else refined
  | [] => refined
  end.

(** The fallback test: [refined.length < 3 ||
    refined.replace(/[？?]/g, '').trim().length < 2]. *)
Definition too_aggressive (refined : jsstring) : bool :=
  (length refined <? 3)%nat
  || (length (trim (replaceAll re_qmark [] refined)) <? 2)%nat.

Definition refineQuestionAlgorithmically (text : jsstring) : jsstring :=
  let refined := refine_steps text in
  if too_aggressive refined then text else refined.

End TextPipeline.

Definition lower_latin (c : char16) : char16 :=
  if ((0x41 <=? c)%N && (c <=? 0x5A)%N) then (c + 0x20)%N else c.

(** A lower-casing that agrees with JavaScript on every string whose
    cased characters are all in the ASCII range (kana, kanji and the
    punctuation of the examples have no case). *)
Definition latin : Locale := {| toLowerCase := map lower_latin |}.

(** ** The processor object *)

(** The fields of the class ([lastSilenceTime] and [tempBuffer] are never
    used and are left out; [fillerWords] and [questionStarters] are the
    constants above), and of the [EventEmitter] it extends the one thing
    the class depends on: [errorListeners] is
    [this.listenerCount('error')]. *)
Record Processor : Type := {
  errorListeners : nat;
  state : AudioStreamState;
  config : AudioStreamConfig;
  currentAudioData : list Float32Array;
  wordCount : Z;
  lastChunkTime : Z;
  accumulatedSamples : Z;
  recentAudioBuffer : list jsstring;
  lastQuestionHintTime : Z;
  streamingBuffer : jsstring;
  lastStreamingCheck : Z
}.

Definition set_errorListeners (v : nat) (p : Processor) : Processor :=
  {| errorListeners := v; state := state p; config := config p;
     currentAudioData := currentAudioData p;
     wordCount := wordCount p; lastChunkTime := lastChunkTime p;
     accumulatedSamples := accumulatedSamples p;
     recentAudioBuffer := recentAudioBuffer p;
     lastQuestionHintTime := lastQuestionHintTime p;
     streamingBuffer := streamingBuffer p;
     lastStreamingCheck := lastStreamingCheck p |}.

Definition set_state (v : AudioStreamState) (p : Processor) : Processor :=
  {| errorListeners := errorListeners p;
     state := v; config := config p; currentAudioData := currentAudioData p;
     wordCount := wordCount p; lastChunkTime := lastChunkTime p;
     accumulatedSamples := accumulatedSamples p;
     recentAudioBuffer := recentAudioBuffer p;
     lastQuestionHintTime := lastQuestionHintTime p;
     streamingBuffer := streamingBuffer p;
     lastStreamingCheck := lastStreamingCheck p |}.

Definition set_currentAudioData (v : list Float32Array) (p : Processor)
  : Processor :=
  {| errorListeners := errorListeners p;
     state := state p; config := config p; currentAudioData := v;
     wordCount := wordCount p; lastChunkTime := lastChunkTime p;
     accumulatedSamples := accumulatedSamples p;
     recentAudioBuffer := recentAudioBuffer p;
     lastQuestionHintTime := lastQuestionHintTime p;
     streamingBuffer := streamingBuffer p;
     lastStreamingCheck := lastStreamingCheck p |}.

Definition set_wordCount (v : Z) (p : Processor) : Processor :=
  {| errorListeners := errorListeners p;
     state := state p; config := config p;
     currentAudioData := currentAudioData p;
     wordCount := v; lastChunkTime := lastChunkTime p;
     accumulatedSamples := accumulatedSamples p;
     recentAudioBuffer := recentAudioBuffer p;
     lastQuestionHintTime := lastQuestionHintTime p;
     streamingBuffer := streamingBuffer p;
     lastStreamingCheck := lastStreamingCheck p |}.

Definition set_lastChunkTime (v : Z) (p : Processor) : Processor :=
  {| errorListeners := errorListeners p;
     state := state p; config := config p;
     currentAudioData := currentAudioData p;
     wordCount := wordCount p; lastChunkTime := v;
     accumulatedSamples := accumulatedSamples p;
     recentAudioBuffer := recentAudioBuffer p;
     lastQuestionHintTime := lastQuestionHintTime p;
     streamingBuffer := streamingBuffer p;
     lastStreamingCheck := lastStreamingCheck p |}.

Definition set_accumulatedSamples (v : Z) (p : Processor) : Processor :=
  {| errorListeners := errorListeners p;
     state := state p; config := config p;
     currentAudioData := currentAudioData p;
     wordCount := wordCount p; lastChunkTime := lastChunkTime p;
     accumulatedSamples := v;
     recentAudioBuffer := recentAudioBuffer p;
     lastQuestionHintTime := lastQuestionHintTime p;
     streamingBuffer := streamingBuffer p;
     lastStreamingCheck := lastStreamingCheck p |}.

Definition set_recentAudioBuffer (v : list jsstring) (p : Processor)
  : Processor :=
  {| errorListeners := errorListeners p;
     state := state p; config := config p;
     currentAudioData := currentAudioData p;
     wordCount := wordCount p; lastChunkTime := lastChunkTime p;
     accumulatedSamples := accumulatedSamples p;
     recentAudioBuffer := v;
     lastQuestionHintTime := lastQuestionHintTime p;
     streamingBuffer := streamingBuffer p;
     lastStreamingCheck := lastStreamingCheck p |}.

Definition set_lastQuestionHintTime (v : Z) (p : Processor) : Processor :=
  {| errorListeners := errorListeners p;
     state := state p; config := config p;
     currentAudioData := currentAudioData p;
     wordCount := wordCount p; lastChunkTime := lastChunkTime p;
     accumulatedSamples := accumulatedSamples p;
     recentAudioBuffer := recentAudioBuffer p;
     lastQuestionHintTime := v;
     streamingBuffer := streamingBuffer p;
     lastStreamingCheck := lastStreamingCheck p |}.

Definition set_streamingBuffer (v : jsstring) (p : Processor) : Processor :=
  {| errorListeners := errorListeners p;
     state := state p; config := config p;
     currentAudioData := currentAudioData p;
     wordCount := wordCount p; lastChunkTime := lastChunkTime p;
     accumulatedSamples := accumulatedSamples p;
     recentAudioBuffer := recentAudioBuffer p;
     lastQuestionHintTime := lastQuestionHintTime p;
     streamingBuffer := v;
     lastStreamingCheck := lastStreamingCheck p |}.

Definition set_lastStreamingCheck (v : Z) (p : Processor) : Processor :=
  {| errorListeners := errorListeners p;
     state := state p; config := config p;
     currentAudioData := currentAudioData p;
     wordCount := wordCount p; lastChunkTime := lastChunkTime p;
     accumulatedSamples := accumulatedSamples p;
     recentAudioBuffer := recentAudioBuffer p;
     lastQuestionHintTime := lastQuestionHintTime p;
     streamingBuffer := streamingBuffer p;
     lastStreamingCheck := v |}.

Definition set_isListening (v : bool) (s : AudioStreamState)
  : AudioStreamState :=
  {| isListening := v; isProcessing := isProcessing s;
     lastActivityTime := lastActivityTime s;
     questionBuffer := questionBuffer s |}.

Definition set_isProcessing (v : bool) (s : AudioStreamState)
  : AudioStreamState :=
  {| isListening := isListening s; isProcessing := v;
     lastActivityTime := lastActivityTime s;
     questionBuffer := questionBuffer s |}.

Definition set_lastActivityTime (v : Z) (s : AudioStreamState)
  : AudioStreamState :=
  {| isListening := isListening s; isProcessing := isProcessing s;
     lastActivityTime := v;
     questionBuffer := questionBuffer s |}.

Definition set_questionBuffer (v : list DetectedQuestion)
           (s : AudioStreamState) : AudioStreamState :=
  {| isListening := isListening s; isProcessing := isProcessing s;
     lastActivityTime := lastActivityTime s;
     questionBuffer := v |}.

(** The object the constructor builds. *)
Definition new_Processor (cfg : AudioStreamConfig) : Processor := {|
  errorListeners := 0;
  state := {| isListening := false; isProcessing := false;
              lastActivityTime := 0; questionBuffer := [] |};
  config := cfg;
  currentAudioData := [];
  wordCount := 0;
  lastChunkTime := 0;
  accumulatedSamples := 0;
  recentAudioBuffer := [];
  lastQuestionHintTime := 0;
  streamingBuffer := [];
  lastStreamingCheck := 0
|}.

(** ** Events, suspended calls and the world *)

Inductive Event : Type :=
| state_changed (snapshot : AudioStreamState)
| chunk_recorded (chunk : AudioChunk)
| transcription_completed (result : TranscriptionResult)
| question_detected (question : DetectedQuestion)
| error (e : JsError).

(** Who runs [createAndProcessChunk]: [processAudioChunk], which awaits it
    inside its own [try], or the streaming detection, which lets it go
    with a [.catch] that only logs. *)
Inductive Caller : Type :=
| by_processAudioChunk
| by_streaming_detection.

(** An [async] call that is suspended at an [await], named by the place
    where it waits.
    - [await_shouldCreateChunk]: [processAudioChunk] at
      [await this.shouldCreateChunk()], with the value the promise holds;
    - [await_transcription]: [transcribeChunk] between the writing of the
      temporary file and its removal, that is during the call of the
      transcription service;
    - [await_Promise_all]: [detectAndRefineQuestions] at
      [await Promise.all(questionPromises)], with the settled values;
    - [await_detectAndRefineQuestions]: [transcribeChunk] at
      [await this.detectAndRefineQuestions(result)], once that call has
      returned. *)
Inductive Task : Type :=
| await_shouldCreateChunk (shouldCreateChunk : bool)
| await_transcription (caller : Caller) (chunk : AudioChunk)
| await_Promise_all (caller : Caller)
                    (questions : list (option DetectedQuestion))
| await_detectAndRefineQuestions (caller : Caller).

Record World : Type := {
  this : Processor;
  emitted : list Event;
  pending : list Task;
  clock : Z;
  next_uuid : uuid
}.

Definition with_this (p : Processor) (w : World) : World :=
  {| this := p; emitted := emitted w; pending := pending w;
     clock := clock w; next_uuid := next_uuid w |}.

Definition with_clock (now : Z) (w : World) : World :=
  {| this := this w; emitted := emitted w; pending := pending w;
     clock := now; next_uuid := next_uuid w |}.

Definition with_pending (l : list Task) (w : World) : World :=
  {| this := this w; emitted := emitted w; pending := l;
     clock := clock w; next_uuid := next_uuid w |}.

(** ** The monad of one synchronous segment

    A segment returns a value, throws, or stops at an [await] after it
    has registered the suspended call. *)

Inductive Completion (A : Type) : Type :=
| Returned (a : A)
| Thrown (e : JsError)
| Suspended.

Arguments Returned {A} a.
Arguments Thrown {A} e.
Arguments Suspended {A}.

Definition M (A : Type) : Type := World -> Completion A * World.

Definition ret {A} (a : A) : M A := fun w => (Returned a, w).

Definition bind {A B} (m : M A) (f : A -> M B) : M B :=
  fun w =>
    match m w with
    | (Returned a, w') => f a w'
    | (Thrown e, w') => (Thrown e, w')
    | (Suspended, w') => (Suspended, w')
    end.

Declare Scope js_scope.
Delimit Scope js_scope with js.
Notation "x <- m ;; k" := (bind m (fun x => k))
  (at level 61, m at next level, right associativity) : js_scope.
Notation "m ;; k" := (bind m (fun _ => k))
  (at level 61, right associativity) : js_scope.
Open Scope js_scope.

Definition throw {A} (e : JsError) : M A := fun w => (Thrown e, w).

Definition try_catch {A} (body : M A) (handler : JsError -> M A) : M A :=
  fun w =>
    match body w with
    | (Thrown e, w') => handler e w'
    | r => r
    end.

(** [try { body } finally { final }]: the block runs when the body
    returns or throws, not while it is suspended. *)
Definition try_finally {A} (body : M A) (final : M unit) : M A :=
  fun w =>
    match body w with
    | (Suspended, w') => (Suspended, w')
    | (c, w') =>
      match final w' with
      | (Returned _, w'') => (c, w'')
      | (Thrown e, w'') => (Thrown e, w'')
      | (Suspended, w'') => (Suspended, w'')
      end
    end.

(** A call that is not awaited and whose rejection is only logged. *)
Definition detached (m : M unit) : M unit :=
  fun w => (Returned tt, snd (m w)).

Definition get {A} (f : Processor -> A) : M A :=
  fun w => (Returned (f (this w)), w).

Definition update (f : Processor -> Processor) : M unit :=
  fun w => (Returned tt, with_this (f (this w)) w).

Definition update_state (f : AudioStreamState -> AudioStreamState) : M unit :=
  update (fun p => set_state (f (state p)) p).

(** [this.emit(name, payload)]. An ['error'] that nobody listens for is
    thrown (the payload itself, which is an [Error] object wherever the
    class emits one); every other event, heard or not, is on record. *)
Definition unheard (e : Event) (p : Processor) : option JsError :=
  match e with
  | error x => if (errorListeners p =? 0)%nat then Some x else None
  | _ => None
  end.

Definition announce (e : Event) : M unit :=
  fun w => (Returned tt,
            {| this := this w; emitted := emitted w ++ [e];
               pending := pending w; clock := clock w;
               next_uuid := next_uuid w |}).

Definition emit (e : Event) : M unit :=
  fun w =>
    match unheard e (this w) with
    | Some x => (Thrown x, w)
    | None => announce e w
    end.

Definition Date_now : M Z := fun w => (Returned (clock w), w).

Definition uuidv4 : M uuid :=
  fun w => (Returned (next_uuid w),
            {| this := this w; emitted := emitted w; pending := pending w;
               clock := clock w; next_uuid := S (next_uuid w) |}).

(** [await]: the call is parked and the segment ends. *)
Definition await {A} (t : Task) : M A :=
  fun w => (Suspended, with_pending (pending w ++ [t]) w).

Definition when (b : bool) (m : M unit) : M unit :=
  if b then m else ret tt.

Fixpoint for_each {A} (l : list A) (body : A -> M unit) : M unit :=
  match l with
  | [] => ret tt
  | x :: l' => body x ;; for_each l' body
  end.

Fixpoint map_M {A B} (f : A -> M B) (l : list A) : M (list B) :=
  match l with
  | [] => ret []
  | x :: l' => y <- f x ;; ys <- map_M f l' ;; ret (y :: ys)
  end.

(** [this.emit('state-changed', { ...this.state })] *)
Definition emit_state_changed : M unit :=
  snapshot <- get state ;; emit (state_changed snapshot).

(** ** The methods of the class *)

Definition Buffer := list byte.

(** [audioData.readInt16LE(i * 2)] for [i] below
    [new Float32Array(audioData.length / 2).length]: a byte left over at
    the end of an odd-sized buffer is not read. *)
Definition int16_of (lo hi : byte) : Z :=
  let u := (Z.of_N (Byte.to_N lo) + 256 * Z.of_N (Byte.to_N hi))%Z in
  if (u <? 32768)%Z then u else (u - 65536)%Z.

Fixpoint to_Float32Array (audioData : Buffer) : Float32Array :=
  match audioData with
  | lo :: hi :: rest => int16_of lo hi :: to_Float32Array rest
  | _ => []
  end.

(** The outcome of the transcription request: a rejection, or the [text]
    field of the response (which may be missing). *)
Definition Answer : Type := JsError + option jsstring.

Definition quickQuestionPatterns : list jsstring := map utf16 [
  "どう"; "どの"; "どこ"; "いつ"; "なぜ"; "なん"; "何"; "だれ"; "誰";
  "ですか"; "ますか"; "でしょうか"; "か？"; "か。"
]%string.

(** The patterns of the streaming scan, character classes as written. *)
Definition streamingQuestionPatterns : list regex := [
  Seq (Lit "どう") (Seq (Class (one_of "です|でしょう|思い|考え"))
    (Seq (Star Dot) (Class (one_of "か？"))));
  Seq (Lit "何") (Seq (Class (one_of "が|を|で|に"))
    (Seq (Star Dot) (Class (one_of "か？"))));
  Seq (Lit "いつ") (Seq (Star Dot) (Class (one_of "か？")));
  Seq (Lit "どこ") (Seq (Star Dot) (Class (one_of "か？")));
  Seq (Lit "だれ") (Seq (Star Dot) (Class (one_of "か？")));
  Seq (Lit "なぜ") (Seq (Star Dot) (Class (one_of "か？")));
  Seq (Class (one_of "です|ます")) (Seq (Lit "か") (Class (one_of "？。")));
  Seq (Lit "でしょうか") (Class (one_of "？。"))
].

Section Methods.

Context {locale : Locale} {detector : QuestionDetector}.

Definition calculateDuration (sampleCount : Z) : M number :=
  rate <- get (fun p => sampleRate (config p)) ;;
  ret (milliseconds sampleCount rate).

Definition startListening : M unit :=
  listening <- get (fun p => isListening (state p)) ;;
  if listening then ret tt
  else
    try_catch
      (update_state (set_isListening true) ;;
       now <- Date_now ;;
       update_state (set_lastActivityTime now) ;;
       emit_state_changed)
      (fun e =>
         update_state (set_isListening false) ;;
         emit (error e) ;;
         throw e).

Definition stopListening : M unit :=
  listening <- get (fun p => isListening (state p)) ;;
  if negb listening then ret tt
  else
    try_catch
      (update_state (set_isListening false) ;;
       update_state (set_isProcessing false) ;;
       update (set_currentAudioData []) ;;
       update (set_wordCount 0) ;;
       emit_state_changed)
      (fun e => emit (error e)).

Definition hasRecentQuestionActivity : M bool :=
  now <- Date_now ;;
  lastHint <- get lastQuestionHintTime ;;
  if (now - lastHint <? 3000)%Z then ret true
  else
    recent <- get recentAudioBuffer ;;
    let recentText := toLowerCase (join (utf16 " ") recent) in
    let hasQuestionPattern :=
      existsb (fun pattern => includes recentText pattern)
              quickQuestionPatterns in
    when hasQuestionPattern (update (set_lastQuestionHintTime now)) ;;
    ret hasQuestionPattern.

Definition shouldCreateChunk : M bool :=
  now <- Date_now ;;
  lastChunk <- get lastChunkTime ;;
  let timeSinceLastChunk := (now - lastChunk)%Z in
  samples <- get accumulatedSamples ;;
  rate <- get (fun p => sampleRate (config p)) ;;
  let accumulatedDuration := milliseconds samples rate in
  let shouldCreateByDuration := Number_ge accumulatedDuration (Number 2000) in
  let shouldCreateByTime := (4000 <=? timeSinceLastChunk)%Z in
  words <- get wordCount ;;
  limit <- get (fun p => maxWords (config p)) ;;
  let shouldCreateByWords := (limit <=? words)%Z in
  shouldCreateByQuestionHint <- hasRecentQuestionActivity ;;
  ret (shouldCreateByDuration || shouldCreateByTime
       || shouldCreateByWords || shouldCreateByQuestionHint).

(** The [try ... catch ... finally] of [transcribeChunk]. *)
Definition transcribeChunk_try (body : M unit) : M unit :=
  try_finally
    (try_catch body (fun e => emit (error e)))
    (update_state (set_isProcessing false) ;;
     emit_state_changed).

(** [transcribeChunk] up to the request. The bytes sent (the PCM
    conversion and the WAV header) belong to the request and are not
    modelled. *)
Definition transcribeChunk (caller : Caller) (chunk : AudioChunk) : M unit :=
  enabled <- get (fun p => questionDetectionEnabled (config p)) ;;
  if negb enabled then ret tt
  else
    transcribeChunk_try
      (update_state (set_isProcessing true) ;;
       emit_state_changed ;;
       await (await_transcription caller chunk)).

Definition createAndProcessChunk_catch (e : JsError) : M unit :=
  emit (error e) ;;
  update_state (set_isListening false) ;;
  emit_state_changed.

Definition createAndProcessChunk (caller : Caller) : M unit :=
  batches <- get currentAudioData ;;
  if (length batches =? 0)%nat then ret tt
  else
    try_catch
      (let combinedArray := concat batches in
       id <- uuidv4 ;;
       timestamp <- Date_now ;;
       duration <- calculateDuration (Z.of_nat (length combinedArray)) ;;
       words <- get wordCount ;;
       let chunk := {| chunk_id := id; chunk_data := combinedArray;
                       chunk_timestamp := timestamp;
                       chunk_duration := duration;
                       chunk_wordCount := words |} in
       update (set_currentAudioData []) ;;
       update (set_wordCount 0) ;;
       update (set_accumulatedSamples 0) ;;
       now <- Date_now ;;
       update (set_lastChunkTime now) ;;
       emit (chunk_recorded chunk) ;;
       transcribeChunk caller chunk)
      createAndProcessChunk_catch.

Definition processAudioChunk_catch (e : JsError) : M unit :=
  emit (error e) ;;
  update_state (set_isListening false) ;;
  emit_state_changed.

(** [processAudioChunk] up to [await this.shouldCreateChunk()]. *)
Definition processAudioChunk (audioData : Buffer) : M unit :=
  listening <- get (fun p => isListening (state p)) ;;
  if negb listening then ret tt
  else
    try_catch
      (let float32Array := to_Float32Array audioData in
       update (fun p =>
         set_currentAudioData (currentAudioData p ++ [float32Array]) p) ;;
       update (fun p =>
         set_accumulatedSamples
           (accumulatedSamples p + Z.of_nat (length float32Array))%Z p) ;;
       now <- Date_now ;;
       update_state (set_lastActivityTime now) ;;
       lastChunk <- get lastChunkTime ;;
       when (lastChunk =? 0)%Z
         (now <- Date_now ;; update (set_lastChunkTime now)) ;;
       shouldCreate <- shouldCreateChunk ;;
       await (await_shouldCreateChunk shouldCreate))
      processAudioChunk_catch.

(** ... and from there on. *)
Definition processAudioChunk_resume (shouldCreate : bool) : M unit :=
  try_catch
    (when shouldCreate (createAndProcessChunk by_processAudioChunk))
    processAudioChunk_catch.

Definition updateRecentAudioBuffer (text : jsstring) : M unit :=
  if negb (nonempty text) || (length (trim text) =? 0)%nat then ret tt
  else
    update (fun p =>
      set_recentAudioBuffer (recentAudioBuffer p ++ [toLowerCase text]) p) ;;
    recent <- get recentAudioBuffer ;;
    when (10 <? length recent)%nat
      (update (fun p => set_recentAudioBuffer (tl (recentAudioBuffer p)) p)).

Definition performStreamingQuestionDetection (newText : jsstring) : M unit :=
  now <- Date_now ;;
  update (fun p =>
    set_streamingBuffer (streamingBuffer p ++ utf16 " " ++ newText) p) ;;
  buffer <- get streamingBuffer ;;
  when (500 <? length buffer)%nat
    (update (set_streamingBuffer (slice_last 500 buffer))) ;;
  lastCheck <- get lastStreamingCheck ;;
  if (now - lastCheck <? 500)%Z then ret tt
  else
    update (set_lastStreamingCheck now) ;;
    buffer <- get streamingBuffer ;;
    let streamingText := trim (toLowerCase buffer) in
    let hasStreamingQuestion :=
      existsb (fun pattern => test pattern streamingText)
              streamingQuestionPatterns in
    when hasStreamingQuestion
      (batches <- get currentAudioData ;;
       when (0 <? length batches)%nat
         (detached (createAndProcessChunk by_streaming_detection)) ;;
       update (set_streamingBuffer [])).

(** The body of the [async (part) => ...] passed to [map]; it contains
    no [await], so each promise is settled when [map] returns. *)
Definition questionPromise (detectedQuestion : option DetectedQuestion)
           (transcription : TranscriptionResult) (part : jsstring)
  : M (option DetectedQuestion) :=
  let core := trimPreface part in
  if negb (nonempty core) || (length (trim core) <? 2)%nat then ret None
  else
    id <- uuidv4 ;;
    let tempQuestion := {|
      q_id := id;
      q_text := trim core;
      q_timestamp := match detectedQuestion with
                     | Some d => q_timestamp d
                     | None => tr_timestamp transcription
                     end;
      q_confidence := match detectedQuestion with
                      | Some d => q_confidence d
                      | None => tr_confidence transcription
                      end;
      q_refinedText := None |} in
    if negb (isValidQuestion tempQuestion) && negb (looksLikeQuestion core)
    then ret None
    else
      let refinedText := refineQuestionAlgorithmically core in
      ret (Some {| q_id := q_id tempQuestion;
                   q_text := q_text tempQuestion;
                   q_timestamp := q_timestamp tempQuestion;
                   q_confidence := q_confidence tempQuestion;
                   q_refinedText := Some refinedText |}).

Definition detectAndRefineQuestions_catch (e : JsError) : M unit :=
  emit (error e).

(** [const baseText = detectedQuestion ? detectedQuestion.text :
    transcription.text] *)
Definition baseText (transcription : TranscriptionResult) : jsstring :=
  match detectQuestion transcription with
  | Some d => q_text d
  | None => tr_text transcription
  end.

(** [detectAndRefineQuestions] up to [await Promise.all(...)]. *)
Definition detectAndRefineQuestions (caller : Caller)
           (transcription : TranscriptionResult) : M unit :=
  try_catch
    (if negb (nonempty (tr_text transcription))
        || (length (trim (tr_text transcription)) <? 3)%nat
     then ret tt
     else
       let detectedQuestion := detectQuestion transcription in
       let questionParts := splitIntoQuestions (baseText transcription) in
       if (length questionParts =? 0)%nat then ret tt
       else
         questions <-
           map_M (questionPromise detectedQuestion transcription)
                 questionParts ;;
         await (await_Promise_all caller questions))
    detectAndRefineQuestions_catch.

Definition not_null {A} (l : list (option A)) : list A :=
  flat_map (fun o => match o with Some a => [a] | None => [] end) l.

(** ... and from there on. *)
Definition detectAndRefineQuestions_resume
           (questions : list (option DetectedQuestion)) : M unit :=
  try_catch
    (let allQuestions := not_null questions in
     for_each allQuestions (fun question =>
       update_state (fun s =>
         set_questionBuffer (questionBuffer s ++ [question]) s) ;;
       emit (question_detected question)) ;;
     when (0 <? length allQuestions)%nat emit_state_changed)
    detectAndRefineQuestions_catch.

(** [transcribeChunk] once the request is settled: a rejection is thrown
    at the [await], into the [catch] of [transcribeChunk]. *)
Definition transcribeChunk_settled (caller : Caller) (chunk : AudioChunk)
           (answer : Answer) : M unit :=
  transcribeChunk_try
    (text <- match answer with
             | inl e => throw e
             | inr text => ret text
             end ;;
     id <- uuidv4 ;;
     let result := {|
       tr_id := id;
       tr_text := match text with Some t => t | None => [] end;
       tr_timestamp := chunk_timestamp chunk;
       tr_confidence := 1;
       tr_isQuestion := false;
       tr_originalChunkId := chunk_id chunk |} in
     emit (transcription_completed result) ;;
     updateRecentAudioBuffer (tr_text result) ;;
     performStreamingQuestionDetection (tr_text result) ;;
     when (nonempty (trim (tr_text result)))
       (detectAndRefineQuestions caller result ;;
        await (await_detectAndRefineQuestions caller))).

Definition clearQuestions : M unit :=
  update_state (set_questionBuffer []) ;;
  emit_state_changed.

Definition getState : M AudioStreamState := get state.

Definition getQuestions : M (list DetectedQuestion) :=
  get (fun p => questionBuffer (state p)).

(** ** Resuming a suspended call

    A resumed segment of [transcribeChunk] still runs inside the [try]
    blocks of the calls that wait for it: the one of
    [createAndProcessChunk] and, around it, the one of
    [processAudioChunk] or the [.catch] of the streaming detection. *)
Definition in_callers (caller : Caller) (m : M unit) : M unit :=
  match caller with
  | by_processAudioChunk =>
    try_catch (try_catch m createAndProcessChunk_catch)
              processAudioChunk_catch
  | by_streaming_detection =>
    detached (try_catch m createAndProcessChunk_catch)
  end.

Definition resume (t : Task) (answer : Answer) : M unit :=
  match t with
  | await_shouldCreateChunk shouldCreate =>
    processAudioChunk_resume shouldCreate
  | await_transcription caller chunk =>
    in_callers caller (transcribeChunk_settled caller chunk answer)
  | await_Promise_all caller questions =>
    in_callers caller
      (transcribeChunk_try
         (detectAndRefineQuestions_resume questions ;;
          await (await_detectAndRefineQuestions caller)))
  | await_detectAndRefineQuestions caller =>
    in_callers caller (transcribeChunk_try (ret tt))
  end.

(** What [resume] runs inside the [try] blocks of the callers. *)
Definition resumed (t : Task) (answer : Answer) : M unit :=
  match t with
  | await_shouldCreateChunk shouldCreate =>
    processAudioChunk_resume shouldCreate
  | await_transcription caller chunk =>
    transcribeChunk_settled caller chunk answer
  | await_Promise_all caller questions =>
    transcribeChunk_try
      (detectAndRefineQuestions_resume questions ;;
       await (await_detectAndRefineQuestions caller))
  | await_detectAndRefineQuestions caller =>
    transcribeChunk_try (ret tt)
  end.

(** ** The event loop *)

(** The calls of a session that change the processor: the methods of
    the class and, of the inherited ones, [on('error', listener)] and
    [off('error', listener)] for a listener that was registered.
    [getState] and [getQuestions] only read the processor; [destroy]
    ends the life of the object (it removes the listeners and empties the
    accumulator and the question log) and is not a step of a session. *)
Inductive Call : Type :=
| call_startListening
| call_stopListening
| call_processAudioChunk (audioData : Buffer)
| call_clearQuestions
| call_on_error
| call_off_error.

(** What happens next, at the time the clock shows: a call of the
    control surface, or the resumption of the [i]-th suspended call (the
    answer is read by a call that waits for the transcription). *)
Inductive Stimulus : Type :=
| invoke (now : Z) (c : Call)
| settle (now : Z) (i : nat) (answer : Answer).

Definition on_error : M unit :=
  update (fun p => set_errorListeners (S (errorListeners p)) p).

Definition off_error : M unit :=
  update (fun p => set_errorListeners (pred (errorListeners p)) p).

Definition run_call (c : Call) : M unit :=
  match c with
  | call_startListening => startListening
  | call_stopListening => stopListening
  | call_processAudioChunk audioData => processAudioChunk audioData
  | call_clearQuestions => clearQuestions
  | call_on_error => on_error
  | call_off_error => off_error
  end.

Fixpoint remove_nth {A} (i : nat) (l : list A) : list A :=
  match i, l with
  | _, [] => []
  | O, _ :: l' => l'
  | S i', x :: l' => x :: remove_nth i' l'
  end.

Definition run_stimulus (s : Stimulus) : M unit :=
  match s with
  | invoke now c => fun w => run_call c (with_clock now w)
  | settle now i answer => fun w =>
    match nth_error (pending w) i with
    | Some t =>
      resume t answer
        (with_clock now (with_pending (remove_nth i (pending w)) w))
    | None => (Returned tt, w)
    end
  end.

Definition step (w : World) (s : Stimulus) : World := snd (run_stimulus s w).

Definition run (w : World) (trace : list Stimulus) : World :=
  fold_left step trace w.

End Methods.

Definition new_World (cfg : AudioStreamConfig) : World := {|
  this := new_Processor cfg;
  emitted := [];
  pending := [];
  clock := 0;
  next_uuid := 0
|}.

(** ** Instances and measures used in the statements *)

(** A detector that isolates no span of its own, with the validator left
    open. *)
Definition silent_detector (valid : DetectedQuestion -> bool)
  : QuestionDetector :=
  {| detectQuestion := fun _ => None; isValidQuestion := valid |}.

(** Samples held in the accumulator. *)
Definition buffered (p : Processor) : Z :=
  Z.of_nat (length (concat (currentAudioData p))).

(** Samples of all chunks announced so far. *)
Fixpoint chunked (events : list Event) : Z :=
  match events with
  | [] => 0
  | chunk_recorded c :: rest =>
    (Z.of_nat (length (chunk_data c)) + chunked rest)%Z
  | _ :: rest => chunked rest
  end.

Definition questions_of (events : list Event) : list DetectedQuestion :=
  flat_map (fun e => match e with question_detected q => [q] | _ => [] end)
           events.

Definition errors_of (events : list Event) : list JsError :=
  flat_map (fun e => match e with error x => [x] | _ => [] end) events.

Definition chunks_of (events : list Event) : list AudioChunk :=
  flat_map (fun e => match e with chunk_recorded c => [c] | _ => [] end)
           events.

(** Samples a stimulus hands to a listening processor. *)
Definition ingested_by (w : World) (s : Stimulus) : Z :=
  match s with
  | invoke _ (call_processAudioChunk audioData) =>
    if isListening (state (this w))
    then Z.of_nat (length (to_Float32Array audioData))
    else 0%Z
  | _ => 0%Z
  end.

(** Samples a stimulus throws away: what the accumulator holds when a
    listening processor is stopped. *)
Definition discarded_by (w : World) (s : Stimulus) : Z :=
  match s with
  | invoke _ call_stopListening =>
    if isListening (state (this w)) then buffered (this w) else 0%Z
  | _ => 0%Z
  end.

Section Accounting.

Context {locale : Locale} {detector : QuestionDetector}.

Fixpoint ingested (w : World) (trace : list Stimulus) : Z :=
  match trace with
  | [] => 0%Z
  | s :: rest => (ingested_by w s + ingested (step w s) rest)%Z
  end.

Fixpoint discarded (w : World) (trace : list Stimulus) : Z :=
  match trace with
  | [] => 0%Z
  | s :: rest => (discarded_by w s + discarded (step w s) rest)%Z
  end.

End Accounting.

(** [silence n]: a buffer of [n] samples. *)
Definition silence (n : Z) : Buffer := repeat x00 (Z.to_nat (2 * n)).

Definition t0 : Z := 1700000000000.

Definition time_of (s : Stimulus) : Z :=
  match s with
  | invoke now _ => now
  | settle now _ _ => now
  end.

(** Samples accounted for: announced in a chunk or still in the
    accumulator. *)
Definition settled (w : World) : Z := (chunked (emitted w) + buffered (this w))%Z.

Definition idle_is_empty (w : World) : Prop :=
  isListening (state (this w)) = false -> currentAudioData (this w) = [].

(** Samples are neither created nor dropped, and an idle processor holds
    none. *)
Definition conserving (w w' : World) : Prop :=
  settled w' = settled w /\ (idle_is_empty w -> idle_is_empty w').

(** The time of the last streaming scan stays, or moves to the current
    time when that is at least 500 ms later; and a streaming buffer within
    its cap stays within it. *)
Definition paced (w w' : World) : Prop :=
  clock w' = clock w
  /\ (lastStreamingCheck (this w') = lastStreamingCheck (this w)
      \/ (lastStreamingCheck (this w') = clock w
          /\ (500 <= clock w - lastStreamingCheck (this w))%Z))
  /\ ((length (streamingBuffer (this w)) <= 500)%nat ->
      (length (streamingBuffer (this w')) <= 500)%nat).

(** A segment whose every run is related by [R] to the world it starts
    from, and a segment that never throws. *)
Definition sound (R : World -> World -> Prop) {A} (m : M A) : Prop :=
  forall w, R w (snd (m w)).

Definition quiet {A} (m : M A) : Prop := forall w e, fst (m w) <> Thrown e.

(** The listeners are the ones there were; and a segment that throws
    only when nobody listens for errors. *)
Definition same_listeners (w w' : World) : Prop :=
  errorListeners (this w') = errorListeners (this w).

Definition contained {A} (m : M A) : Prop :=
  forall w e, fst (m w) = Thrown e -> errorListeners (this w) = 0%nat.

(** The chunk [createAndProcessChunk] builds, and the world once the
    accumulator is emptied into it. *)
Definition next_chunk (w : World) : AudioChunk := {|
  chunk_id := next_uuid w;
  chunk_data := concat (currentAudioData (this w));
  chunk_timestamp := clock w;
  chunk_duration :=
    milliseconds (Z.of_nat (length (concat (currentAudioData (this w)))))
                 (sampleRate (config (this w)));
  chunk_wordCount := wordCount (this w)
|}.

Definition drained (w : World) : World := {|
  this := set_lastChunkTime (clock w)
            (set_accumulatedSamples 0
               (set_wordCount 0 (set_currentAudioData [] (this w))));
  emitted := emitted w ++ [chunk_recorded (next_chunk w)];
  pending := pending w;
  clock := clock w;
  next_uuid := S (next_uuid w)
|}.

(** The accumulator once a batch is in ([processAudioChunk] up to the
    boundary check). *)
Definition accumulated (audioData : Buffer) (w : World) : World :=
  let float32Array := to_Float32Array audioData in
  let p := this w in
  with_this
    (set_lastChunkTime
       (if (lastChunkTime p =? 0)%Z then clock w else lastChunkTime p)
       (set_state (set_lastActivityTime (clock w) (state p))
          (set_accumulatedSamples
             (accumulatedSamples p + Z.of_nat (length float32Array))%Z
             (set_currentAudioData (currentAudioData p ++ [float32Array]) p))))
    w.

(** The world a listening processor is left in by [stopListening]. *)
Definition stopped (w : World) : World :=
  let s := set_isProcessing false (set_isListening false (state (this w))) in
  {| this := set_wordCount 0 (set_currentAudioData [] (set_state s (this w)));
     emitted := emitted w ++ [state_changed s];
     pending := pending w;
     clock := clock w;
     next_uuid := next_uuid w |}.

Definition accumulatedDuration (p : Processor) : number :=
  milliseconds (accumulatedSamples p) (sampleRate (config p)).

(** The four conditions the boundary policy is said to consist of, read
    at time [now] on the processor a batch has just been added to. *)
Definition boundary_reached (now : Z) (p : Processor) : Prop :=
  Number_ge (accumulatedDuration p) (Number 2000) = true
  \/ (4000 <= now - lastChunkTime p)%Z
  \/ (maxWords (config p) <= wordCount p)%Z
  \/ (now - lastQuestionHintTime p < 3000)%Z.

(** What is kept of the streaming buffer: its last 500 code units. *)
Definition capped (buffer : jsstring) : jsstring :=
  if (500 <? length buffer)%nat then slice_last 500 buffer else buffer.

(** The streaming buffer once the new text is in. *)
Definition fed (newText : jsstring) (w : World) : World :=
  with_this
    (set_streamingBuffer
       (capped (streamingBuffer (this w) ++ utf16 " " ++ newText)) (this w))
    w.

(** The world when the streaming scan starts: the text is in and the time
    of the scan is noted. *)
Definition scanning (newText : jsstring) (w : World) : World :=
  with_this (set_lastStreamingCheck (clock w) (this (fed newText w)))
            (fed newText w).

Section Views.

Context {locale : Locale}.

(** The scan of the recent transcripts that asserts a hint. *)
Definition recent_hint (p : Processor) : bool :=
  existsb
    (fun pattern =>
       includes (toLowerCase (join (utf16 " ") (recentAudioBuffer p))) pattern)
    quickQuestionPatterns.

Definition hinted (w : World) : World :=
  if (clock w - lastQuestionHintTime (this w) <? 3000)%Z then w
  else if recent_hint (this w)
       then with_this (set_lastQuestionHintTime (clock w) (this w)) w
       else w.

Definition decision (w : World) : bool :=
  Number_ge (accumulatedDuration (this w)) (Number 2000)
  || (4000 <=? clock w - lastChunkTime (this w))%Z
  || (maxWords (config (this w)) <=? wordCount (this w))%Z
  || ((clock w - lastQuestionHintTime (this w) <? 3000)%Z
      || recent_hint (this w)).

Definition hasStreamingQuestion (buffer : jsstring) : bool :=
  existsb (fun pattern => test pattern (trim (toLowerCase buffer)))
          streamingQuestionPatterns.

(** [performStreamingQuestionDetection] after its debounce test. *)
Definition scan : M unit :=
  now <- Date_now ;;
  update (set_lastStreamingCheck now) ;;
  buffer <- get streamingBuffer ;;
  when (hasStreamingQuestion buffer)
    (batches <- get currentAudioData ;;
     when (0 <? length batches)%nat
       (detached (createAndProcessChunk by_streaming_detection)) ;;
     update (set_streamingBuffer [])).

End Views.

(** [in_order ps s]: the strings [ps] occur in [s] one after the other,
    without overlap. *)
Inductive in_order : list jsstring -> jsstring -> Prop :=
| in_order_nil : forall s, in_order [] s
| in_order_cons : forall a p b ps,
    in_order ps b -> in_order (p :: ps) (a ++ p ++ b).

(** A settled [questionPromise] and the part it was made from. *)
Definition came_from (o : option DetectedQuestion) (part : jsstring) : Prop :=
  match o with
  | Some q => in_order [q_text q] part
  | None => True
  end.

(** ** Scenarios *)

Definition plain_detector : QuestionDetector := silent_detector (fun _ => false).

Definition listening_world : World :=
  step (locale := latin) (detector := plain_detector)
       (new_World defaultConfig) (invoke t0 call_startListening).

(** Audio is accumulated without a cut and the processor is stopped. *)
Definition stale_counter_trace : list Stimulus :=
  [ invoke t0 call_startListening;
    invoke (t0 + 10)%Z (call_processAudioChunk (silence 31999));
    settle (t0 + 10)%Z 0 (inr None);
    invoke (t0 + 20)%Z call_stopListening ].

(** The processor is started again and receives one sample. *)
Definition restart_trace : list Stimulus :=
  [ invoke (t0 + 30)%Z call_startListening;
    invoke (t0 + 40)%Z (call_processAudioChunk (silence 1));
    settle (t0 + 40)%Z 0 (inr None) ].

(** Two batches of 10 ms come four seconds apart: the second is cut into
    a chunk with the first, and the chunk is sent. *)
Definition first_cut_trace : list Stimulus :=
  [ invoke t0 call_startListening;
    invoke (t0 + 10)%Z (call_processAudioChunk (silence 160));
    settle (t0 + 10)%Z 0 (inr None);
    invoke (t0 + 4010)%Z (call_processAudioChunk (silence 160));
    settle (t0 + 4010)%Z 0 (inr None) ].

(** ... and the service answers with a transcript that holds a question
    word. *)
Definition old_transcript_trace : list Stimulus :=
  first_cut_trace
  ++ [ settle (t0 + 4500)%Z 0 (inr (Some (utf16 "どの")));
       settle (t0 + 4500)%Z 0 (inr None) ].

(** Three chunks are cut four seconds apart and sent, and 100 samples
    more are held. The service answers the first request with nothing,
    and 100 ms later the second with a question. *)
Definition blank_answer_trace : list Stimulus :=
  [ invoke t0 call_startListening;
    invoke (t0 + 10)%Z (call_processAudioChunk (silence 160));
    settle (t0 + 10)%Z 0 (inr None);
    invoke (t0 + 4010)%Z (call_processAudioChunk (silence 160));
    settle (t0 + 4010)%Z 0 (inr None);
    invoke (t0 + 8010)%Z (call_processAudioChunk (silence 160));
    settle (t0 + 8010)%Z 1 (inr None);
    invoke (t0 + 12010)%Z (call_processAudioChunk (silence 160));
    settle (t0 + 12010)%Z 2 (inr None);
    invoke (t0 + 12020)%Z (call_processAudioChunk (silence 100));
    settle (t0 + 12020)%Z 3 (inr None);
    settle (t0 + 13000)%Z 0 (inr None);
    settle (t0 + 13100)%Z 0 (inr (Some (utf16 "ですか。"))) ].

(** A session in which the transcription service answers [text] for the
    first chunk: two batches four seconds apart, the cut, the answer, and
    the two resumptions that follow it. *)
Definition transcript_trace (text : string) : list Stimulus :=
  [ invoke t0 call_startListening;
    invoke (t0 + 10)%Z (call_processAudioChunk (silence 160));
    settle (t0 + 10)%Z 0 (inr None);
    invoke (t0 + 4010)%Z (call_processAudioChunk (silence 160));
    settle (t0 + 4010)%Z 0 (inr None);
    settle (t0 + 5000)%Z 0 (inr (Some (utf16 text)));
    settle (t0 + 5000)%Z 0 (inr None);
    settle (t0 + 5000)%Z 0 (inr None) ].

Section Transcripts.

Context {locale : Locale} {detector : QuestionDetector}.

Definition questions_for (text : string) : list DetectedQuestion :=
  questions_of (emitted (run (new_World defaultConfig) (transcript_trace text))).

End Transcripts.

(** A transcript whose candidates all pass on the recognizer of the
    processor, whatever the validator of the detector says. *)
Definition recognised_alone (text : jsstring) : bool :=
  forallb
    (fun part =>
       let core := trimPreface part in
       negb (nonempty core) || (length (trim core) <? 2)%nat
       || looksLikeQuestion core)
    (splitIntoQuestions text).

(** A stimulus whose effect does not depend on the validator: any call,
    any resumption but that of a transcription whose answer holds a
    candidate only the validator could accept. *)
Definition validator_free (w : World) (s : Stimulus) : bool :=
  match s with
  | invoke _ _ => true
  | settle _ i answer =>
    match nth_error (pending w) i, answer with
    | Some (await_transcription _ _), inr (Some text) => recognised_alone text
    | _, _ => true
    end
  end.

Section ValidatorFree.

Context {locale : Locale}.

Fixpoint validator_free_run (w : World) (trace : list Stimulus) : bool :=
  match trace with
  | [] => true
  | s :: rest =>
    validator_free w s
    && validator_free_run (step (detector := plain_detector) w s) rest
  end.

End ValidatorFree.

(** The spec words the fallback test of refinement with the characters
    that are no punctuation; the source has no such notion (it removes
    question marks only, see [too_aggressive]). Punctuation here: the
    ASCII marks, the general punctuation block, the CJK marks and their
    full-width forms. *)
Definition is_punctuation (c : char16) : bool :=
  ((0x21 <=? c)%N && (c <=? 0x2F)%N) || ((0x3A <=? c)%N && (c <=? 0x40)%N)
  || ((0x5B <=? c)%N && (c <=? 0x60)%N) || ((0x7B <=? c)%N && (c <=? 0x7E)%N)
  || ((0x2010 <=? c)%N && (c <=? 0x205E)%N)
  || ((0x3001 <=? c)%N && (c <=? 0x3003)%N)
  || ((0x3008 <=? c)%N && (c <=? 0x301F)%N) || (c =? 0x30FB)%N
  || ((0xFF01 <=? c)%N && (c <=? 0xFF0F)%N)
  || ((0xFF1A <=? c)%N && (c <=? 0xFF20)%N)
  || ((0xFF3B <=? c)%N && (c <=? 0xFF40)%N)
  || ((0xFF5B <=? c)%N && (c <=? 0xFF65)%N).

Definition non_punctuation (s : jsstring) : jsstring :=
  filter (fun c => negb (is_punctuation c)) s.

(** ** The bytes sent to the transcription service

    [transcribeChunk] turns the samples of a chunk back into 16-bit PCM
    and [createTempAudioFile] puts a WAV header in front of them. Both
    are computed here as the source writes them: indexed writes into a
    zero-filled buffer, each of which throws a [RangeError] ([None]) when
    the value does not fit the field or the field does not fit the
    buffer. *)

(** [Buffer.alloc(size)] *)
Definition Buffer_alloc (size : nat) : Buffer := repeat x00 size.

(** The byte that holds [z] modulo 256. *)
Definition byte_of_Z (z : Z) : byte :=
  match Byte.of_N (Z.to_N (z mod 256)) with
  | Some b => b
  | None => x00
  end.

Definition Z_of_byte (b : byte) : Z := Z.of_N (Byte.to_N b).

(** The [n] low bytes of [value], least significant first (two's
    complement for a negative value). *)
Definition little_endian (n : nat) (value : Z) : list byte :=
  map (fun i => byte_of_Z (value / 256 ^ Z.of_nat i)) (seq 0 n).

(** [bytes] written over the content of [buf] from [offset] on. *)
Definition put (bytes : list byte) (offset : nat) (buf : Buffer) : Buffer :=
  firstn offset buf ++ bytes ++ skipn (offset + length bytes) buf.

(** [buf.writeUIntLE(value, offset, n)] for [n] of 2 and 4. *)
Definition writeUIntLE (n : nat) (value : Z) (offset : nat) (buf : Buffer)
  : option Buffer :=
  if (0 <=? value)%Z && (value <? 256 ^ Z.of_nat n)%Z
     && (offset + n <=? length buf)%nat
  then Some (put (little_endian n value) offset buf)
  else None.

Definition writeUInt16LE : Z -> nat -> Buffer -> option Buffer := writeUIntLE 2.
Definition writeUInt32LE : Z -> nat -> Buffer -> option Buffer := writeUIntLE 4.

Definition writeInt16LE (value : Z) (offset : nat) (buf : Buffer)
  : option Buffer :=
  if (-32768 <=? value)%Z && (value <=? 32767)%Z
     && (offset + 2 <=? length buf)%nat
  then Some (put (little_endian 2 value) offset buf)
  else None.

(** [buf.write(string, offset)] for an ASCII string: what does not fit is
    not written. *)
Definition Buffer_write (s : string) (offset : nat) (buf : Buffer) : Buffer :=
  put (firstn (length buf - offset) (list_byte_of_string s)) offset buf.

(** [buf.readUIntLE(offset, n)]; the source never reads a header back, the
    function is what a reader of the file applies. *)
Definition readUIntLE (n : nat) (offset : nat) (buf : Buffer) : Z :=
  fold_right (fun b acc => (Z_of_byte b + 256 * acc)%Z) 0%Z
             (firstn n (skipn offset buf)).

(** [Math.min] and [Math.max] on numbers that are not [NaN]. *)
Definition Math_min (a b : Q) : Q := if Qle_bool a b then a else b.
Definition Math_max (a b : Q) : Q := if Qle_bool a b then b else a.

(** The number a [Float32Array] element stands for (see the data model:
    an element is kept as the 16-bit integer it was made from). *)
Definition sample_value (v : Z) : Q := (inject_Z v / 32768)%Q.

(** The body of the conversion loop of [transcribeChunk]. *)
Definition pcm_value (v : Z) : Z :=
  let sample := Math_max (-1) (Math_min 1 (sample_value v)) in
  Qfloor (match (sample ?= 0)%Q with
          | Lt => sample * 32768
          | _ => sample * 32767
          end)%Q.

Fixpoint pcm_loop (data : Float32Array) (i : nat) (pcmBuffer : Buffer)
  : option Buffer :=
  match data with
  | [] => Some pcmBuffer
  | v :: rest =>
    match writeInt16LE (pcm_value v) (i * 2) pcmBuffer with
    | Some pcmBuffer' => pcm_loop rest (S i) pcmBuffer'
    | None => None
    end
  end.

Definition to_pcmBuffer (data : Float32Array) : option Buffer :=
  pcm_loop data 0 (Buffer_alloc (length data * 2)).

(** One write into the header and [offset += n]. *)
Definition header_write (write : nat -> Buffer -> option Buffer) (n : nat)
           (st : option (Buffer * nat)) : option (Buffer * nat) :=
  match st with
  | Some (header, offset) =>
    match write offset header with
    | Some header' => Some (header', (offset + n)%nat)
    | None => None
    end
  | None => None
  end.

(** The file [createTempAudioFile] writes. *)
Definition wavFile (sampleRate : Z) (buffer : Buffer) : option Buffer :=
  let channels := 1%Z in
  let bitsPerSample := 16%Z in
  let bytesPerSample := (bitsPerSample / 8)%Z in
  let blockAlign := (channels * bytesPerSample)%Z in
  let byteRate := (sampleRate * blockAlign)%Z in
  let dataSize := Z.of_nat (length buffer) in
  let fileSize := (36 + dataSize)%Z in
  let text s := fun offset header => Some (Buffer_write s offset header) in
  let st := Some (Buffer_alloc 44, 0%nat) in
  let st := header_write (text "RIFF"%string) 4 st in
  let st := header_write (writeUInt32LE fileSize) 4 st in
  let st := header_write (text "WAVE"%string) 4 st in
  let st := header_write (text "fmt "%string) 4 st in
  let st := header_write (writeUInt32LE 16) 4 st in
  let st := header_write (writeUInt16LE 1) 2 st in
  let st := header_write (writeUInt16LE channels) 2 st in
  let st := header_write (writeUInt32LE sampleRate) 4 st in
  let st := header_write (writeUInt32LE byteRate) 4 st in
  let st := header_write (writeUInt16LE blockAlign) 2 st in
  let st := header_write (writeUInt16LE bitsPerSample) 2 st in
  let st := header_write (text "data"%string) 4 st in
  let st := header_write (writeUInt32LE dataSize) 0 st in
  match st with
  | Some (header, _) => Some (header ++ buffer)
  | None => None
  end.

(** The header, field by field. *)
Definition wav_header (sampleRate dataSize : Z) : Buffer :=
  list_byte_of_string "RIFF" ++ little_endian 4 (36 + dataSize)%Z
  ++ list_byte_of_string "WAVEfmt " ++ little_endian 4 16
  ++ little_endian 2 1 ++ little_endian 2 1
  ++ little_endian 4 sampleRate ++ little_endian 4 (sampleRate * 2)%Z
  ++ little_endian 2 2 ++ little_endian 2 16
  ++ list_byte_of_string "data" ++ little_endian 4 dataSize.
(** The interrogatives and endings of the first eighteen patterns of
    [looksLikeQuestion], and what may follow a request ending in the last
    one: nothing, or one of [。?？]. *)
Definition questionMarkers : list string := [
  "どう"; "どの"; "どこ"; "いつ"; "なぜ"; "なん"; "何";
  "だれ"; "誰"; "どちら"; "どれ"; "いくら"; "いくつ";
  "ですか"; "ますか"; "でしょうか"; "かしら"; "のか"
]%string.

Definition requestTails : list string := [""; "。"; "?"; "？"]%string.
(** ** The footprint of a step

    What one step of the event loop can do to the world, as a sequence of
    the effects below. Each effect is a stretch of a method that runs
    without interruption; the theorem [step_footprint] ties them to the
    methods. *)

(** [startListening] on an idle processor. *)
Definition started (w : World) : World :=
  let s := set_lastActivityTime (clock w)
             (set_isListening true (state (this w))) in
  {| this := set_state s (this w);
     emitted := emitted w ++ [state_changed s];
     pending := pending w;
     clock := clock w;
     next_uuid := next_uuid w |}.

(** [clearQuestions]. *)
Definition cleared (w : World) : World :=
  let s := set_questionBuffer [] (state (this w)) in
  {| this := set_state s (this w);
     emitted := emitted w ++ [state_changed s];
     pending := pending w;
     clock := clock w;
     next_uuid := next_uuid w |}.

(** [transcribeChunk] up to the request, when detection is enabled. *)
Definition transcribing (caller : Caller) (chunk : AudioChunk) (w : World)
  : World :=
  let s := set_isProcessing true (state (this w)) in
  {| this := set_state s (this w);
     emitted := emitted w ++ [state_changed s];
     pending := pending w ++ [await_transcription caller chunk];
     clock := clock w;
     next_uuid := next_uuid w |}.

(** The [finally] block of [transcribeChunk]. *)
Definition processed (w : World) : World :=
  let s := set_isProcessing false (state (this w)) in
  {| this := set_state s (this w);
     emitted := emitted w ++ [state_changed s];
     pending := pending w;
     clock := clock w;
     next_uuid := next_uuid w |}.

(** One turn of the loop that logs and announces the questions. *)
Definition logged (question : DetectedQuestion) (w : World) : World :=
  let s := set_questionBuffer (questionBuffer (state (this w)) ++ [question])
             (state (this w)) in
  {| this := set_state s (this w);
     emitted := emitted w ++ [question_detected question];
     pending := pending w;
     clock := clock w;
     next_uuid := next_uuid w |}.

Section Footprint.

Context {locale : Locale}.

(** [updateRecentAudioBuffer]. *)
Definition remembered (text : jsstring) (w : World) : World :=
  if negb (nonempty text) || (length (trim text) =? 0)%nat then w
  else
    let recent := recentAudioBuffer (this w) ++ [toLowerCase text] in
    with_this
      (set_recentAudioBuffer
         (if (10 <? length recent)%nat then tl recent else recent) (this w))
      w.

(** Where a step comes from: a call of the control surface, or a
    suspended call that is resumed with the answer of the service. *)
Inductive Origin : Type :=
| from_call (c : Call)
| from_task (t : Task) (answer : Answer)
| from_nothing.

Definition origin (w : World) (s : Stimulus) : Origin :=
  match s with
  | invoke _ c => from_call c
  | settle _ i answer =>
    match nth_error (pending w) i with
    | Some t => from_task t answer
    | None => from_nothing
    end
  end.

(** The world a step starts from: the clock is set; a resumed call has
    left the pool; a batch handed to a listening processor is in the
    accumulator; a listener is added or removed. *)
Definition entry (w : World) (s : Stimulus) : World :=
  match s with
  | invoke now (call_processAudioChunk audioData) =>
    if isListening (state (this w))
    then accumulated audioData (with_clock now w)
    else with_clock now w
  | invoke now call_on_error => snd (on_error (with_clock now w))
  | invoke now call_off_error => snd (off_error (with_clock now w))
  | invoke now _ => with_clock now w
  | settle now i _ =>
    match nth_error (pending w) i with
    | Some _ => with_clock now (with_pending (remove_nth i (pending w)) w)
    | None => w
    end
  end.

(** Which call may park which suspended call: the boundary decision is
    awaited by [processAudioChunk]; the candidates by the resumed
    [transcribeChunk] that got a text; and the end of
    [detectAndRefineQuestions] by that call or by the one that waited for
    the candidates, for the same caller. A request to the service is
    parked by [transcribing] only. *)
Definition may_park (o : Origin) (t : Task) : Prop :=
  match t with
  | await_shouldCreateChunk _ =>
    exists audioData, o = from_call (call_processAudioChunk audioData)
  | await_transcription _ _ => False
  | await_Promise_all caller _ =>
    exists chunk text, o = from_task (await_transcription caller chunk) (inr text)
  | await_detectAndRefineQuestions caller =>
    (exists chunk text,
        o = from_task (await_transcription caller chunk) (inr text))
    \/ (exists questions answer,
           o = from_task (await_Promise_all caller questions) answer)
  end.

Inductive effect (o : Origin) : World -> World -> Prop :=
| eff_started w :
    o = from_call call_startListening ->
    isListening (state (this w)) = false ->
    effect o w (started w)
| eff_stopped w :
    o = from_call call_stopListening ->
    isListening (state (this w)) = true ->
    effect o w (stopped w)
| eff_cleared w :
    o = from_call call_clearQuestions ->
    effect o w (cleared w)
| eff_hinted w :
    (exists audioData, o = from_call (call_processAudioChunk audioData)) ->
    effect o w (hinted w)
| eff_parked t w :
    may_park o t ->
    effect o w (with_pending (pending w ++ [t]) w)
| eff_drained w :
    currentAudioData (this w) <> [] ->
    effect o w (drained w)
| eff_transcribing caller chunk w :
    questionDetectionEnabled (config (this w)) = true ->
    In chunk (chunks_of (emitted w)) ->
    effect o w (transcribing caller chunk w)
| eff_uuid w :
    effect o w (snd (uuidv4 w))
| eff_completed caller chunk text result w :
    o = from_task (await_transcription caller chunk) (inr text) ->
    tr_text result = match text with Some t => t | None => [] end ->
    tr_timestamp result = chunk_timestamp chunk ->
    tr_originalChunkId result = chunk_id chunk ->
    effect o w (snd (emit (transcription_completed result) w))
| eff_failed caller chunk e w :
    o = from_task (await_transcription caller chunk) (inl e) ->
    effect o w (snd (emit (error e) w))
| eff_remembered text w :
    effect o w (remembered text w)
| eff_fed text w :
    effect o w (fed text w)
| eff_scanned w :
    (500 <= clock w - lastStreamingCheck (this w))%Z ->
    effect o w (with_this (set_lastStreamingCheck (clock w) (this w)) w)
| eff_flushed w :
    effect o w (with_this (set_streamingBuffer [] (this w)) w)
| eff_logged caller questions answer question w :
    o = from_task (await_Promise_all caller questions) answer ->
    In (Some question) questions ->
    effect o w (logged question w)
| eff_announced caller questions answer w :
    o = from_task (await_Promise_all caller questions) answer ->
    effect o w (snd (emit_state_changed w))
| eff_processed t answer w :
    o = from_task t answer ->
    (forall b, t <> await_shouldCreateChunk b) ->
    effect o w (processed w).

Inductive effects (o : Origin) : World -> World -> Prop :=
| effects_done w : effects o w w
| effects_then a b c : effect o a b -> effects o b c -> effects o a c.

End Footprint.

(** The transcriptions announced so far. *)
Definition transcriptions_of (events : list Event) : list TranscriptionResult :=
  flat_map (fun e => match e with transcription_completed r => [r] | _ => [] end)
           events.

(** The defaults with question detection switched off. *)
Definition detection_off : AudioStreamConfig := {|
  sampleRate := 16000;
  chunkDuration := 1000;
  silenceThreshold := 800;
  maxWords := 40;
  questionDetectionEnabled := false;
  batchInterval := 0;
  maxBatchSize := 0
|}.

(** The transcription announced in the session in which the service
    answers "はい" for the first chunk. *)
Definition first_transcription : TranscriptionResult := {|
  tr_id := 1%nat;
  tr_text := utf16 "はい";
  tr_timestamp := (t0 + 4010)%Z;
  tr_confidence := 1;
  tr_isQuestion := false;
  tr_originalChunkId := 0%nat
|}.

(** * Properties *)

(** ** The string primitives on small inputs *)

Example split_ex1 :
  split (Class (one_of ",")) (utf16 "a,b,,c,") =
  [utf16 "a"; utf16 "b"; []; utf16 "c"; []].
Proof. reflexivity. Qed.

Example split_ex2 :
  split (Star (Chr 0x78%N)) (utf16 "axxb") = [utf16 "a"; utf16 "b"].
Proof. reflexivity. Qed.

Example replace_ex1 :
  replaceAll (Star (Chr 0x78%N)) (utf16 "-") (utf16 "abc") = utf16 "-a-b-c-".
Proof. reflexivity. Qed.

Example utf16_ex1 : utf16 "か？" = [0x304B; 0xFF1F]%N.
Proof. reflexivity. Qed.

(** ** Durations on small inputs *)

(** Two seconds exactly, and one sample less. *)
Example milliseconds_ex1 :
  milliseconds 32000 16000 = Number 2000
  /\ Number_ge (milliseconds 32000 16000) (Number 2000) = true
  /\ Number_ge (milliseconds 31999 16000) (Number 2000) = false.
Proof. vm_compute. auto. Qed.

(** 1001 samples: 62.56249999999999, one unit in the last place below
    62.5625 = 8804889115230208 / 2^47. *)
Example milliseconds_ex2 :
  milliseconds 1001 16000 = S754_finite false 8804889115230207 (-47).
Proof. vm_compute. reflexivity. Qed.

(** A sample rate of 0: Infinity, which is 2000 or more, or NaN, which
    is not. *)
Example milliseconds_ex3 :
  milliseconds 160 0 = S754_infinity false
  /\ Number_ge (milliseconds 160 0) (Number 2000) = true
  /\ milliseconds 0 0 = S754_nan
  /\ Number_ge (milliseconds 0 0) (Number 2000) = false.
Proof. vm_compute. auto. Qed.

(** * Reasoning about segments *)

Section Frame.

Variable R : World -> World -> Prop.
Hypothesis R_refl : forall w, R w w.
Hypothesis R_trans : forall a b c, R a b -> R b c -> R a c.

Lemma sound_ret A (a : A) : sound R (ret a).
Proof. intro w. apply R_refl. Qed.

Lemma sound_throw A e : sound R (@throw A e).
Proof. intro w. apply R_refl. Qed.

Lemma sound_get A (f : Processor -> A) : sound R (get f).
Proof. intro w. apply R_refl. Qed.

Lemma sound_Date_now : sound R Date_now.
Proof. intro w. apply R_refl. Qed.

Lemma sound_emit e : sound R (announce e) -> sound R (emit e).
Proof.
  intros H w. unfold emit. destruct (unheard e (this w)); [apply R_refl | apply H].
Qed.

Lemma sound_bind A B (m : M A) (f : A -> M B) :
  sound R m -> (forall a, sound R (f a)) -> sound R (bind m f).
Proof.
  intros Hm Hf w. unfold bind. specialize (Hm w).
  destruct (m w) as [[a | e |] w1]; simpl in *; auto.
  eapply R_trans; [exact Hm | apply Hf].
Qed.

Lemma sound_try_catch A (body : M A) handler :
  sound R body -> (forall e, sound R (handler e)) -> sound R (try_catch body handler).
Proof.
  intros Hb Hh w. unfold try_catch. specialize (Hb w).
  destruct (body w) as [[a | e |] w1]; simpl in *; auto.
  eapply R_trans; [exact Hb | apply Hh].
Qed.

Lemma sound_try_finally A (body : M A) final :
  sound R body -> sound R final -> sound R (try_finally body final).
Proof.
  intros Hb Hf w. unfold try_finally. specialize (Hb w).
  destruct (body w) as [[a | e |] w1]; simpl in *; auto;
    specialize (Hf w1); destruct (final w1) as [[u | e' |] w2]; simpl in *;
    eapply R_trans; eauto.
Qed.

Lemma sound_detached m : sound R m -> sound R (detached m).
Proof. intros H w. apply H. Qed.

Lemma sound_when b m : sound R m -> sound R (when b m).
Proof. intros H. destruct b; simpl; auto using sound_ret. Qed.

Lemma sound_if A (b : bool) (m1 m2 : M A) :
  sound R m1 -> sound R m2 -> sound R (if b then m1 else m2).
Proof. destruct b; auto. Qed.

Lemma sound_for_each A (l : list A) body :
  (forall x, sound R (body x)) -> sound R (for_each l body).
Proof.
  intros H. induction l; simpl; auto using sound_ret, sound_bind.
Qed.

Lemma sound_map_M A B (f : A -> M B) l :
  (forall x, sound R (f x)) -> sound R (map_M f l).
Proof.
  intros H. induction l; simpl; auto 6 using sound_ret, sound_bind.
Qed.

End Frame.

Lemma quiet_ret A (a : A) : quiet (ret a).
Proof. intros w e. discriminate. Qed.

Lemma quiet_get A (f : Processor -> A) : quiet (get f).
Proof. intros w e. discriminate. Qed.

Lemma quiet_update f : quiet (update f).
Proof. intros w e. discriminate. Qed.

Lemma quiet_announce ev : quiet (announce ev).
Proof. intros w e. discriminate. Qed.

(** [emit] throws nothing but an ['error']. *)
Lemma quiet_emit ev : (forall x, ev <> error x) -> quiet (emit ev).
Proof.
  intros N w e. unfold emit.
  destruct ev; try (cbn; discriminate). exfalso. eapply N. reflexivity.
Qed.

Lemma quiet_Date_now : quiet Date_now.
Proof. intros w e. discriminate. Qed.

Lemma quiet_uuidv4 : quiet uuidv4.
Proof. intros w e. discriminate. Qed.

Lemma quiet_await A t : quiet (@await A t).
Proof. intros w e. discriminate. Qed.

Lemma quiet_detached m : quiet (detached m).
Proof. intros w e. discriminate. Qed.

Lemma quiet_bind A B (m : M A) (f : A -> M B) :
  quiet m -> (forall a, quiet (f a)) -> quiet (bind m f).
Proof.
  intros Hm Hf w e. unfold bind. specialize (Hm w).
  destruct (m w) as [[a | e' |] w1]; simpl in *.
  - apply Hf.
  - exfalso. apply (Hm e'). reflexivity.
  - discriminate.
Qed.

(** A [try] whose body never throws never runs its handler. *)
Lemma try_catch_quiet A (body : M A) handler w :
  quiet body -> try_catch body handler w = body w.
Proof.
  intros Hb. unfold try_catch. specialize (Hb w).
  destruct (body w) as [[a | e |] w1]; simpl in *; auto.
  exfalso. apply (Hb e). reflexivity.
Qed.

Lemma quiet_try_catch A (body : M A) handler :
  quiet body -> quiet (try_catch body handler).
Proof. intros Hb w e. rewrite try_catch_quiet by exact Hb. apply Hb. Qed.

Lemma quiet_try_finally A (body : M A) final :
  quiet body -> quiet final -> quiet (try_finally body final).
Proof.
  intros Hb Hf w e. unfold try_finally. specialize (Hb w).
  destruct (body w) as [[a | e' |] w1]; simpl in *; try discriminate.
  - specialize (Hf w1). destruct (final w1) as [[u | e'' |] w2]; simpl in *;
      try discriminate. exfalso. apply (Hf e''). reflexivity.
  - exfalso. apply (Hb e'). reflexivity.
Qed.

Lemma quiet_when b m : quiet m -> quiet (when b m).
Proof. destruct b; simpl; auto using quiet_ret. Qed.

Lemma quiet_for_each A (l : list A) body :
  (forall x, quiet (body x)) -> quiet (for_each l body).
Proof. intros H. induction l; simpl; auto using quiet_ret, quiet_bind. Qed.

Lemma quiet_map_M A B (f : A -> M B) l :
  (forall x, quiet (f x)) -> quiet (map_M f l).
Proof. intros H. induction l; simpl; auto 6 using quiet_ret, quiet_bind. Qed.

Create HintDb quiet.
#[export] Hint Resolve quiet_ret quiet_get quiet_update quiet_announce quiet_Date_now
  quiet_uuidv4 quiet_await quiet_detached : quiet.
#[export] Hint Extern 1 (quiet (emit _)) =>
  apply quiet_emit; discriminate : quiet.

Ltac quiet_step :=
  first
    [ solve [auto with quiet]
    | apply quiet_when
    | apply quiet_for_each; intro
    | apply quiet_map_M; intro
    | apply quiet_try_catch
    | apply quiet_try_finally
    | apply quiet_bind; [| intro]
    | match goal with
      | |- quiet (if ?b then _ else _) => destruct b
      | |- quiet (match ?x with _ => _ end) => destruct x
      end ].

Ltac quiet_tac := cbv zeta; repeat quiet_step.

Lemma quiet_update_state f : quiet (update_state f).
Proof. apply quiet_update. Qed.

Lemma quiet_emit_state_changed : quiet emit_state_changed.
Proof. unfold emit_state_changed. quiet_tac. Qed.

#[export] Hint Resolve quiet_update_state quiet_emit_state_changed : quiet.

Section Quiet.
Context {locale : Locale} {detector : QuestionDetector}.

Lemma quiet_calculateDuration n : quiet (calculateDuration n).
Proof. unfold calculateDuration. quiet_tac. Qed.

Lemma quiet_startListening : quiet startListening.
Proof. unfold startListening. quiet_tac. Qed.

Lemma quiet_stopListening : quiet stopListening.
Proof. unfold stopListening. quiet_tac. Qed.

Lemma quiet_hasRecentQuestionActivity : quiet hasRecentQuestionActivity.
Proof. unfold hasRecentQuestionActivity. quiet_tac. Qed.
#[local] Hint Resolve quiet_hasRecentQuestionActivity quiet_calculateDuration : quiet.

Lemma quiet_shouldCreateChunk : quiet shouldCreateChunk.
Proof. unfold shouldCreateChunk. quiet_tac. Qed.
#[local] Hint Resolve quiet_shouldCreateChunk : quiet.

Lemma quiet_transcribeChunk_try body :
  quiet body -> quiet (transcribeChunk_try body).
Proof. intro H. unfold transcribeChunk_try. quiet_tac. Qed.

Lemma quiet_transcribeChunk caller chunk : quiet (transcribeChunk caller chunk).
Proof. unfold transcribeChunk, transcribeChunk_try. quiet_tac. Qed.
#[local] Hint Resolve quiet_transcribeChunk : quiet.

Lemma quiet_createAndProcessChunk caller : quiet (createAndProcessChunk caller).
Proof. unfold createAndProcessChunk. quiet_tac. Qed.
#[local] Hint Resolve quiet_createAndProcessChunk : quiet.

Lemma quiet_processAudioChunk audioData : quiet (processAudioChunk audioData).
Proof. unfold processAudioChunk. quiet_tac. Qed.

Lemma quiet_processAudioChunk_resume b : quiet (processAudioChunk_resume b).
Proof. unfold processAudioChunk_resume. quiet_tac. Qed.

Lemma quiet_updateRecentAudioBuffer text : quiet (updateRecentAudioBuffer text).
Proof. unfold updateRecentAudioBuffer. quiet_tac. Qed.

Lemma quiet_performStreamingQuestionDetection text :
  quiet (performStreamingQuestionDetection text).
Proof. unfold performStreamingQuestionDetection. quiet_tac. Qed.

Lemma quiet_questionPromise d tr part : quiet (questionPromise d tr part).
Proof. unfold questionPromise. quiet_tac. Qed.
#[local] Hint Resolve quiet_questionPromise : quiet.

Lemma quiet_detectAndRefineQuestions caller tr :
  quiet (detectAndRefineQuestions caller tr).
Proof. unfold detectAndRefineQuestions. quiet_tac. Qed.

Lemma quiet_detectAndRefineQuestions_resume qs :
  quiet (detectAndRefineQuestions_resume qs).
Proof. unfold detectAndRefineQuestions_resume. quiet_tac. Qed.

Lemma quiet_in_callers caller m : quiet m -> quiet (in_callers caller m).
Proof. intro H. unfold in_callers. destruct caller; quiet_tac. Qed.

Lemma quiet_clearQuestions : quiet clearQuestions.
Proof. unfold clearQuestions. quiet_tac. Qed.

Lemma quiet_run_call c : quiet (run_call c).
Proof.
  destruct c; simpl; auto using quiet_startListening, quiet_stopListening,
    quiet_processAudioChunk, quiet_clearQuestions; apply quiet_update.
Qed.
End Quiet.

#[export] Hint Resolve quiet_calculateDuration quiet_startListening quiet_stopListening quiet_hasRecentQuestionActivity quiet_shouldCreateChunk quiet_transcribeChunk quiet_createAndProcessChunk quiet_processAudioChunk quiet_processAudioChunk_resume quiet_updateRecentAudioBuffer quiet_performStreamingQuestionDetection quiet_questionPromise quiet_detectAndRefineQuestions quiet_detectAndRefineQuestions_resume quiet_clearQuestions quiet_run_call : quiet.

Open Scope Z_scope.

Lemma chunked_app a b : chunked (a ++ b) = chunked a + chunked b.
Proof.
  induction a as [| e a IH]; simpl; auto. destruct e; rewrite ?IH; lia.
Qed.

Lemma conserving_refl w : conserving w w.
Proof. split; auto. Qed.

Lemma conserving_trans a b c : conserving a b -> conserving b c -> conserving a c.
Proof. unfold conserving. intros [H1 H2] [H3 H4]. split; [congruence | auto]. Qed.

Lemma paced_refl w : paced w w.
Proof. unfold paced. auto. Qed.

Lemma paced_trans a b c : paced a b -> paced b c -> paced a c.
Proof.
  unfold paced. intros (H1 & H2 & B1) (H3 & H4 & B2).
  split; [congruence |]. split; [| auto].
  rewrite H1 in *. destruct H2 as [H2 | [H2 H2']], H4 as [H4 | [H4 H4']];
    rewrite ?H4, ?H2 in *; auto.
Qed.

Lemma sound_try_catch_quiet R A (body : M A) handler :
  sound R body -> quiet body -> sound R (try_catch body handler).
Proof. intros Hs Hq w. rewrite try_catch_quiet; auto. Qed.

Ltac sound_step R_refl R_trans prim :=
  match goal with
  | |- sound _ (ret _) => apply (sound_ret _ R_refl)
  | |- sound _ (throw _) => apply (sound_throw _ R_refl)
  | |- sound _ (get _) => apply (sound_get _ R_refl)
  | |- sound _ Date_now => apply (sound_Date_now _ R_refl)
  | |- sound _ (emit _) => apply (sound_emit _ R_refl)
  | |- sound _ (when _ _) => apply (sound_when _ R_refl)
  | |- sound _ (for_each _ _) => apply (sound_for_each _ R_refl R_trans); intro
  | |- sound _ (map_M _ _) => apply (sound_map_M _ R_refl R_trans); intro
  | |- sound _ (detached _) => apply sound_detached
  | |- sound _ (try_finally _ _) => apply (sound_try_finally _ R_trans)
  | |- sound _ (bind _ _) => apply (sound_bind _ R_trans); [| intro]
  | |- sound _ (try_catch _ _) =>
    first [ apply sound_try_catch_quiet; [| solve [quiet_tac]]
          | apply (sound_try_catch _ R_trans); [| intro] ]
  | |- sound _ (if ?b then _ else _) => destruct b
  | |- sound _ (match ?x with _ => _ end) => destruct x
  | |- sound _ _ => first [ solve [auto with sound] | solve [prim] ]
  end.

Ltac conserving_prim :=
  let w := fresh "w" in
  intro w; unfold conserving, settled, idle_is_empty, buffered;
  cbn; rewrite ?chunked_app; cbn; split; [lia | auto].

Ltac paced_prim :=
  let w := fresh "w" in
  intro w; unfold paced; cbn; repeat split; auto; intros; cbn; lia.

Create HintDb sound.

Ltac conserving_tac :=
  cbv zeta; unfold update_state, emit_state_changed;
  repeat sound_step conserving_refl conserving_trans ltac:(conserving_prim).

Ltac paced_tac :=
  cbv zeta; unfold update_state, emit_state_changed;
  repeat sound_step paced_refl paced_trans ltac:(paced_prim).

Lemma length_capped buffer : (length (capped buffer) <= 500)%nat.
Proof.
  unfold capped, slice_last.
  destruct (500 <? length buffer)%nat eqn:E.
  - apply Nat.ltb_lt in E. rewrite length_skipn. lia.
  - apply Nat.ltb_ge in E. exact E.
Qed.

Lemma capped_suffix buffer : exists dropped, buffer = dropped ++ capped buffer.
Proof.
  unfold capped, slice_last.
  destruct (500 <? length buffer)%nat.
  - exists (firstn (length buffer - 500) buffer). symmetry. apply firstn_skipn.
  - exists []. reflexivity.
Qed.

(** ** Who hears an error

    No method touches the listeners, and what a method throws is what
    [emit] threw for want of a listener: so a [catch] that starts by
    emitting the error it caught throws it on, and does nothing else. *)

Lemma same_listeners_refl w : same_listeners w w.
Proof. reflexivity. Qed.

Lemma same_listeners_trans a b c :
  same_listeners a b -> same_listeners b c -> same_listeners a c.
Proof. unfold same_listeners. congruence. Qed.

Ltac listeners_prim :=
  let w := fresh "w" in
  intro w; unfold same_listeners; cbn; reflexivity.

Ltac listeners_tac :=
  cbv zeta; unfold update_state, emit_state_changed;
  repeat sound_step same_listeners_refl same_listeners_trans
         ltac:(listeners_prim).

Lemma contained_quiet A (m : M A) : quiet m -> contained m.
Proof. intros Q w e H. destruct (Q w e H). Qed.

Lemma contained_emit ev : contained (emit ev).
Proof.
  intros w e. unfold emit, unheard. destruct ev; try discriminate.
  destruct (errorListeners (this w)); [reflexivity | discriminate].
Qed.

Lemma contained_bind A B (m : M A) (f : A -> M B) :
  sound same_listeners m -> contained m -> (forall a, contained (f a)) ->
  contained (bind m f).
Proof.
  intros S Cm Cf w e. unfold bind. specialize (S w). specialize (Cm w).
  destruct (m w) as [[a | e' |] w1]; cbn [fst snd] in *.
  - intro H. rewrite <- S. exact (Cf a w1 e H).
  - intros _. exact (Cm e' eq_refl).
  - discriminate.
Qed.

Lemma contained_try_catch A (body : M A) handler :
  sound same_listeners body -> (forall e, contained (handler e)) ->
  contained (try_catch body handler).
Proof.
  intros S Ch w e. unfold try_catch. specialize (S w).
  destruct (body w) as [[a | e' |] w1]; cbn [fst snd] in *; try discriminate.
  intro H. rewrite <- S. exact (Ch e' w1 e H).
Qed.

Lemma contained_try_finally A (body : M A) final :
  sound same_listeners body -> contained body -> contained final ->
  contained (try_finally body final).
Proof.
  intros S Cb Cf w e. unfold try_finally. specialize (S w). specialize (Cb w).
  destruct (body w) as [[a | e' |] w1]; cbn [fst snd] in *; try discriminate.
  - specialize (Cf w1). destruct (final w1) as [[u | e'' |] w2];
      cbn [fst snd] in *; try discriminate.
    intros _. rewrite <- S. exact (Cf e'' eq_refl).
  - intros _. exact (Cb e' eq_refl).
Qed.

(** What a [catch] that starts with [this.emit('error', error)] does
    when nobody listens. *)
Lemma catch_unheard e (rest : M unit) w :
  errorListeners (this w) = 0%nat ->
  (emit (error e) ;; rest) w = (Thrown e, w).
Proof. intro H. unfold bind, emit, unheard. rewrite H. reflexivity. Qed.

Section Listeners.
Context {locale : Locale} {detector : QuestionDetector}.

Lemma listeners_calculateDuration n : sound same_listeners (calculateDuration n).
Proof. unfold calculateDuration. listeners_tac. Qed.

Lemma listeners_startListening : sound same_listeners startListening.
Proof. unfold startListening. listeners_tac. Qed.

Lemma listeners_stopListening : sound same_listeners stopListening.
Proof. unfold stopListening. listeners_tac. Qed.

Lemma listeners_hasRecentQuestionActivity :
  sound same_listeners hasRecentQuestionActivity.
Proof. unfold hasRecentQuestionActivity. listeners_tac. Qed.
#[local] Hint Resolve listeners_calculateDuration
  listeners_hasRecentQuestionActivity : sound.

Lemma listeners_shouldCreateChunk : sound same_listeners shouldCreateChunk.
Proof. unfold shouldCreateChunk. listeners_tac. Qed.
#[local] Hint Resolve listeners_shouldCreateChunk : sound.

Lemma listeners_transcribeChunk_try body :
  sound same_listeners body -> sound same_listeners (transcribeChunk_try body).
Proof. intro H. unfold transcribeChunk_try. listeners_tac. Qed.

Lemma listeners_transcribeChunk caller chunk :
  sound same_listeners (transcribeChunk caller chunk).
Proof. unfold transcribeChunk, transcribeChunk_try. listeners_tac. Qed.
#[local] Hint Resolve listeners_transcribeChunk : sound.

Lemma listeners_createAndProcessChunk caller :
  sound same_listeners (createAndProcessChunk caller).
Proof. unfold createAndProcessChunk. listeners_tac. Qed.
#[local] Hint Resolve listeners_createAndProcessChunk : sound.

Lemma listeners_processAudioChunk audioData :
  sound same_listeners (processAudioChunk audioData).
Proof. unfold processAudioChunk. listeners_tac. Qed.

Lemma listeners_processAudioChunk_resume b :
  sound same_listeners (processAudioChunk_resume b).
Proof. unfold processAudioChunk_resume. listeners_tac. Qed.

Lemma listeners_updateRecentAudioBuffer text :
  sound same_listeners (updateRecentAudioBuffer text).
Proof. unfold updateRecentAudioBuffer. listeners_tac. Qed.

Lemma listeners_performStreamingQuestionDetection text :
  sound same_listeners (performStreamingQuestionDetection text).
Proof. unfold performStreamingQuestionDetection. listeners_tac. Qed.
#[local] Hint Resolve listeners_updateRecentAudioBuffer
  listeners_performStreamingQuestionDetection : sound.

Lemma listeners_questionPromise d tr part :
  sound same_listeners (questionPromise d tr part).
Proof. unfold questionPromise. listeners_tac. Qed.
#[local] Hint Resolve listeners_questionPromise : sound.

Lemma listeners_detectAndRefineQuestions caller tr :
  sound same_listeners (detectAndRefineQuestions caller tr).
Proof. unfold detectAndRefineQuestions. listeners_tac. Qed.

Lemma listeners_detectAndRefineQuestions_resume qs :
  sound same_listeners (detectAndRefineQuestions_resume qs).
Proof. unfold detectAndRefineQuestions_resume. listeners_tac. Qed.
#[local] Hint Resolve listeners_detectAndRefineQuestions
  listeners_detectAndRefineQuestions_resume : sound.

Lemma listeners_transcribeChunk_settled caller chunk answer :
  sound same_listeners (transcribeChunk_settled caller chunk answer).
Proof.
  unfold transcribeChunk_settled. apply listeners_transcribeChunk_try.
  listeners_tac.
Qed.

Lemma contained_transcribeChunk_try body :
  sound same_listeners body -> contained (transcribeChunk_try body).
Proof.
  intro S. unfold transcribeChunk_try. apply contained_try_finally.
  - listeners_tac.
  - apply contained_try_catch; [exact S | intro e; apply contained_emit].
  - apply contained_quiet. quiet_tac.
Qed.

Lemma contained_transcribeChunk_settled caller chunk answer :
  contained (transcribeChunk_settled caller chunk answer).
Proof.
  unfold transcribeChunk_settled. apply contained_transcribeChunk_try.
  listeners_tac.
Qed.

(** The [try] blocks of the callers around a resumed [transcribeChunk]:
    the world is the one it leaves, and what it throws reaches the
    caller of [processAudioChunk]. *)
Lemma in_callers_eq caller m w :
  sound same_listeners m -> contained m ->
  in_callers caller m w
  = (match caller with
     | by_processAudioChunk => fst (m w)
     | by_streaming_detection => Returned tt
     end, snd (m w)).
Proof.
  intros S C. specialize (S w). specialize (C w). unfold in_callers.
  destruct caller; unfold try_catch, detached;
    destruct (m w) as [[[] | e |] w1]; cbn [fst snd] in *; try reflexivity.
  - assert (Z : errorListeners (this w1) = 0%nat)
      by (rewrite S; exact (C e eq_refl)).
    unfold createAndProcessChunk_catch, processAudioChunk_catch.
    rewrite catch_unheard by exact Z. rewrite catch_unheard by exact Z.
    reflexivity.
  - assert (Z : errorListeners (this w1) = 0%nat)
      by (rewrite S; exact (C e eq_refl)).
    unfold createAndProcessChunk_catch.
    rewrite catch_unheard by exact Z. reflexivity.
Qed.

Lemma sound_in_callers R caller m :
  sound R m -> sound same_listeners m -> contained m ->
  sound R (in_callers caller m).
Proof. intros H S C w. rewrite in_callers_eq by assumption. apply H. Qed.

Lemma listeners_resume t answer : sound same_listeners (resume t answer).
Proof.
  destruct t; cbn [resume].
  - apply listeners_processAudioChunk_resume.
  - apply sound_in_callers;
      [apply listeners_transcribeChunk_settled
      | apply listeners_transcribeChunk_settled
      | apply contained_transcribeChunk_try]; listeners_tac.
  - apply sound_in_callers;
      [apply listeners_transcribeChunk_try
      | apply listeners_transcribeChunk_try
      | apply contained_transcribeChunk_try]; listeners_tac.
  - apply sound_in_callers;
      [apply listeners_transcribeChunk_try
      | apply listeners_transcribeChunk_try
      | apply contained_transcribeChunk_try]; listeners_tac.
Qed.

Lemma listeners_clearQuestions : sound same_listeners clearQuestions.
Proof. unfold clearQuestions. listeners_tac. Qed.

Lemma listeners_resumed t answer : sound same_listeners (resumed t answer).
Proof.
  destruct t; cbn [resumed].
  - apply listeners_processAudioChunk_resume.
  - apply listeners_transcribeChunk_settled.
  - apply listeners_transcribeChunk_try. listeners_tac.
  - apply listeners_transcribeChunk_try. listeners_tac.
Qed.

Lemma contained_resumed t answer : contained (resumed t answer).
Proof.
  destruct t; cbn [resumed].
  - apply contained_quiet, quiet_processAudioChunk_resume.
  - apply contained_transcribeChunk_try. listeners_tac.
  - apply contained_transcribeChunk_try. listeners_tac.
  - apply contained_transcribeChunk_try. listeners_tac.
Qed.

(** A step changes the world as the resumed body does. *)
Lemma resume_world t answer w :
  snd (resume t answer w) = snd (resumed t answer w).
Proof.
  destruct t as [b | caller chunk | caller questions | caller];
    cbn [resume resumed]; [reflexivity | | |];
    rewrite in_callers_eq; try reflexivity.
  - apply (listeners_resumed (await_transcription caller chunk)).
  - apply (contained_resumed (await_transcription caller chunk)).
  - apply (listeners_resumed (await_Promise_all caller questions) answer).
  - apply (contained_resumed (await_Promise_all caller questions) answer).
  - apply (listeners_resumed (await_detectAndRefineQuestions caller) answer).
  - apply (contained_resumed (await_detectAndRefineQuestions caller) answer).
Qed.

Lemma sound_resume R t answer :
  sound R (resumed t answer) -> sound R (resume t answer).
Proof. intros H w. rewrite resume_world. apply H. Qed.

End Listeners.

#[export] Hint Resolve listeners_calculateDuration listeners_startListening listeners_stopListening listeners_hasRecentQuestionActivity listeners_shouldCreateChunk listeners_transcribeChunk listeners_createAndProcessChunk listeners_processAudioChunk listeners_processAudioChunk_resume listeners_updateRecentAudioBuffer listeners_performStreamingQuestionDetection listeners_questionPromise listeners_detectAndRefineQuestions listeners_detectAndRefineQuestions_resume listeners_transcribeChunk_settled listeners_resume listeners_clearQuestions : sound.

Section Steady.
Context {locale : Locale} {detector : QuestionDetector}.

(** *** The pace of the streaming scan *)

Lemma paced_startListening : sound paced startListening.
Proof. unfold startListening. paced_tac. Qed.

Lemma paced_stopListening : sound paced stopListening.
Proof. unfold stopListening. paced_tac. Qed.

Lemma paced_hasRecentQuestionActivity : sound paced hasRecentQuestionActivity.
Proof. unfold hasRecentQuestionActivity. paced_tac. Qed.
#[local] Hint Resolve paced_hasRecentQuestionActivity : sound.

Lemma paced_shouldCreateChunk : sound paced shouldCreateChunk.
Proof. unfold shouldCreateChunk. paced_tac. Qed.
#[local] Hint Resolve paced_shouldCreateChunk : sound.

Lemma paced_transcribeChunk_try body :
  sound paced body -> sound paced (transcribeChunk_try body).
Proof. intro H. unfold transcribeChunk_try. paced_tac. Qed.

Lemma paced_transcribeChunk caller chunk : sound paced (transcribeChunk caller chunk).
Proof. unfold transcribeChunk. paced_tac. Qed.
#[local] Hint Resolve paced_transcribeChunk : sound.

Lemma paced_calculateDuration n : sound paced (calculateDuration n).
Proof. unfold calculateDuration. paced_tac. Qed.
#[local] Hint Resolve paced_calculateDuration : sound.

Lemma paced_createAndProcessChunk caller : sound paced (createAndProcessChunk caller).
Proof. unfold createAndProcessChunk, createAndProcessChunk_catch. paced_tac. Qed.
#[local] Hint Resolve paced_createAndProcessChunk : sound.

Lemma paced_processAudioChunk audioData : sound paced (processAudioChunk audioData).
Proof. unfold processAudioChunk, processAudioChunk_catch. paced_tac. Qed.

Lemma paced_processAudioChunk_resume b : sound paced (processAudioChunk_resume b).
Proof. unfold processAudioChunk_resume, processAudioChunk_catch. paced_tac. Qed.

Lemma paced_updateRecentAudioBuffer text : sound paced (updateRecentAudioBuffer text).
Proof. unfold updateRecentAudioBuffer. paced_tac. Qed.
#[local] Hint Resolve paced_updateRecentAudioBuffer : sound.


Lemma performStreamingQuestionDetection_eq newText w :
  performStreamingQuestionDetection newText w =
  if (clock w - lastStreamingCheck (this w) <? 500)%Z
  then (Returned tt, fed newText w)
  else scan (fed newText w).
Proof.
  unfold performStreamingQuestionDetection, fed, capped, scan, hasStreamingQuestion.
  unfold bind at 1. unfold Date_now at 1.
  unfold bind at 1. unfold update at 1.
  unfold bind at 1. unfold get at 1. cbn [this with_this streamingBuffer set_streamingBuffer].
  unfold bind at 1.
  destruct (500 <? length (streamingBuffer (this w) ++ utf16 " " ++ newText))%nat;
    cbn [when ret update with_this this streamingBuffer set_streamingBuffer];
    unfold bind at 1; unfold get at 1;
    cbn [this with_this lastStreamingCheck set_streamingBuffer set_lastStreamingCheck];
    destruct (clock w - lastStreamingCheck (this w) <? 500)%Z; try reflexivity.
Qed.

Lemma paced_scan w :
  (clock w - lastStreamingCheck (this w) <? 500)%Z = false ->
  paced w (snd (scan w)).
Proof.
  intro H. apply Z.ltb_ge in H. unfold scan.
  unfold bind at 1. unfold Date_now at 1.
  unfold bind at 1. unfold update at 1.
  eapply paced_trans.
  2:{ match goal with |- paced _ (snd (?m ?x)) => assert (S : sound paced m); [| apply S] end.
      paced_tac. }
  unfold paced. cbn. auto.
Qed.

Lemma paced_performStreamingQuestionDetection text :
  sound paced (performStreamingQuestionDetection text).
Proof.
  intro w. rewrite performStreamingQuestionDetection_eq.
  destruct (clock w - lastStreamingCheck (this w) <? 500)%Z eqn:E.
  - unfold paced, fed. cbn. repeat split; auto. intros _. apply length_capped.
  - eapply paced_trans; [| apply paced_scan; exact E].
    unfold paced, fed. cbn. repeat split; auto. intros _. apply length_capped.
Qed.
#[local] Hint Resolve paced_performStreamingQuestionDetection : sound.

Lemma paced_questionPromise d tr part : sound paced (questionPromise d tr part).
Proof. unfold questionPromise. paced_tac. Qed.
#[local] Hint Resolve paced_questionPromise : sound.

Lemma paced_detectAndRefineQuestions caller tr :
  sound paced (detectAndRefineQuestions caller tr).
Proof. unfold detectAndRefineQuestions, detectAndRefineQuestions_catch. paced_tac. Qed.
#[local] Hint Resolve paced_detectAndRefineQuestions : sound.

Lemma paced_detectAndRefineQuestions_resume qs :
  sound paced (detectAndRefineQuestions_resume qs).
Proof. unfold detectAndRefineQuestions_resume, detectAndRefineQuestions_catch. paced_tac. Qed.
#[local] Hint Resolve paced_detectAndRefineQuestions_resume : sound.

Lemma paced_transcribeChunk_settled caller chunk answer :
  sound paced (transcribeChunk_settled caller chunk answer).
Proof. unfold transcribeChunk_settled, transcribeChunk_try. paced_tac. Qed.

Lemma paced_in_callers caller m : sound paced m -> sound paced (in_callers caller m).
Proof.
  intro H. unfold in_callers, createAndProcessChunk_catch, processAudioChunk_catch.
  destruct caller; paced_tac.
Qed.

Lemma paced_resume t answer : sound paced (resume t answer).
Proof.
  destruct t; simpl.
  - apply paced_processAudioChunk_resume.
  - apply paced_in_callers, paced_transcribeChunk_settled.
  - apply paced_in_callers. unfold transcribeChunk_try. paced_tac.
  - apply paced_in_callers. unfold transcribeChunk_try. paced_tac.
Qed.

Lemma paced_clearQuestions : sound paced clearQuestions.
Proof. unfold clearQuestions. paced_tac. Qed.

Lemma paced_run_call c : sound paced (run_call c).
Proof.
  destruct c; simpl; auto using paced_startListening, paced_stopListening,
    paced_processAudioChunk, paced_clearQuestions.
Qed.

End Steady.

#[export] Hint Resolve paced_startListening paced_stopListening paced_hasRecentQuestionActivity paced_shouldCreateChunk paced_transcribeChunk paced_calculateDuration paced_createAndProcessChunk paced_processAudioChunk paced_processAudioChunk_resume paced_updateRecentAudioBuffer paced_performStreamingQuestionDetection paced_questionPromise paced_detectAndRefineQuestions paced_detectAndRefineQuestions_resume paced_transcribeChunk_settled paced_resume paced_clearQuestions paced_run_call : sound.

Section Conservation.
Context {locale : Locale} {detector : QuestionDetector}.

Lemma transcribeChunk_eq caller chunk w :
  transcribeChunk caller chunk w =
  if questionDetectionEnabled (config (this w))
  then (Suspended,
        {| this := set_state (set_isProcessing true (state (this w))) (this w);
           emitted := emitted w
                      ++ [state_changed (set_isProcessing true (state (this w)))];
           pending := pending w ++ [await_transcription caller chunk];
           clock := clock w;
           next_uuid := next_uuid w |})
  else (Returned tt, w).
Proof.
  unfold transcribeChunk. unfold bind at 1. unfold get at 1.
  destruct (questionDetectionEnabled (config (this w))); reflexivity.
Qed.

Lemma createAndProcessChunk_eq caller w :
  createAndProcessChunk caller w =
  if (length (currentAudioData (this w)) =? 0)%nat
  then (Returned tt, w)
  else transcribeChunk caller (next_chunk w) (drained w).
Proof.
  unfold createAndProcessChunk. unfold bind at 1. unfold get at 1.
  destruct (length (currentAudioData (this w)) =? 0)%nat; [reflexivity |].
  rewrite try_catch_quiet by quiet_tac.
  reflexivity.
Qed.

Lemma conserving_drained w : conserving w (drained w).
Proof.
  unfold conserving, settled, idle_is_empty, drained, buffered. cbn.
  rewrite chunked_app. cbn. split; [lia | auto].
Qed.

Lemma conserving_transcribeChunk caller chunk :
  sound conserving (transcribeChunk caller chunk).
Proof. unfold transcribeChunk, transcribeChunk_try. conserving_tac. Qed.
#[local] Hint Resolve conserving_transcribeChunk : sound.

Lemma conserving_createAndProcessChunk caller :
  sound conserving (createAndProcessChunk caller).
Proof.
  intro w. rewrite createAndProcessChunk_eq.
  destruct (length (currentAudioData (this w)) =? 0)%nat.
  - apply conserving_refl.
  - eapply conserving_trans; [apply conserving_drained |].
    apply conserving_transcribeChunk.
Qed.
#[local] Hint Resolve conserving_createAndProcessChunk : sound.

Lemma conserving_startListening : sound conserving startListening.
Proof.
  unfold startListening. conserving_tac.
  intro w. unfold conserving, settled, idle_is_empty, buffered. cbn.
  split; [lia | discriminate].
Qed.

Lemma conserving_hasRecentQuestionActivity :
  sound conserving hasRecentQuestionActivity.
Proof. unfold hasRecentQuestionActivity. conserving_tac. Qed.
#[local] Hint Resolve conserving_hasRecentQuestionActivity : sound.

Lemma conserving_shouldCreateChunk : sound conserving shouldCreateChunk.
Proof. unfold shouldCreateChunk. conserving_tac. Qed.
#[local] Hint Resolve conserving_shouldCreateChunk : sound.

Lemma conserving_processAudioChunk_resume b :
  sound conserving (processAudioChunk_resume b).
Proof. unfold processAudioChunk_resume. conserving_tac. Qed.

Lemma conserving_updateRecentAudioBuffer text :
  sound conserving (updateRecentAudioBuffer text).
Proof. unfold updateRecentAudioBuffer. conserving_tac. Qed.
#[local] Hint Resolve conserving_updateRecentAudioBuffer : sound.

Lemma conserving_performStreamingQuestionDetection text :
  sound conserving (performStreamingQuestionDetection text).
Proof. unfold performStreamingQuestionDetection. conserving_tac. Qed.
#[local] Hint Resolve conserving_performStreamingQuestionDetection : sound.

Lemma conserving_questionPromise d tr part :
  sound conserving (questionPromise d tr part).
Proof. unfold questionPromise. conserving_tac. Qed.
#[local] Hint Resolve conserving_questionPromise : sound.

Lemma conserving_detectAndRefineQuestions caller tr :
  sound conserving (detectAndRefineQuestions caller tr).
Proof. unfold detectAndRefineQuestions, detectAndRefineQuestions_catch. conserving_tac. Qed.
#[local] Hint Resolve conserving_detectAndRefineQuestions : sound.

Lemma conserving_detectAndRefineQuestions_resume qs :
  sound conserving (detectAndRefineQuestions_resume qs).
Proof.
  unfold detectAndRefineQuestions_resume, detectAndRefineQuestions_catch.
  conserving_tac.
Qed.
#[local] Hint Resolve conserving_detectAndRefineQuestions_resume : sound.

Lemma conserving_transcribeChunk_try body :
  sound conserving body -> sound conserving (transcribeChunk_try body).
Proof. intro H. unfold transcribeChunk_try. conserving_tac. Qed.

Lemma conserving_transcribeChunk_settled caller chunk answer :
  sound conserving (transcribeChunk_settled caller chunk answer).
Proof.
  unfold transcribeChunk_settled. apply conserving_transcribeChunk_try.
  conserving_tac.
Qed.

Lemma conserving_resume t answer : sound conserving (resume t answer).
Proof.
  apply sound_resume. destruct t; cbn [resumed].
  - apply conserving_processAudioChunk_resume.
  - apply conserving_transcribeChunk_settled.
  - apply conserving_transcribeChunk_try. conserving_tac.
  - apply conserving_transcribeChunk_try. conserving_tac.
Qed.

Lemma conserving_clearQuestions : sound conserving clearQuestions.
Proof. unfold clearQuestions. conserving_tac. Qed.

End Conservation.

#[export] Hint Resolve conserving_transcribeChunk conserving_createAndProcessChunk conserving_startListening conserving_hasRecentQuestionActivity conserving_shouldCreateChunk conserving_processAudioChunk_resume conserving_updateRecentAudioBuffer conserving_performStreamingQuestionDetection conserving_questionPromise conserving_detectAndRefineQuestions conserving_detectAndRefineQuestions_resume conserving_transcribeChunk_settled conserving_resume conserving_clearQuestions : sound.

Section Steps.
Context {locale : Locale} {detector : QuestionDetector}.

Lemma processAudioChunk_eq audioData w :
  isListening (state (this w)) = true ->
  processAudioChunk audioData w =
  (shouldCreate <- shouldCreateChunk ;;
   await (await_shouldCreateChunk shouldCreate)) (accumulated audioData w).
Proof.
  intro L. unfold processAudioChunk. unfold bind at 1. unfold get at 1.
  rewrite L. cbn [negb]. rewrite try_catch_quiet by quiet_tac.
  unfold accumulated.
  unfold bind at 1. unfold update at 1.
  unfold bind at 1. unfold update at 1.
  unfold bind at 1. unfold Date_now at 1.
  unfold bind at 1. unfold update_state at 1. unfold update at 1.
  unfold bind at 1. unfold get at 1.
  cbn [this with_this clock lastChunkTime set_state set_accumulatedSamples
       set_currentAudioData].
  unfold bind at 1.
  destruct (lastChunkTime (this w) =? 0); reflexivity.
Qed.

Lemma stopListening_eq w :
  stopListening w =
  if isListening (state (this w)) then (Returned tt, stopped w)
  else (Returned tt, w).
Proof.
  unfold stopListening. unfold bind at 1. unfold get at 1.
  destruct (isListening (state (this w))); reflexivity.
Qed.

Lemma settled_accumulated audioData w :
  settled (accumulated audioData w)
  = settled w + Z.of_nat (length (to_Float32Array audioData)).
Proof.
  unfold settled, accumulated, buffered.
  cbv [with_this this emitted set_lastChunkTime set_state
       set_accumulatedSamples set_currentAudioData currentAudioData].
  rewrite concat_app, length_app. cbn [concat]. rewrite app_nil_r. lia.
Qed.

Lemma step_conserves w s :
  settled (step w s) = settled w + ingested_by w s - discarded_by w s
  /\ (idle_is_empty w -> idle_is_empty (step w s)).
Proof.
  unfold step. destruct s as [now c | now i answer]; cbn [run_stimulus].
  - destruct c; cbn [run_call ingested_by discarded_by].
    + destruct (conserving_startListening (with_clock now w)) as [H1 H2].
      split; [rewrite H1; unfold settled; cbn; lia | exact H2].
    + rewrite stopListening_eq. cbn [this with_clock].
      destruct (isListening (state (this w))) eqn:L; cbn [snd].
      * unfold settled, idle_is_empty, stopped, buffered. cbn.
        rewrite chunked_app. cbn. split; [lia | auto].
      * unfold settled. cbn. split; [lia | auto].
    + cbn [this with_clock].
      destruct (isListening (state (this w))) eqn:L.
      * rewrite processAudioChunk_eq by exact L.
        match goal with
        | |- context [snd (?m ?x)] =>
          assert (S : sound conserving m) by conserving_tac;
          destruct (S x) as [H1 H2]
        end.
        split.
        -- rewrite H1, settled_accumulated. unfold settled. cbn. lia.
        -- intros _. apply H2. unfold idle_is_empty, accumulated. simpl.
           rewrite L. discriminate.
      * unfold processAudioChunk, bind, get. cbn. rewrite L. cbn.
        unfold settled. cbn. split; [lia | auto].
    + destruct (conserving_clearQuestions (with_clock now w)) as [H1 H2].
      split; [rewrite H1; unfold settled; cbn; lia | exact H2].
    + unfold settled, idle_is_empty, buffered. cbn. split; [lia | auto].
    + unfold settled, idle_is_empty, buffered. cbn. split; [lia | auto].
  - cbn [ingested_by discarded_by].
    destruct (nth_error (pending w) i) as [t |]; cbn [snd].
    + destruct (conserving_resume t answer
                  (with_clock now (with_pending (remove_nth i (pending w)) w)))
        as [H1 H2].
      split; [rewrite H1; unfold settled; cbn; lia | exact H2].
    + split; [lia | auto].
Qed.

Lemma run_conserves trace : forall w,
  settled (run w trace) + discarded w trace = settled w + ingested w trace
  /\ (idle_is_empty w -> idle_is_empty (run w trace)).
Proof.
  induction trace as [| s trace IH]; intro w; cbn [run fold_left ingested discarded].
  - split; [lia | auto].
  - destruct (step_conserves w s) as [H1 H2].
    destruct (IH (step w s)) as [H3 H4]. unfold run in *.
    split; [lia | auto].
Qed.

(** C1. Along every run of the event loop from the processor the
    constructor builds (calls and resumptions in any order, any answers of
    the transcription service, so also a boundary cut and a streaming cut
    that meet), the samples handed to a listening processor are the
    samples of the chunks announced, plus the samples thrown away by
    [stopListening], plus the samples still in the accumulator; and once
    the processor is idle the accumulator is empty, so the first two
    account for all of them. *)
Theorem no_sample_lost_or_duplicated :
  forall (cfg : AudioStreamConfig) (trace : list Stimulus),
    let w0 := new_World cfg in
    let w := run w0 trace in
    ingested w0 trace
    = chunked (emitted w) + discarded w0 trace + buffered (this w)
    /\ (isListening (state (this w)) = false ->
        ingested w0 trace = chunked (emitted w) + discarded w0 trace).
Proof.
  intros cfg trace w0 w.
  destruct (run_conserves trace w0) as [H1 H2]. fold w in H1, H2.
  assert (E : settled w0 = 0) by reflexivity.
  unfold settled in H1 at 1. split; [lia |].
  intro L. assert (I : idle_is_empty w) by (apply H2; intro; reflexivity).
  specialize (I L). unfold buffered in H1. rewrite I in H1. cbn in H1. lia.
Qed.
End Steps.

Section Boundary.
Context {locale : Locale} {detector : QuestionDetector}.

Lemma hasRecentQuestionActivity_eq w :
  hasRecentQuestionActivity w =
  (Returned ((clock w - lastQuestionHintTime (this w) <? 3000)
             || recent_hint (this w)),
   hinted w).
Proof.
  unfold hasRecentQuestionActivity, hinted, recent_hint.
  unfold bind at 1. unfold Date_now at 1.
  unfold bind at 1. unfold get at 1.
  destruct (clock w - lastQuestionHintTime (this w) <? 3000); [reflexivity |].
  unfold bind at 1. unfold get at 1. cbn [orb].
  destruct (existsb _ _); reflexivity.
Qed.

Lemma shouldCreateChunk_eq w :
  shouldCreateChunk w = (Returned (decision w), hinted w).
Proof.
  unfold shouldCreateChunk, decision.
  unfold bind at 1. unfold Date_now at 1.
  unfold bind at 1. unfold get at 1.
  unfold bind at 1. unfold get at 1.
  unfold bind at 1. unfold get at 1.
  unfold bind at 1. unfold get at 1.
  unfold bind at 1. unfold get at 1.
  unfold bind. rewrite hasRecentQuestionActivity_eq. reflexivity.
Qed.

Lemma hinted_frame w :
  set_lastQuestionHintTime (lastQuestionHintTime (this w)) (this (hinted w))
  = set_lastQuestionHintTime (lastQuestionHintTime (this w)) (this w)
  /\ emitted (hinted w) = emitted w /\ pending (hinted w) = pending w
  /\ clock (hinted w) = clock w /\ next_uuid (hinted w) = next_uuid w.
Proof.
  unfold hinted.
  destruct (clock w - lastQuestionHintTime (this w) <? 3000); auto.
  destruct (recent_hint (this w)); auto.
Qed.

End Boundary.

Section Cut.
Context {locale : Locale} {detector : QuestionDetector}.

Lemma chunks_of_app a b : chunks_of (a ++ b) = chunks_of a ++ chunks_of b.
Proof. apply flat_map_app. Qed.

Lemma hinted_this_fields w :
  currentAudioData (this (hinted w)) = currentAudioData (this w)
  /\ config (this (hinted w)) = config (this w)
  /\ state (this (hinted w)) = state (this w).
Proof.
  unfold hinted.
  destruct (clock w - lastQuestionHintTime (this w) <? 3000); auto.
  destruct (recent_hint (this w)); auto.
Qed.

Lemma cut_emits caller w :
  currentAudioData (this w) <> [] ->
  chunks_of (emitted (snd (createAndProcessChunk caller w)))
  = chunks_of (emitted w) ++ [next_chunk w].
Proof.
  intro N. rewrite createAndProcessChunk_eq.
  destruct (currentAudioData (this w)) as [| b l] eqn:E; [congruence |].
  cbn [length Nat.eqb]. rewrite transcribeChunk_eq.
  destruct (questionDetectionEnabled (config (this (drained w))));
    cbn [snd emitted drained]; rewrite ?chunks_of_app; cbn;
    rewrite ?app_nil_r; reflexivity.
Qed.

Lemma resume_shouldCreateChunk_eq b answer w :
  resume (await_shouldCreateChunk b) answer w
  = if b then createAndProcessChunk by_processAudioChunk w
    else (Returned tt, w).
Proof.
  cbn [resume]. unfold processAudioChunk_resume.
  rewrite try_catch_quiet by quiet_tac. destruct b; reflexivity.
Qed.

End Cut.



Section Streaming.
Context {locale : Locale} {detector : QuestionDetector}.

Lemma scan_eq w :
  scan w =
  let w2 := with_this (set_lastStreamingCheck (clock w) (this w)) w in
  if hasStreamingQuestion (streamingBuffer (this w))
  then
    let w3 := if (0 <? length (currentAudioData (this w)))%nat
              then snd (createAndProcessChunk by_streaming_detection w2)
              else w2 in
    (Returned tt, with_this (set_streamingBuffer [] (this w3)) w3)
  else (Returned tt, w2).
Proof.
  unfold scan.
  unfold bind at 1. unfold Date_now at 1.
  unfold bind at 1. unfold update at 1.
  unfold bind at 1. unfold get at 1.
  cbn [this with_this streamingBuffer set_lastStreamingCheck].
  destruct (hasStreamingQuestion (streamingBuffer (this w))); [| reflexivity].
  cbn [when]. unfold bind at 1. unfold get at 1.
  cbn [this with_this currentAudioData set_lastStreamingCheck].
  destruct (0 <? length (currentAudioData (this w)))%nat; reflexivity.
Qed.

Lemma step_paced w s :
  lastStreamingCheck (this (step w s)) = lastStreamingCheck (this w)
  \/ (lastStreamingCheck (this (step w s)) = time_of s
      /\ 500 <= time_of s - lastStreamingCheck (this w)).
Proof.
  unfold step. destruct s as [now c | now i answer]; cbn [run_stimulus time_of].
  - destruct (paced_run_call c (with_clock now w)) as (_ & H & _). exact H.
  - destruct (nth_error (pending w) i) as [t |]; [| auto].
    destruct (paced_resume t answer
                (with_clock now (with_pending (remove_nth i (pending w)) w)))
      as (_ & H & _).
    exact H.
Qed.

Lemma run_capped trace : forall w,
  (length (streamingBuffer (this w)) <= 500)%nat ->
  (length (streamingBuffer (this (run w trace))) <= 500)%nat.
Proof.
  induction trace as [| s trace IH]; intros w H; [exact H |].
  cbn [run fold_left]. apply IH. unfold step.
  destruct s as [now c | now i answer]; cbn [run_stimulus].
  - destruct (paced_run_call c (with_clock now w)) as (_ & _ & B). apply B, H.
  - destruct (nth_error (pending w) i) as [t |]; [| exact H].
    destruct (paced_resume t answer
                (with_clock now (with_pending (remove_nth i (pending w)) w)))
      as (_ & _ & B).
    apply B, H.
Qed.

End Streaming.

Close Scope Z_scope.

Lemma in_order_left ps s a : in_order ps s -> in_order ps (a ++ s).
Proof.
  intro H. destruct H as [s | a' p b ps H].
  - constructor.
  - rewrite app_assoc. constructor. exact H.
Qed.

Lemma in_order_right ps s c : in_order ps s -> in_order ps (s ++ c).
Proof.
  intro H. induction H as [s | a p b ps H IH].
  - constructor.
  - rewrite <- !app_assoc. constructor. exact IH.
Qed.

Lemma in_order_app ps qs s1 s2 :
  in_order ps s1 -> in_order qs s2 -> in_order (ps ++ qs) (s1 ++ s2).
Proof.
  intros H1 H2. induction H1 as [s | a p b ps H IH].
  - apply in_order_left. exact H2.
  - rewrite <- !app_assoc. simpl. constructor. exact IH.
Qed.

Lemma in_order_flat_map (f : jsstring -> list jsstring) ps s :
  (forall p, in_order (f p) p) -> in_order ps s -> in_order (flat_map f ps) s.
Proof.
  intros Hf H. induction H as [s | a p b ps H IH]; simpl.
  - constructor.
  - apply in_order_left. apply in_order_app; auto.
Qed.

Lemma in_order_filter (f : jsstring -> bool) ps s :
  in_order ps s -> in_order (filter f ps) s.
Proof.
  intro H. induction H as [s | a p b ps H IH]; simpl.
  - constructor.
  - destruct (f p).
    + constructor. exact IH.
    + apply in_order_left, in_order_left. exact IH.
Qed.

Lemma in_order_map (g : jsstring -> jsstring) ps s :
  (forall p, in_order [g p] p) -> in_order ps s -> in_order (map g ps) s.
Proof.
  intros Hg H.
  replace (map g ps) with (flat_map (fun p => [g p]) ps)
    by (clear H; induction ps as [| x l IH]; simpl; [| rewrite IH]; reflexivity).
  apply in_order_flat_map; auto.
Qed.

Lemma in_order_one_refl p : in_order [p] p.
Proof.
  rewrite <- (app_nil_r p) at 2. change (in_order [p] ([] ++ p ++ [])).
  constructor. constructor.
Qed.

Lemma in_order_inside p q rs :
  in_order [q] p -> in_order rs q -> in_order rs p.
Proof.
  intros H1 H2. inversion H1 as [| a q' b ps Hb]; subst.
  apply in_order_left, in_order_right. exact H2.
Qed.

Lemma in_order_suffix a s : in_order [s] (a ++ s).
Proof. apply in_order_left, in_order_one_refl. Qed.

Lemma in_order_prefix s c : in_order [s] (s ++ c).
Proof. apply in_order_right, in_order_one_refl. Qed.

Lemma in_order_prefix_eq s p c : s = p ++ c -> in_order [p] s.
Proof. intros ->. apply in_order_prefix. Qed.

(** ** [trim] *)

Lemma trimStart_suffix s : exists a, s = a ++ trimStart s.
Proof.
  induction s as [| c s [a IH]]; simpl.
  - exists []. reflexivity.
  - destruct (is_space c).
    + exists (c :: a). simpl. congruence.
    + exists []. reflexivity.
Qed.

Lemma trimEnd_prefix s : exists c, s = trimEnd s ++ c.
Proof.
  unfold trimEnd. destruct (trimStart_suffix (rev s)) as [a H].
  exists (rev a). rewrite <- rev_app_distr, <- H, rev_involutive. reflexivity.
Qed.

Lemma in_order_trim s : in_order [trim s] s.
Proof.
  unfold trim. destruct (trimStart_suffix s) as [a Ha].
  destruct (trimEnd_prefix (trimStart s)) as [c Hc].
  rewrite Ha at 2. rewrite Hc at 2. constructor. constructor.
Qed.

(** ** The matcher consumes a prefix *)

Lemma run_re_inv total r : forall s k e,
  run_re total r s k = Some e ->
  exists pre s', s = pre ++ s' /\ k s' = Some e.
Proof.
  induction r as [| c | p | | r1 IH1 r2 IH2 | r1 IH1 r2 IH2 | r0 IH | |];
    intros s k e H; simpl in H.
  - exists [], s. auto.
  - destruct s as [| x s0]; [discriminate |].
    destruct (char_eqb x c); [| discriminate]. exists [x], s0. auto.
  - destruct s as [| x s0]; [discriminate |].
    destruct (p x); [| discriminate]. exists [x], s0. auto.
  - destruct s as [| x s0]; [discriminate |].
    destruct (is_line_terminator x); [discriminate |]. exists [x], s0. auto.
  - apply IH1 in H. destruct H as (pre1 & s1 & -> & H).
    apply IH2 in H. destruct H as (pre2 & s2 & -> & H).
    exists (pre1 ++ pre2), s2. rewrite app_assoc. auto.
  - destruct (run_re total r1 s k) eqn:E.
    + injection H as ->. apply IH1 in E. exact E.
    + apply IH2 in H. exact H.
  - revert H. generalize (length s) at 1. intro n. revert s.
    induction n as [| n IHn]; intros s H.
    + exists [], s. auto.
    + match type of H with
      | match ?m with _ => _ end = _ => destruct m eqn:E
      end.
      * injection H as ->. apply IH in E.
        destruct E as (pre1 & s1 & -> & E).
        match type of E with
        | (if ?c then _ else _) = _ => destruct c; [| discriminate]
        end.
        apply IHn in E. destruct E as (pre2 & s2 & -> & E).
        exists (pre1 ++ pre2), s2. rewrite app_assoc. auto.
      * exists [], s. auto.
  - match type of H with
    | (if ?c then _ else _) = _ => destruct c; [| discriminate]
    end.
    exists [], s. auto.
  - destruct s; [| discriminate]. exists [], []. auto.
Qed.

Lemma match_here_suffix total r s rest :
  match_here total r s = Some rest -> exists pre, s = pre ++ rest.
Proof.
  intro H. apply run_re_inv in H. destruct H as (pre & s' & -> & H).
  injection H as ->. exists pre. reflexivity.
Qed.

Lemma match_here_Eol total r s rest :
  match_here total (Seq r Eol) s = Some rest -> rest = [].
Proof.
  unfold match_here. simpl. intro H. apply run_re_inv in H.
  destruct H as (pre & s' & _ & H). destruct s'; [| discriminate].
  injection H as <-. reflexivity.
Qed.

Lemma match_here_Bol total r s rest :
  match_here total (Seq Bol r) s = Some rest -> length s = total.
Proof.
  unfold match_here. simpl. intro H.
  match type of H with
  | (if ?c then _ else _) = _ => destruct c eqn:E; [| discriminate]
  end.
  apply Nat.eqb_eq. exact E.
Qed.

Lemma search_inv total r : forall s acc before rest,
  search total r acc s = Some (before, rest) ->
  exists skipped s2,
    s = skipped ++ s2 /\ before = rev acc ++ skipped
    /\ match_here total r s2 = Some rest.
Proof.
  induction s as [| c s IH]; intros acc before rest H; simpl in H.
  - destruct (match_here total r []) eqn:E; [| discriminate].
    injection H as <- <-. exists [], []. repeat split; rewrite ?app_nil_r; auto.
  - destruct (match_here total r (c :: s)) eqn:E.
    + injection H as <- <-. exists [], (c :: s). repeat split; rewrite ?app_nil_r; auto.
    + apply IH in H. destruct H as (skipped & s2 & -> & -> & H).
      exists (c :: skipped), s2. simpl. rewrite <- app_assoc. auto.
Qed.

(** ** [split] keeps the order *)

Lemma split_loop_cons total r skip cur_rev c s :
  split_loop total r skip cur_rev (c :: s) =
  match skip with
  | S k => split_loop total r k [] s
  | O =>
    match match_here total r (c :: s) with
    | None => split_loop total r 0 (c :: cur_rev) s
    | Some rest =>
      match (length (c :: s) - length rest)%nat with
      | O =>
        match cur_rev with
        | [] => split_loop total r 0 [c] s
        | _ => rev cur_rev :: split_loop total r 0 [c] s
        end
      | S k => rev cur_rev :: split_loop total r k [] s
      end
    end
  end.
Proof. reflexivity. Qed.

Lemma in_order_split_loop total r : forall s skip cur_rev,
  in_order (split_loop total r skip cur_rev s) (rev cur_rev ++ s).
Proof.
  induction s as [| c s IH]; intros skip cur_rev.
  - simpl. apply in_order_prefix.
  - rewrite split_loop_cons. destruct skip as [| k].
    + destruct (match_here total r (c :: s)) as [rest |].
      * generalize (length (c :: s) - length rest)%nat. intros [| k].
        -- destruct cur_rev as [| x l].
           ++ apply (IH 0%nat [c]).
           ++ apply (in_order_cons []). apply (IH 0%nat [c]).
        -- apply (in_order_cons []). apply (in_order_left _ _ [c]).
           apply (IH k []).
      * specialize (IH 0%nat (c :: cur_rev)). simpl in IH.
        rewrite <- app_assoc in IH. exact IH.
    + apply in_order_left. apply (in_order_left _ _ [c]). apply (IH k []).
Qed.

Lemma in_order_split r s : in_order (split r s) s.
Proof.
  unfold split. destruct s as [| c s].
  - destruct (match_here 0 r []).
    + constructor.
    + apply in_order_one_refl.
  - apply (in_order_split_loop (length (c :: s)) r (c :: s) 0 []).
Qed.

(** ** Replacements that cut at one end *)

Lemma replace_loop_Eol total r : forall s,
  (forall k, (length s <= k)%nat ->
             replace_loop total (Seq r Eol) [] k s = [])
  /\ exists c, s = replace_loop total (Seq r Eol) [] 0 s ++ c.
Proof.
  induction s as [| x s [IH1 IH2]].
  - split.
    + intros k _. destruct k; simpl; [| reflexivity].
      destruct (match_here total (Seq r Eol) []) as [rest |] eqn:E; [| reflexivity].
      apply match_here_Eol in E. subst rest. reflexivity.
    + exists []. simpl.
      destruct (match_here total (Seq r Eol) []) as [rest |] eqn:E; [| reflexivity].
      apply match_here_Eol in E. subst rest. reflexivity.
  - split.
    + intros k Hk. destruct k as [| k]; [simpl in Hk; lia |].
      simpl. apply IH1. simpl in Hk. lia.
    + cbn [replace_loop].
      destruct (match_here total (Seq r Eol) (x :: s)) as [rest |] eqn:E.
      * apply match_here_Eol in E. subst rest.
        cbn [length Nat.sub app]. rewrite IH1 by lia. exists (x :: s). reflexivity.
      * destruct IH2 as [c Hc]. exists c. simpl. congruence.
Qed.

Lemma in_order_replaceAll_Eol r s : in_order [replaceAll (Seq r Eol) [] s] s.
Proof.
  unfold replaceAll. destruct (replace_loop_Eol (length s) r s) as [_ [c Hc]].
  apply (in_order_prefix_eq _ _ _ Hc).
Qed.

Lemma in_order_replace_Bol r s : in_order [replace (Seq Bol r) [] s] s.
Proof.
  unfold replace. destruct (search (length s) (Seq Bol r) [] s) as [[before rest] |] eqn:E.
  - apply search_inv in E. destruct E as (skipped & s2 & -> & -> & E).
    pose proof (match_here_Bol _ _ _ _ E) as L.
    apply match_here_suffix in E. destruct E as [pre ->].
    rewrite !length_app in L. destruct skipped; [| simpl in L; lia].
    simpl. apply in_order_suffix.
  - apply in_order_one_refl.
Qed.

(** ** The stages of [splitIntoQuestions] and [trimPreface] *)

Lemma in_order_split_question_marks part :
  in_order (split_question_marks part) part.
Proof.
  unfold split_question_marks.
  destruct (1 <? length _)%nat.
  - apply in_order_filter, in_order_map; [apply in_order_trim | apply in_order_split].
  - apply in_order_one_refl.
Qed.

Lemma in_order_split_connector subParts c p :
  in_order subParts p -> in_order (split_connector subParts c) p.
Proof.
  intro H. unfold split_connector. apply in_order_flat_map; [| exact H].
  intro sp. apply in_order_filter, in_order_map;
    [apply in_order_trim | apply in_order_split].
Qed.

Lemma in_order_split_connectors p : in_order (split_connectors p) p.
Proof.
  unfold split_connectors.
  assert (G : forall cs subParts,
             in_order subParts p ->
             in_order (fold_left split_connector cs subParts) p).
  { induction cs as [| c cs IH]; intros subParts H; simpl; auto.
    apply IH, in_order_split_connector, H. }
  apply G, in_order_one_refl.
Qed.

Lemma in_order_strip_trailing_comma p : in_order [strip_trailing_comma p] p.
Proof.
  unfold strip_trailing_comma, re_trailing_comma.
  eapply in_order_inside; [apply in_order_replaceAll_Eol | apply in_order_trim].
Qed.

Lemma in_order_splitIntoQuestions text :
  in_order (splitIntoQuestions text) text.
Proof.
  unfold splitIntoQuestions. destruct (negb (nonempty text)); [constructor |].
  apply in_order_filter, in_order_map; [apply in_order_strip_trailing_comma |].
  apply in_order_flat_map; [apply in_order_split_connectors |].
  apply in_order_flat_map; [apply in_order_split_question_marks |].
  apply in_order_filter, in_order_map; [apply in_order_trim | apply in_order_split].
Qed.

Lemma in_order_strip_leading_preface i : forall result,
  in_order [strip_leading_preface i result] result.
Proof.
  induction i as [| i IH]; intro result; simpl.
  - apply in_order_one_refl.
  - destruct (test leadingPrefacePattern result); [| apply in_order_one_refl].
    eapply in_order_inside; [| apply IH].
    eapply in_order_inside; [| apply in_order_trim].
    apply in_order_replace_Bol.
Qed.

Lemma in_order_trimPreface text : in_order [trimPreface text] text.
Proof.
  unfold trimPreface.
  destruct (negb (nonempty (trim text))); [apply in_order_trim |].
  destruct (existsb _ keepTopicPatterns); [apply in_order_trim |].
  eapply in_order_inside; [apply in_order_trim | apply in_order_strip_leading_preface].
Qed.

Open Scope Z_scope.

Section Questions.
Context {locale : Locale} {detector : QuestionDetector}.

(** *** Refinement *)

Lemma too_aggressive_iff refined :
  too_aggressive refined = true
  <-> (length refined < 3)%nat
      \/ (length (trim (replaceAll re_qmark [] refined)) < 2)%nat.
Proof.
  unfold too_aggressive. rewrite orb_true_iff, !Nat.ltb_lt. reflexivity.
Qed.

Lemma refine_nonempty text :
  text <> [] -> refineQuestionAlgorithmically text <> [].
Proof.
  intro N. unfold refineQuestionAlgorithmically.
  destruct (too_aggressive (refine_steps text)) eqn:E; [exact N |].
  unfold too_aggressive in E. apply orb_false_iff in E. destruct E as [E _].
  apply Nat.ltb_ge in E. intro Z. rewrite Z in E. simpl in E. lia.
Qed.

(** What [questionPromise] settles to. *)
Lemma questionPromise_eq d tr part w :
  exists o,
    questionPromise d tr part w
    = (Returned o,
       match o with
       | Some _ => {| this := this w; emitted := emitted w;
                      pending := pending w; clock := clock w;
                      next_uuid := S (next_uuid w) |}
       | None =>
         if negb (nonempty (trimPreface part))
            || (length (trim (trimPreface part)) <? 2)%nat
         then w
         else {| this := this w; emitted := emitted w;
                 pending := pending w; clock := clock w;
                 next_uuid := S (next_uuid w) |}
       end)
    /\ match o with
       | Some q =>
         q_text q = trim (trimPreface part)
         /\ (2 <= length (q_text q))%nat
         /\ q_refinedText q
            = Some (refineQuestionAlgorithmically (trimPreface part))
         /\ trimPreface part <> []
       | None => True
       end.
Proof.
  unfold questionPromise. cbv zeta.
  destruct (negb (nonempty (trimPreface part))
            || (length (trim (trimPreface part)) <? 2)%nat) eqn:E.
  - exists None. auto.
  - apply orb_false_iff in E. destruct E as [E1 E2].
    unfold bind at 1. unfold uuidv4 at 1.
    match goal with
    | |- context [if ?c then _ else _] => destruct c
    end.
    + exists None. auto.
    + eexists (Some _). split; [reflexivity |]. cbn.
      apply Nat.ltb_ge in E2. repeat split; auto.
      intro Z. rewrite Z in E1. discriminate.
Qed.

Lemma map_M_questionPromise d tr : forall parts w,
  exists qs w',
    map_M (questionPromise d tr) parts w = (Returned qs, w')
    /\ this w' = this w /\ emitted w' = emitted w /\ pending w' = pending w
    /\ clock w' = clock w
    /\ Forall2 came_from qs parts.
Proof.
  induction parts as [| part parts IH]; intro w.
  - exists [], w. simpl. repeat split; auto.
  - destruct (questionPromise_eq d tr part w) as (o & E & P).
    cbn [map_M]. unfold bind at 1. rewrite E.
    match type of E with _ = (_, ?w1) => set (w1' := w1) in * end.
    destruct (IH w1') as (qs & w2 & E2 & T & Em & Pe & Cl & F).
    unfold bind at 1. rewrite E2. exists (o :: qs), w2.
    assert (W : this w1' = this w /\ emitted w1' = emitted w
                /\ pending w1' = pending w /\ clock w1' = clock w).
    { unfold w1'. destruct o; [auto |]. destruct (_ || _); auto. }
    destruct W as (W1 & W2 & W3 & W4).
    split; [reflexivity |].
    split; [congruence |]. split; [congruence |]. split; [congruence |].
    split; [congruence |].
    constructor; [| exact F].
    destruct o as [q |]; [| exact I]. destruct P as (P1 & _).
    unfold came_from. rewrite P1.
    eapply in_order_inside; [apply in_order_trimPreface | apply in_order_trim].
Qed.

Lemma in_order_came_from parts s :
  in_order parts s -> forall qs,
  Forall2 came_from qs parts -> in_order (map q_text (not_null qs)) s.
Proof.
  intro H. induction H as [s | a p b ps H IH]; intros qs F.
  - inversion F; subst. constructor.
  - inversion F as [| o part qs' parts' C F']; subst.
    unfold not_null. cbn [flat_map]. fold (not_null qs').
    destruct o as [q |]; cbn [app map].
    + cbn in C. inversion C as [| a' q' b' ps' Hb]; subst.
      rewrite <- !app_assoc. rewrite app_assoc.
      constructor. apply in_order_left. apply IH. exact F'.
    + apply in_order_left, in_order_left. apply IH. exact F'.
Qed.

Lemma questions_of_app a b :
  questions_of (a ++ b) = questions_of a ++ questions_of b.
Proof. apply flat_map_app. Qed.

Lemma for_each_emit_questions qs : forall w,
  for_each qs (fun question =>
    update_state (fun s =>
      set_questionBuffer (questionBuffer s ++ [question]) s) ;;
    emit (question_detected question)) w
  = (Returned tt,
     {| this := set_state
                  (set_questionBuffer
                     (questionBuffer (state (this w)) ++ qs) (state (this w)))
                  (this w);
        emitted := emitted w ++ map question_detected qs;
        pending := pending w; clock := clock w; next_uuid := next_uuid w |}).
Proof.
  induction qs as [| q qs IH]; intro w.
  - simpl. unfold ret. rewrite !app_nil_r. destruct w as [[n []]]; reflexivity.
  - cbn [for_each]. unfold bind at 1. unfold bind at 1.
    unfold update_state at 1. unfold update at 1.
    change (emit (question_detected q)) with (announce (question_detected q)).
    unfold announce at 1.
    rewrite IH. cbn. rewrite <- !app_assoc. reflexivity.
Qed.

Lemma detectAndRefineQuestions_resume_emits qs w :
  exists w',
    detectAndRefineQuestions_resume qs w = (Returned tt, w')
    /\ questions_of (emitted w') = questions_of (emitted w) ++ not_null qs
    /\ questionBuffer (state (this w'))
       = questionBuffer (state (this w)) ++ not_null qs
    /\ pending w' = pending w.
Proof.
  unfold detectAndRefineQuestions_resume. cbv zeta.
  rewrite try_catch_quiet by quiet_tac.
  unfold bind at 1. rewrite for_each_emit_questions.
  assert (Q : questions_of (map question_detected (not_null qs)) = not_null qs).
  { induction (not_null qs) as [| q l IH]; simpl; congruence. }
  destruct (0 <? length (not_null qs))%nat; cbn [when].
  - eexists. split; [reflexivity |]. cbn.
    rewrite !questions_of_app, Q. cbn. rewrite app_nil_r. auto.
  - eexists. split; [reflexivity |]. cbn.
    rewrite !questions_of_app, Q. auto.
Qed.

Lemma resume_Promise_all_emits caller qs answer w :
  questions_of (emitted (snd (resume (await_Promise_all caller qs) answer w)))
  = questions_of (emitted w) ++ not_null qs.
Proof.
  cbn [resume].
  destruct (detectAndRefineQuestions_resume_emits qs w) as (w' & E & Q & _).
  assert (T : transcribeChunk_try
                (detectAndRefineQuestions_resume qs ;;
                 await (await_detectAndRefineQuestions caller)) w
              = (Suspended,
                 with_pending
                   (pending w' ++ [await_detectAndRefineQuestions caller]) w')).
  { unfold transcribeChunk_try, try_finally, try_catch. unfold bind at 1.
    rewrite E. reflexivity. }
  unfold in_callers. destruct caller.
  - unfold try_catch. rewrite T. cbn. exact Q.
  - unfold detached, try_catch. rewrite T. cbn. exact Q.
Qed.
End Questions.

Section Extraction.

Context {locale : Locale} {detector : QuestionDetector}.

Lemma detectAndRefineQuestions_eq caller transcription w :
  detectAndRefineQuestions caller transcription w = (Returned tt, w)
  \/ exists (questions : list (option DetectedQuestion)) (w1 : World),
      detectAndRefineQuestions caller transcription w
      = (Suspended,
         with_pending (pending w ++ [await_Promise_all caller questions]) w1)
      /\ this w1 = this w /\ emitted w1 = emitted w /\ pending w1 = pending w
      /\ Forall2 came_from questions (splitIntoQuestions (baseText transcription)).
Proof.
  unfold detectAndRefineQuestions. rewrite try_catch_quiet by quiet_tac.
  destruct (negb (nonempty (tr_text transcription))
            || (length (trim (tr_text transcription)) <? 3)%nat);
    [left; reflexivity |].
  cbv zeta.
  destruct (length (splitIntoQuestions (baseText transcription)) =? 0)%nat;
    [left; reflexivity |].
  right.
  destruct (map_M_questionPromise (detectQuestion transcription) transcription
              (splitIntoQuestions (baseText transcription)) w)
    as (qs & w1 & E & T & Em & Pe & _ & F).
  exists qs, w1. unfold bind. rewrite E. unfold await. rewrite Pe. auto.
Qed.

End Extraction.

(** ** The validator of the detector, where it does not matter *)

Lemma bind_ext_l A B (m1 m2 : M A) (f : A -> M B) w :
  m1 w = m2 w -> bind m1 f w = bind m2 f w.
Proof. intro H. unfold bind. rewrite H. reflexivity. Qed.

Lemma bind_ext_r A B (m : M A) (f g : A -> M B) w :
  (forall a w', f a w' = g a w') -> bind m f w = bind m g w.
Proof.
  intro H. unfold bind. destruct (m w) as [[a | e |] w']; auto.
Qed.

Lemma bind_ret A B (a : A) (f : A -> M B) w : bind (ret a) f w = f a w.
Proof. reflexivity. Qed.

Lemma try_catch_ext A (b1 b2 : M A) h w :
  b1 w = b2 w -> try_catch b1 h w = try_catch b2 h w.
Proof. intro H. unfold try_catch. rewrite H. reflexivity. Qed.

Lemma try_finally_ext A (b1 b2 : M A) f w :
  b1 w = b2 w -> try_finally b1 f w = try_finally b2 f w.
Proof. intro H. unfold try_finally. rewrite H. reflexivity. Qed.

Lemma in_callers_ext caller m1 m2 w :
  m1 w = m2 w -> in_callers caller m1 w = in_callers caller m2 w.
Proof.
  intro H. unfold in_callers. destruct caller.
  - apply try_catch_ext, try_catch_ext, H.
  - unfold detached. rewrite (try_catch_ext _ _ _ _ _ H). reflexivity.
Qed.

Lemma map_M_ext A B (f g : A -> M B) l :
  Forall (fun x => forall w, f x w = g x w) l ->
  forall w, map_M f l w = map_M g l w.
Proof.
  induction 1 as [| x l Hx Hl IH]; intro w; cbn [map_M]; [reflexivity |].
  unfold bind at 1 3. rewrite Hx. destruct (g x w) as [[a | e |] w']; auto.
  apply bind_ext_l, IH.
Qed.

Section Validator.
Context {locale : Locale}.
Variable valid : DetectedQuestion -> bool.

Lemma questionPromise_validator_free d tr part w :
negb (nonempty (trimPreface part))
|| (length (trim (trimPreface part)) <? 2)%nat
|| looksLikeQuestion (trimPreface part) = true ->
questionPromise (detector := silent_detector valid) d tr part w
= questionPromise (detector := plain_detector) d tr part w.
Proof.
intro H. unfold questionPromise. cbv zeta.
destruct (negb (nonempty (trimPreface part))
          || (length (trim (trimPreface part)) <? 2)%nat); [reflexivity |].
cbn [orb] in H. rewrite H. cbn [negb].
apply bind_ext_r. intros id w'. rewrite !andb_false_r. reflexivity.
Qed.

Lemma detectAndRefineQuestions_validator_free caller tr w :
recognised_alone (tr_text tr) = true ->
detectAndRefineQuestions (detector := silent_detector valid) caller tr w
= detectAndRefineQuestions (detector := plain_detector) caller tr w.
Proof.
intro H. unfold detectAndRefineQuestions. apply try_catch_ext.
destruct (negb (nonempty (tr_text tr)) || (length (trim (tr_text tr)) <? 3)%nat);
  [reflexivity |].
cbv zeta. change (baseText (detector := silent_detector valid) tr) with (tr_text tr).
change (baseText (detector := plain_detector) tr) with (tr_text tr).
destruct (length (splitIntoQuestions (tr_text tr)) =? 0)%nat; [reflexivity |].
apply bind_ext_l. apply map_M_ext.
unfold recognised_alone in H. rewrite forallb_forall in H.
apply Forall_forall. intros part Hp w'.
apply questionPromise_validator_free. apply H, Hp.
Qed.

Lemma step_validator_free w s :
validator_free w s = true ->
step (detector := silent_detector valid) w s
= step (detector := plain_detector) w s.
Proof.
intro H. unfold step. f_equal. destruct s as [now c | now i answer];
  cbn [run_stimulus]; [reflexivity |].
cbn [validator_free] in H.
destruct (nth_error (pending w) i) as [t |]; [| reflexivity].
destruct t as [b | caller chunk | caller qs | caller]; try reflexivity.
cbn [resume]. apply in_callers_ext.
unfold transcribeChunk_settled, transcribeChunk_try.
apply try_finally_ext, try_catch_ext.
destruct answer as [e | [text |]]; try reflexivity.
rewrite !bind_ret.
apply bind_ext_r. intros id w2.
cbv zeta. apply bind_ext_r. intros _ w3. apply bind_ext_r. intros _ w4.
apply bind_ext_r. intros _ w5. cbn [tr_text].
destruct (nonempty (trim text)); [| reflexivity]. cbn [when].
apply bind_ext_l. apply detectAndRefineQuestions_validator_free. exact H.
Qed.

Lemma run_validator_free trace : forall w,
validator_free_run w trace = true ->
run (detector := silent_detector valid) w trace
= run (detector := plain_detector) w trace.
Proof.
induction trace as [| s trace IH]; intros w H; [reflexivity |].
cbn [validator_free_run] in H. apply andb_true_iff in H. destruct H as [H1 H2].
cbn [run fold_left]. rewrite step_validator_free by exact H1.
apply IH. exact H2.
Qed.
End Validator.


(** ** Contracts of the methods *)

Section Contracts.

Context {locale : Locale} {detector : QuestionDetector}.

(** C10. A batch submitted while the processor is not listening changes
    nothing: the call returns normally and the world it leaves (every
    field of the processor, the accumulator and its counters, the events
    emitted, the suspended calls) is the world it found. *)
Theorem processAudioChunk_idle_is_noop :
  forall (w : World) (audioData : Buffer),
    isListening (state (this w)) = false ->
    processAudioChunk audioData w = (Returned tt, w).
Proof.
  intros w audioData H. unfold processAudioChunk, bind, get. rewrite H.
  reflexivity.
Qed.

Lemma transcribeChunk_failed_eq caller chunk e w :
  transcribeChunk_settled caller chunk (inl e) w
  = if (errorListeners (this w) =? 0)%nat
    then (Thrown e, processed w)
    else (Returned tt, processed (snd (announce (error e) w))).
Proof.
  destruct w as [[[| n] st cf ca wc lc acs ra lq sb ls] em pe cl nu];
    reflexivity.
Qed.

(** C2. When the transcription request of a chunk is rejected, what
    follows depends on whether somebody listens for errors. With a
    listener for ['error'] the failure is contained: exactly one error
    event and then one state event are emitted, and the call that waited
    ends normally, whoever started it. With none, which is how the
    constructor leaves the processor, [emit] throws the error instead of
    delivering it: no error event is emitted, the [catch] blocks of
    [createAndProcessChunk] and [processAudioChunk] throw it on in turn,
    and [processAudioChunk] rejects with it (a cut started by the
    streaming detection only logs it). Either way the processing flag
    ends false, the listening flag is what it was, and nothing else of
    the processor changes. *)
Theorem gateway_failure_is_contained_iff_heard :
  forall (w : World) (caller : Caller) (chunk : AudioChunk) (e : JsError),
    let r := resume (await_transcription caller chunk) (inl e) w in
    let heard := negb (errorListeners (this w) =? 0)%nat in
    fst r = (if heard then Returned tt
             else match caller with
                  | by_processAudioChunk => Thrown e
                  | by_streaming_detection => Returned tt
                  end)
    /\ emitted (snd r)
       = emitted w ++ (if heard then [error e] else [])
         ++ [state_changed (state (this (snd r)))]
    /\ errors_of (emitted (snd r))
       = errors_of (emitted w) ++ (if heard then [e] else [])
    /\ isProcessing (state (this (snd r))) = false
    /\ isListening (state (this (snd r))) = isListening (state (this w))
    /\ pending (snd r) = pending w
    /\ this (snd r)
       = set_state (set_isProcessing false (state (this w))) (this w).
Proof.
  intros w caller chunk e r heard. subst r heard. cbn [resume].
  rewrite in_callers_eq;
    [| apply listeners_transcribeChunk_settled
     | apply contained_transcribeChunk_settled ].
  rewrite transcribeChunk_failed_eq.
  destruct (errorListeners (this w) =? 0)%nat;
    destruct caller; cbn; rewrite <- ?app_assoc; cbn;
    repeat split; unfold errors_of; rewrite ?flat_map_app; cbn;
    rewrite ?app_nil_r; reflexivity.
Qed.

(** C4. Refinement never erases a candidate: when the refined text has
    fewer than 3 code units, or fewer than 2 once its question marks are
    removed and it is trimmed, the candidate comes back unchanged;
    otherwise the refined text, of 3 code units at least, comes back. So
    a candidate that is not empty is refined to a text that is not empty,
    and the [refinedText] of every question that [questionPromise]
    produces is not empty. *)
Theorem refinement_never_erases_a_question :
  forall text : jsstring,
    text <> [] ->
    refineQuestionAlgorithmically text <> []
    /\ ((length (refine_steps text) < 3)%nat
        \/ (length (trim (replaceAll re_qmark [] (refine_steps text))) < 2)%nat ->
        refineQuestionAlgorithmically text = text)
    /\ ((3 <= length (refine_steps text))%nat ->
        (2 <= length (trim (replaceAll re_qmark [] (refine_steps text))))%nat ->
        refineQuestionAlgorithmically text = refine_steps text)
    /\ forall d tr part w q,
        fst (questionPromise d tr part w) = Returned (Some q) ->
        q_text q <> []
        /\ exists refined,
            q_refinedText q = Some refined /\ refined <> []
            /\ refined = refineQuestionAlgorithmically (trimPreface part).
Proof.
  intros text N. split; [apply refine_nonempty, N |]. split; [| split].
  - intro H. apply too_aggressive_iff in H.
    unfold refineQuestionAlgorithmically. rewrite H. reflexivity.
  - intros H1 H2. unfold refineQuestionAlgorithmically.
    destruct (too_aggressive (refine_steps text)) eqn:E; [| reflexivity].
    apply too_aggressive_iff in E. lia.
  - intros d tr part w q H.
    destruct (questionPromise_eq d tr part w) as (o & E & P).
    rewrite E in H. cbn in H. injection H as ->.
    destruct P as (P1 & P2 & P3 & P4). split.
    + intro Z. rewrite Z in P2. cbn in P2. lia.
    + eexists. split; [exact P3 |]. split; [| reflexivity].
      apply refine_nonempty, P4.
Qed.

(** C7. The questions of a transcript are emitted in the order of their
    candidates in the text: [detectAndRefineQuestions] either returns at
    once and emits nothing, or parks the settled candidates; their texts
    lie in the base text (the transcript, unless the detector isolated a
    span of it) one after the other, without overlap, and the resumed call
    emits one event for each of them, in that order. The transcript with
    two questions joined by a connector yields two questions, the first
    before the second, whatever the validator says. *)
Theorem questions_are_emitted_in_transcript_order :
  (forall (caller : Caller) (transcription : TranscriptionResult) (w : World),
      detectAndRefineQuestions caller transcription w = (Returned tt, w)
      \/ exists (questions : list (option DetectedQuestion)) (w1 : World),
          detectAndRefineQuestions caller transcription w
          = (Suspended,
             with_pending (pending w ++ [await_Promise_all caller questions]) w1)
          /\ this w1 = this w /\ emitted w1 = emitted w
          /\ pending w1 = pending w
          /\ in_order (map q_text (not_null questions)) (baseText transcription)
          /\ forall (answer : Answer) (w2 : World),
              questions_of
                (emitted (snd (resume (await_Promise_all caller questions)
                                      answer w2)))
              = questions_of (emitted w2) ++ not_null questions)
  /\ (forall valid : DetectedQuestion -> bool,
        map (fun q => (q_text q, q_refinedText q))
            (questions_for (locale := latin) (detector := silent_detector valid)
               "何時に始まりますか？それから誰が参加しますか？")
        = [ (utf16 "何時に始まりますか", Some (utf16 "何時に始まりますか？"));
            (utf16 "誰が参加しますか", Some (utf16 "誰が参加しますか？")) ]).
Proof.
  split.
  - intros caller transcription w.
    destruct (detectAndRefineQuestions_eq caller transcription w)
      as [H | (qs & w1 & E & T & Em & Pe & F)]; [left; exact H | right].
    exists qs, w1. repeat split; auto.
    + apply in_order_came_from
        with (parts := splitIntoQuestions (baseText transcription));
        [apply in_order_splitIntoQuestions | exact F].
    + intros answer w2. apply resume_Promise_all_emits.
  - intro valid. unfold questions_for.
    rewrite run_validator_free by (vm_compute; reflexivity).
    vm_compute. reflexivity.
Qed.

End Contracts.

(** C2, as the spec words it, fails for the processor as the
    constructor leaves it, with no listener for ['error']: a chunk is
    cut, the request for it is rejected, and the call of
    [processAudioChunk] that waited for it rejects with the error; no
    error event is emitted. Had a listener been registered first, the
    call would have ended normally and one error event been emitted. *)
Theorem unheard_gateway_failure_rejects :
  errorListeners
    (this (run (locale := latin) (detector := plain_detector)
               (new_World defaultConfig) first_cut_trace)) = 0%nat
  /\ fst (run_stimulus (locale := latin) (detector := plain_detector)
            (settle (t0 + 4500) 0 (inl (utf16 "503")))
            (run (locale := latin) (detector := plain_detector)
                 (new_World defaultConfig) first_cut_trace))
     = Thrown (utf16 "503")
  /\ errors_of
       (emitted
          (run (locale := latin) (detector := plain_detector)
               (new_World defaultConfig)
               (first_cut_trace
                ++ [settle (t0 + 4500) 0 (inl (utf16 "503"))])))
     = []
  /\ fst (run_stimulus (locale := latin) (detector := plain_detector)
            (settle (t0 + 4500) 0 (inl (utf16 "503")))
            (run (locale := latin) (detector := plain_detector)
                 (new_World defaultConfig)
                 (invoke t0 call_on_error :: first_cut_trace)))
     = Returned tt
  /\ errors_of
       (emitted
          (run (locale := latin) (detector := plain_detector)
               (new_World defaultConfig)
               (invoke t0 call_on_error :: first_cut_trace
                ++ [settle (t0 + 4500) 0 (inl (utf16 "503"))])))
     = [utf16 "503"].
Proof. vm_compute. repeat split. Qed.


(** C10 at the processor the constructor builds. *)
Lemma processAudioChunk_idle_witness :
  isListening (state (this (new_World defaultConfig))) = false
  /\ processAudioChunk (locale := latin) (silence 160) (new_World defaultConfig)
     = (Returned tt, new_World defaultConfig).
Proof.
  split; [reflexivity |].
  apply (processAudioChunk_idle_is_noop (locale := latin)). reflexivity.
Defined.

(** C4 at a candidate made of fillers and an ASCII question mark: what is
    left of it is the question mark alone, and the candidate comes back. *)
Lemma refinement_fallback_witness :
  utf16 "えー、あのー、?" <> []
  /\ refineQuestionAlgorithmically (locale := latin) (utf16 "えー、あのー、?")
     = utf16 "えー、あのー、?".
Proof.
  assert (N : utf16 "えー、あのー、?" <> []) by (vm_compute; discriminate).
  split; [exact N |].
  destruct (refinement_never_erases_a_question (locale := latin)
              (detector := plain_detector) (utf16 "えー、あのー、?") N)
    as (_ & F & _).
  apply F. left. vm_compute. lia.
Defined.

(** C8. [stopListening] returns normally. On an idle processor it
    changes nothing. On a listening one it sets both flags to false,
    empties the accumulator, resets the word count and announces the new
    state and no chunk; but the sample counter and the time of the last
    chunk, which [createAndProcessChunk] resets together with the
    accumulator, are left as they were. So when audio for 1999.9 ms is
    accumulated and the processor is stopped, the counter still reads
    31999, and the processor, started again, cuts a chunk of the first
    sample it receives. *)
Theorem stopListening_keeps_the_sample_counter :
  (forall w : World,
      let w' := snd (stopListening w) in
      fst (stopListening w) = Returned tt
      /\ (isListening (state (this w)) = false -> w' = w)
      /\ (isListening (state (this w)) = true ->
          isListening (state (this w')) = false
          /\ isProcessing (state (this w')) = false
          /\ currentAudioData (this w') = []
          /\ wordCount (this w') = 0
          /\ emitted w' = emitted w ++ [state_changed (state (this w'))]
          /\ pending w' = pending w)
      /\ accumulatedSamples (this w') = accumulatedSamples (this w)
      /\ lastChunkTime (this w') = lastChunkTime (this w))
  /\ let w := run (locale := latin) (detector := plain_detector)
                  (new_World defaultConfig) stale_counter_trace in
     isListening (state (this w)) = false
     /\ isProcessing (state (this w)) = false
     /\ currentAudioData (this w) = []
     /\ wordCount (this w) = 0
     /\ chunks_of (emitted w) = []
     /\ accumulatedSamples (this w) = 31999
     /\ let w' := run (locale := latin) (detector := plain_detector)
                      w restart_trace in
        map (fun c => length (chunk_data c)) (chunks_of (emitted w'))
        = [1%nat].
Proof.
  split.
  - intros w w'. subst w'. rewrite stopListening_eq.
    destruct (isListening (state (this w))); cbn;
      repeat split; auto; discriminate.
  - vm_compute. repeat split.
Qed.

(** C5. The transcript with a leading filler yields exactly one
    question, which ends in the interrogative core, but the filler it
    starts with is still there: [trimPreface] leaves the candidate as it
    is (its pattern wants white space after the filler), the filler is
    not in [fillerWords], and refinement only turns the comma after it
    into a space. *)
Theorem leading_filler_survives_refinement :
  forall valid : DetectedQuestion -> bool,
    map (fun q => (q_text q, q_refinedText q))
        (questions_for (locale := latin) (detector := silent_detector valid)
           "えーと、今日の予定はどうなっていますか？")
    = [ (utf16 "えーと、今日の予定はどうなっていますか",
         Some (utf16 "えーと 今日の予定はどうなっていますか？")) ]
    /\ splitIntoQuestions (utf16 "えーと、今日の予定はどうなっていますか？")
       = [utf16 "えーと、今日の予定はどうなっていますか"]
    /\ trimPreface (utf16 "えーと、今日の予定はどうなっていますか")
       = utf16 "えーと、今日の予定はどうなっていますか"
    /\ refineQuestionAlgorithmically (locale := latin)
         (utf16 "えーと、今日の予定はどうなっていますか")
       = utf16 "えーと 今日の予定はどうなっていますか？"
    /\ fillerWords_has (utf16 "えーと") = false
    /\ test leadingPrefacePattern (utf16 "えーと、今日の予定はどうなっていますか")
       = false.
Proof.
  intro valid. split.
  - unfold questions_for.
    rewrite run_validator_free by (vm_compute; reflexivity).
    vm_compute. reflexivity.
  - repeat apply conj; vm_compute; reflexivity.
Qed.

(** C6. A transcript made of fillers and a full-width question mark
    yields no question at all: the split on the question mark removes it,
    and what is left has no shape [splitIntoQuestions] keeps, so that
    [detectAndRefineQuestions] returns at once, whatever the detector, as
    long as the text it works on is the transcript. With the ASCII
    question mark the candidate is kept and, once validated, refined to
    itself. *)
Theorem filler_only_question_is_dropped :
  forall valid : DetectedQuestion -> bool,
    questions_for (locale := latin) (detector := silent_detector valid)
      "えー、あのー、？" = []
    /\ splitIntoQuestions (utf16 "えー、あのー、？") = []
    /\ question_shaped (utf16 "えー、あのー") = false
    /\ (forall (detector : QuestionDetector) (caller : Caller)
               (transcription : TranscriptionResult) (w : World),
          baseText transcription = utf16 "えー、あのー、？" ->
          detectAndRefineQuestions (locale := latin) caller transcription w
          = (Returned tt, w))
    /\ splitIntoQuestions (utf16 "えー、あのー、?") = [utf16 "えー、あのー、?"]
    /\ map (fun q => (q_text q, q_refinedText q))
           (questions_for (locale := latin)
              (detector := silent_detector (fun _ => true)) "えー、あのー、?")
       = [ (utf16 "えー、あのー、?", Some (utf16 "えー、あのー、?")) ].
Proof.
  intro valid.
  assert (S : splitIntoQuestions (utf16 "えー、あのー、？") = [])
    by (vm_compute; reflexivity).
  split; [| split; [exact S | split; [vm_compute; reflexivity | split]]].
  - unfold questions_for.
    rewrite run_validator_free by (vm_compute; reflexivity).
    vm_compute. reflexivity.
  - intros detector caller transcription w H.
    unfold detectAndRefineQuestions, try_catch. rewrite H, S.
    destruct (negb (nonempty (tr_text transcription))
              || (length (trim (tr_text transcription)) <? 3)%nat);
      reflexivity.
  - split; vm_compute; reflexivity.
Qed.

(** C4, as the spec words it, fails on a candidate that ends in full
    stops: the refined text has one character that is no punctuation, and
    yet it is the refined text that comes back (and is emitted), not the
    candidate. *)
Lemma refinement_of_one_letter_is_kept :
  looksLikeQuestion (utf16 "何...") = true
  /\ refine_steps (locale := latin) (utf16 "何...") = utf16 "何...？"
  /\ non_punctuation (refine_steps (locale := latin) (utf16 "何..."))
     = utf16 "何"
  /\ (length (non_punctuation (refine_steps (locale := latin) (utf16 "何...")))
      < 2)%nat
  /\ refineQuestionAlgorithmically (locale := latin) (utf16 "何...")
     = utf16 "何...？"
  /\ refineQuestionAlgorithmically (locale := latin) (utf16 "何...")
     <> utf16 "何..."
  /\ map (fun q => (q_text q, q_refinedText q))
         (questions_for (locale := latin) (detector := plain_detector) "何...")
     = [ (utf16 "何...", Some (utf16 "何...？")) ].
Proof.
  repeat apply conj;
    try (vm_compute; first [reflexivity | apply le_n | discriminate]).
Qed.

(** * Further properties *)
Open Scope Z_scope.

Example pcm_ex : to_pcmBuffer [0; 1; -1; 32767; -32768]
  = Some [x00; x00; x00; x00; xff; xff; xfe; x7f; x00; x80].
Proof. vm_compute. reflexivity. Qed.

Lemma Z_of_byte_range b : 0 <= Z_of_byte b <= 255.
Proof.
  unfold Z_of_byte. pose proof (Byte.to_N_bounded b). lia.
Qed.

Lemma Z_of_byte_of_Z z : Z_of_byte (byte_of_Z z) = z mod 256.
Proof.
  unfold Z_of_byte, byte_of_Z.
  assert (R : 0 <= z mod 256 < 256) by (apply Z.mod_pos_bound; lia).
  destruct (Byte.of_N (Z.to_N (z mod 256))) as [b |] eqn:E.
  - apply Byte.to_of_N in E. rewrite E. lia.
  - apply Byte.of_N_None_iff in E. lia.
Qed.

Lemma int16_of_range lo hi : -32768 <= int16_of lo hi <= 32767.
Proof.
  unfold int16_of.
  pose proof (Z_of_byte_range lo). pose proof (Z_of_byte_range hi).
  unfold Z_of_byte in *.
  match goal with |- context [if ?c then _ else _] => destruct c eqn:E end;
    [apply Z.ltb_lt in E | apply Z.ltb_ge in E]; lia.
Qed.

Lemma int16_of_little_endian v :
  -32768 <= v <= 32767 ->
  int16_of (byte_of_Z v) (byte_of_Z (v / 256)) = v.
Proof.
  intro R. unfold int16_of.
  change (Z.of_N (Byte.to_N (byte_of_Z v))) with (Z_of_byte (byte_of_Z v)).
  change (Z.of_N (Byte.to_N (byte_of_Z (v / 256))))
    with (Z_of_byte (byte_of_Z (v / 256))).
  rewrite !Z_of_byte_of_Z.
  match goal with |- context [if ?c then _ else _] => destruct c eqn:E end;
    [apply Z.ltb_lt in E | apply Z.ltb_ge in E];
    Z.div_mod_to_equations; lia.
Qed.

(** Induction two bytes at a time. *)
Lemma Buffer_pairs_ind (P : Buffer -> Prop) :
  P [] -> (forall b, P [b]) ->
  (forall lo hi rest, P rest -> P (lo :: hi :: rest)) ->
  forall buf, P buf.
Proof.
  intros H0 H1 H2.
  assert (G : forall buf, P buf /\ forall b, P (b :: buf)).
  { induction buf as [| x buf [IH1 IH2]]; split; auto. }
  intro buf. apply G.
Qed.

Lemma to_Float32Array_range audioData :
  Forall (fun v => -32768 <= v <= 32767) (to_Float32Array audioData).
Proof.
  induction audioData as [| b | lo hi rest IH] using Buffer_pairs_ind;
    simpl; constructor; auto using int16_of_range.
Qed.

Lemma to_Float32Array_length audioData :
  length (to_Float32Array audioData) = (length audioData / 2)%nat.
Proof.
  induction audioData as [| b | lo hi rest IH] using Buffer_pairs_ind;
    try reflexivity.
  cbn [to_Float32Array length]. rewrite IH.
  change (S (S (length rest))) with (1 * 2 + length rest)%nat.
  rewrite Nat.div_add_l by lia. reflexivity.
Qed.

Lemma sample_value_eq v : sample_value v = (v * 1 # 32768)%Q.
Proof. reflexivity. Qed.

Lemma pcm_value_eq v :
  -32768 <= v <= 32767 ->
  pcm_value v = if 0 <? v then v - 1 else v.
Proof.
  intro R. unfold pcm_value, Math_max, Math_min. rewrite sample_value_eq.
  assert (E1 : Qle_bool 1 (v * 1 # 32768) = false).
  { destruct (Qle_bool 1 (v * 1 # 32768)) eqn:E; [| reflexivity].
    apply Qle_bool_iff in E. unfold Qle in E. cbn [Qnum Qden] in E. lia. }
  rewrite E1.
  assert (E2 : Qle_bool (-1) (v * 1 # 32768) = true).
  { apply Qle_bool_iff. unfold Qle. cbn [Qnum Qden]. lia. }
  rewrite E2. cbv zeta.
  destruct (0 <? v) eqn:P; [apply Z.ltb_lt in P | apply Z.ltb_ge in P].
  - assert (C : ((v * 1 # 32768) ?= 0)%Q = Gt).
    { apply (proj1 (Qgt_alt _ _)). unfold Qlt. cbn [Qnum Qden]. lia. }
    rewrite C. unfold Qfloor, Qmult. cbn [Qnum Qden Pos.mul].
    Z.div_mod_to_equations. lia.
  - destruct (Z.eq_dec v 0) as [-> | N]; [reflexivity |].
    assert (C : ((v * 1 # 32768) ?= 0)%Q = Lt).
    { apply (proj1 (Qlt_alt _ _)). unfold Qlt. cbn [Qnum Qden]. lia. }
    rewrite C. unfold Qfloor, Qmult. cbn [Qnum Qden Pos.mul].
    Z.div_mod_to_equations. lia.
Qed.

Lemma put_in_place (bytes pre fill rest : list byte) :
  length fill = length bytes ->
  put bytes (length pre) (pre ++ fill ++ rest) = pre ++ bytes ++ rest.
Proof.
  intro L. unfold put.
  rewrite firstn_app, Nat.sub_diag, firstn_all, firstn_O, app_nil_r.
  rewrite skipn_app.
  rewrite (skipn_all2 pre) by lia.
  replace (length pre + length bytes - length pre)%nat with (length fill) by lia.
  rewrite skipn_app, skipn_all, Nat.sub_diag. reflexivity.
Qed.

Lemma pcm_value_range v :
  -32768 <= v <= 32767 -> -32768 <= pcm_value v <= 32767.
Proof.
  intro R. rewrite pcm_value_eq by exact R.
  destruct (0 <? v) eqn:P; [apply Z.ltb_lt in P |]; lia.
Qed.

Lemma pcm_loop_eq : forall (data : Float32Array) (i : nat) (pre : Buffer),
  Forall (fun v => -32768 <= v <= 32767) data ->
  length pre = (i * 2)%nat ->
  pcm_loop data i (pre ++ Buffer_alloc (length data * 2))
  = Some (pre ++ flat_map (fun v => little_endian 2 (pcm_value v)) data).
Proof.
  induction data as [| v data IH]; intros i pre R L.
  - reflexivity.
  - inversion R as [| v' data' Rv Rd]; subst.
    cbn [pcm_loop flat_map length]. unfold writeInt16LE.
    pose proof (pcm_value_range v Rv) as [R1 R2].
    apply Z.leb_le in R1. apply Z.leb_le in R2. rewrite R1, R2. cbn [andb].
    assert (F : (i * 2 + 2 <=? length (pre ++ Buffer_alloc (S (length data) * 2)))%nat
                = true).
    { apply Nat.leb_le. unfold Buffer_alloc.
      rewrite length_app, repeat_length. lia. }
    rewrite F. rewrite <- L.
    change (Buffer_alloc (S (length data) * 2))
      with ([x00; x00] ++ Buffer_alloc (length data * 2)).
    rewrite put_in_place by reflexivity.
    rewrite app_assoc. rewrite IH.
    + rewrite <- app_assoc. reflexivity.
    + exact Rd.
    + rewrite length_app. cbn [length little_endian map seq]. lia.
Qed.

Lemma to_Float32Array_little_endian : forall data : Float32Array,
  Forall (fun v => -32768 <= v <= 32767) data ->
  to_Float32Array (flat_map (little_endian 2) data) = data.
Proof.
  induction data as [| v data IH]; intro R; [reflexivity |].
  inversion R as [| v' data' Rv Rd]; subst.
  cbn [flat_map little_endian map seq app to_Float32Array].
  rewrite IH by exact Rd.
  change (256 ^ Z.of_nat 0) with 1. change (256 ^ Z.of_nat 1) with 256.
  rewrite Z.div_1_r. rewrite int16_of_little_endian by exact Rv. reflexivity.
Qed.

Lemma flat_map_map A B C (f : B -> list C) (g : A -> B) l :
  flat_map f (map g l) = flat_map (fun x => f (g x)) l.
Proof. induction l as [| x l IH]; simpl; [| rewrite IH]; reflexivity. Qed.

Lemma to_pcmBuffer_eq (data : Float32Array) :
  Forall (fun v => -32768 <= v <= 32767) data ->
  to_pcmBuffer data
  = Some (flat_map (fun v => little_endian 2 (pcm_value v)) data).
Proof.
  intro R. unfold to_pcmBuffer. apply (pcm_loop_eq data 0 [] R). reflexivity.
Qed.

Lemma length_pcm (data : Float32Array) :
  length (flat_map (fun v => little_endian 2 (pcm_value v)) data)
  = (length data * 2)%nat.
Proof.
  induction data as [| v l IH]; [reflexivity |].
  cbn [flat_map length]. rewrite length_app, IH. reflexivity.
Qed.

Lemma to_Float32Array_pcm (data : Float32Array) :
  Forall (fun v => -32768 <= v <= 32767) data ->
  to_Float32Array (flat_map (fun v => little_endian 2 (pcm_value v)) data)
  = map (fun v => if 0 <? v then v - 1 else v) data.
Proof.
  intro R.
  rewrite <- (flat_map_map _ _ _ (little_endian 2) pcm_value).
  rewrite to_Float32Array_little_endian.
  - apply map_ext_Forall. eapply Forall_impl; [| exact R].
    intros v Rv. apply pcm_value_eq, Rv.
  - apply Forall_map. eapply Forall_impl; [| exact R].
    intros v Rv. apply pcm_value_range, Rv.
Qed.

(** X1. The samples of a batch, turned back into PCM for the transcription
    service: the conversion never fails, it gives two bytes for every
    sample, and what the service reads is the batch with every positive
    sample lowered by one step (a negative sample is scaled by 32768, a
    positive one by 32767). *)
Theorem pcm_round_trip_lowers_positive_samples :
  forall audioData : Buffer,
    let data := to_Float32Array audioData in
    length data = (length audioData / 2)%nat
    /\ Forall (fun v => -32768 <= v <= 32767) data
    /\ exists pcmBuffer : Buffer,
        to_pcmBuffer data = Some pcmBuffer
        /\ length pcmBuffer = (length data * 2)%nat
        /\ to_Float32Array pcmBuffer
           = map (fun v => if 0 <? v then v - 1 else v) data.
Proof.
  intros audioData data.
  pose proof (to_Float32Array_range audioData) as R. fold data in R.
  split; [apply to_Float32Array_length |]. split; [exact R |].
  exists (flat_map (fun v => little_endian 2 (pcm_value v)) data).
  split; [apply to_pcmBuffer_eq, R |].
  split; [apply length_pcm | apply to_Float32Array_pcm, R].
Qed.

Example wav_ex :
  wavFile 16000 [x01; x02]
  = Some (list_byte_of_string "RIFF" ++ [x26; x00; x00; x00]
          ++ list_byte_of_string "WAVEfmt " ++ [x10; x00; x00; x00]
          ++ [x01; x00; x01; x00] ++ [x80; x3e; x00; x00]
          ++ [x00; x7d; x00; x00] ++ [x02; x00; x10; x00]
          ++ list_byte_of_string "data" ++ [x02; x00; x00; x00]
          ++ [x01; x02]).
Proof. vm_compute. reflexivity. Qed.

Lemma put_zeros (bytes pre : list byte) (m : nat) :
  (length bytes <= m)%nat ->
  put bytes (length pre) (pre ++ repeat x00 m)
  = (pre ++ bytes) ++ repeat x00 (m - length bytes).
Proof.
  intro L.
  replace m with (length bytes + (m - length bytes))%nat at 1 by lia.
  rewrite repeat_app, put_in_place by apply repeat_length.
  rewrite app_assoc. reflexivity.
Qed.

Lemma length_little_endian n v : length (little_endian n v) = n.
Proof. unfold little_endian. rewrite length_map, length_seq. reflexivity. Qed.

Lemma header_write_uint n v k pre m off :
  off = length pre -> (n <= m)%nat ->
  header_write (writeUIntLE n v) k (Some (pre ++ repeat x00 m, off))
  = if (0 <=? v) && (v <? 256 ^ Z.of_nat n)
    then Some ((pre ++ little_endian n v) ++ repeat x00 (m - n), (off + k)%nat)
    else None.
Proof.
  intros -> L. unfold header_write, writeUIntLE.
  destruct ((0 <=? v) && (v <? 256 ^ Z.of_nat n)); [| reflexivity].
  cbn [andb].
  replace (length pre + n <=? length (pre ++ repeat x00 m))%nat with true.
  - rewrite put_zeros; rewrite length_little_endian; [reflexivity | exact L].
  - symmetry. apply Nat.leb_le. rewrite length_app, repeat_length. lia.
Qed.

Lemma header_write_text s k pre m off :
  off = length pre -> (String.length s <= m)%nat ->
  header_write (fun offset header => Some (Buffer_write s offset header)) k
               (Some (pre ++ repeat x00 m, off))
  = Some ((pre ++ list_byte_of_string s) ++ repeat x00 (m - String.length s),
          (off + k)%nat).
Proof.
  intros -> L. unfold header_write, Buffer_write.
  assert (B : length (list_byte_of_string s) = String.length s).
  { clear. unfold list_byte_of_string. rewrite length_map.
    induction s as [| a s IH]; simpl; congruence. }
  rewrite firstn_all2 by (rewrite length_app, repeat_length, B; lia).
  rewrite put_zeros by (rewrite B; exact L). rewrite B. reflexivity.
Qed.

Ltac constant_write :=
  rewrite header_write_uint by (cbn; lia);
  match goal with
  | |- context [if ?c then _ else _] =>
    let c' := eval vm_compute in c in change c with c'
  end;
  cbv iota.

Lemma wavFile_eq sampleRate buffer :
  wavFile sampleRate buffer =
  if (0 <=? sampleRate) && (sampleRate * 2 <? 2 ^ 32)
     && (36 + Z.of_nat (length buffer) <? 2 ^ 32)
  then Some (wav_header sampleRate (Z.of_nat (length buffer)) ++ buffer)
  else None.
Proof.
  unfold wavFile. cbv zeta.
  set (dataSize := Z.of_nat (length buffer)).
  assert (D : 0 <= dataSize) by (unfold dataSize; lia).
  clearbody dataSize.
  change (16 / 8) with 2. change (1 * 2) with 2.
  change (Buffer_alloc 44) with ([] ++ repeat x00 44).
  unfold writeUInt32LE, writeUInt16LE.
  rewrite header_write_text by (cbn; lia).
  rewrite header_write_uint by (cbn; lia).
  change (256 ^ Z.of_nat 4) with (2 ^ 32).
  destruct (36 + dataSize <? 2 ^ 32) eqn:E1;
    [apply Z.ltb_lt in E1
    | rewrite !andb_false_r; reflexivity ].
  replace (0 <=? 36 + dataSize) with true by (symmetry; apply Z.leb_le; lia).
  cbn [andb]. rewrite andb_true_r.
  rewrite header_write_text by (cbn; lia).
  rewrite header_write_text by (cbn; lia).
  constant_write. constant_write. constant_write.
  rewrite header_write_uint by (cbn; lia).
  change (256 ^ Z.of_nat 4) with (2 ^ 32).
  destruct (0 <=? sampleRate) eqn:E2;
    [apply Z.leb_le in E2 | reflexivity].
  cbn [andb].
  destruct (sampleRate * 2 <? 2 ^ 32) eqn:E3;
    [apply Z.ltb_lt in E3
    | apply Z.ltb_ge in E3;
      destruct (sampleRate <? 2 ^ 32); [| reflexivity];
      rewrite header_write_uint by (cbn; lia);
      change (256 ^ Z.of_nat 4) with (2 ^ 32);
      replace (sampleRate * 2 <? 2 ^ 32) with false
        by (symmetry; apply Z.ltb_ge; lia);
      rewrite andb_false_r; reflexivity ].
  replace (sampleRate <? 2 ^ 32) with true by (symmetry; apply Z.ltb_lt; lia).
  rewrite header_write_uint by (cbn; lia).
  change (256 ^ Z.of_nat 4) with (2 ^ 32).
  replace (0 <=? sampleRate * 2) with true by (symmetry; apply Z.leb_le; lia).
  replace (sampleRate * 2 <? 2 ^ 32) with true by (symmetry; apply Z.ltb_lt; lia).
  cbn [andb].
  constant_write. constant_write.
  rewrite header_write_text by (cbn; lia).
  rewrite header_write_uint by (cbn; lia).
  change (256 ^ Z.of_nat 4) with (2 ^ 32).
  replace (0 <=? dataSize) with true by (symmetry; apply Z.leb_le; lia).
  replace (dataSize <? 2 ^ 32) with true by (symmetry; apply Z.ltb_lt; lia).
  cbn [andb]. unfold wav_header.
  cbn [app Nat.sub String.length repeat]. rewrite app_nil_r.
  rewrite <- !app_assoc. reflexivity.
Qed.

Lemma little_endian_4 v :
  little_endian 4 v
  = [byte_of_Z (v / 256 ^ Z.of_nat 0); byte_of_Z (v / 256 ^ Z.of_nat 1);
     byte_of_Z (v / 256 ^ Z.of_nat 2); byte_of_Z (v / 256 ^ Z.of_nat 3)].
Proof. reflexivity. Qed.

Lemma little_endian_2 v :
  little_endian 2 v
  = [byte_of_Z (v / 256 ^ Z.of_nat 0); byte_of_Z (v / 256 ^ Z.of_nat 1)].
Proof. reflexivity. Qed.

Ltac read_back :=
  unfold readUIntLE; cbn [skipn firstn fold_right];
  rewrite ?Z_of_byte_of_Z;
  change (256 ^ Z.of_nat 0) with 1; change (256 ^ Z.of_nat 1) with 256;
  change (256 ^ Z.of_nat 2) with 65536;
  change (256 ^ Z.of_nat 3) with 16777216;
  first [reflexivity | Z.div_mod_to_equations; lia].

(** X2. The file written for the transcription service. When the sample rate
    is not negative, twice the sample rate fits 32 bits and so does the
    size of the data plus 36, the file is a header of 44 bytes followed
    by the data, and the header declares a RIFF/WAVE file of 16-bit mono
    PCM at the configured rate, with the byte rate, the size of the data
    and the size of the file that go with them. Otherwise a write into
    the header throws and no file is written. *)
Theorem wavFile_header_declares_the_data :
  forall (sampleRate : Z) (buffer : Buffer),
    let dataSize := Z.of_nat (length buffer) in
    if (0 <=? sampleRate) && (sampleRate * 2 <? 2 ^ 32)
       && (36 + dataSize <? 2 ^ 32)
    then exists header : Buffer,
        wavFile sampleRate buffer = Some (header ++ buffer)
        /\ length header = 44%nat
        /\ firstn 4 header = list_byte_of_string "RIFF"
        /\ readUIntLE 4 4 header = 36 + dataSize
        /\ firstn 8 (skipn 8 header) = list_byte_of_string "WAVEfmt "
        /\ readUIntLE 4 16 header = 16
        /\ readUIntLE 2 20 header = 1
        /\ readUIntLE 2 22 header = 1
        /\ readUIntLE 4 24 header = sampleRate
        /\ readUIntLE 4 28 header = sampleRate * 2
        /\ readUIntLE 2 32 header = 2
        /\ readUIntLE 2 34 header = 16
        /\ firstn 4 (skipn 36 header) = list_byte_of_string "data"
        /\ readUIntLE 4 40 header = dataSize
    else wavFile sampleRate buffer = None.
Proof.
  intros sampleRate buffer dataSize. rewrite wavFile_eq. fold dataSize.
  assert (D : 0 <= dataSize) by (unfold dataSize; lia). clearbody dataSize.
  destruct (0 <=? sampleRate) eqn:E1; [apply Z.leb_le in E1 | reflexivity].
  destruct (sampleRate * 2 <? 2 ^ 32) eqn:E2;
    [apply Z.ltb_lt in E2 | reflexivity].
  destruct (36 + dataSize <? 2 ^ 32) eqn:E3;
    [apply Z.ltb_lt in E3 | reflexivity].
  cbn [andb]. exists (wav_header sampleRate dataSize).
  split; [reflexivity |]. unfold wav_header.
  rewrite !little_endian_4, !little_endian_2.
  change (list_byte_of_string "RIFF") with [x52; x49; x46; x46].
  change (list_byte_of_string "WAVEfmt ")
    with [x57; x41; x56; x45; x66; x6d; x74; x20].
  change (list_byte_of_string "data") with [x64; x61; x74; x61].
  cbn [app]. change (2 ^ 32) with 4294967296 in *.
  repeat apply conj; try reflexivity; read_back.
Qed.

(** X3. The two conversions in a row: for a batch of samples that came in as
    16-bit PCM, the file sent to the service is 44 bytes of header and two
    bytes for every sample, and the samples a reader finds after the
    header are those of the batch, every positive one lowered by one
    step. *)
Theorem chunk_file_holds_the_requantised_samples :
  forall (sampleRate : Z) (audioData : Buffer),
    let data := to_Float32Array audioData in
    0 <= sampleRate -> sampleRate * 2 < 2 ^ 32 ->
    36 + 2 * Z.of_nat (length data) < 2 ^ 32 ->
    exists pcmBuffer file : Buffer,
      to_pcmBuffer data = Some pcmBuffer
      /\ wavFile sampleRate pcmBuffer = Some file
      /\ length file = (44 + 2 * length data)%nat
      /\ readUIntLE 4 40 file = 2 * Z.of_nat (length data)
      /\ to_Float32Array (skipn 44 file)
         = map (fun v => if 0 <? v then v - 1 else v) data.
Proof.
  intros sampleRate audioData data R1 R2 R3.
  pose proof (to_Float32Array_range audioData) as R. fold data in R.
  set (pcm := flat_map (fun v => little_endian 2 (pcm_value v)) data).
  assert (L : length pcm = (length data * 2)%nat) by apply length_pcm.
  exists pcm, (wav_header sampleRate (Z.of_nat (length pcm)) ++ pcm).
  assert (H : length (wav_header sampleRate (Z.of_nat (length pcm))) = 44%nat).
  { unfold wav_header. rewrite !length_app, !length_little_endian.
    reflexivity. }
  split; [apply to_pcmBuffer_eq, R |]. split; [| split; [| split]].
  - rewrite wavFile_eq.
    replace (0 <=? sampleRate) with true by (symmetry; apply Z.leb_le; lia).
    replace (sampleRate * 2 <? 2 ^ 32) with true
      by (symmetry; apply Z.ltb_lt; lia).
    replace (36 + Z.of_nat (length pcm) <? 2 ^ 32) with true
      by (symmetry; apply Z.ltb_lt; rewrite L; lia).
    reflexivity.
  - rewrite length_app, H, L. lia.
  - replace (2 * Z.of_nat (length data)) with (Z.of_nat (length pcm))
      by (rewrite L; lia).
    assert (D : 0 <= Z.of_nat (length pcm) < 2 ^ 32) by (rewrite L; lia).
    revert D. generalize (Z.of_nat (length pcm)). intros dataSize D.
    unfold wav_header. rewrite !little_endian_4, !little_endian_2.
    change (list_byte_of_string "RIFF") with [x52; x49; x46; x46].
    change (list_byte_of_string "WAVEfmt ")
      with [x57; x41; x56; x45; x66; x6d; x74; x20].
    change (list_byte_of_string "data") with [x64; x61; x74; x61].
    cbn [app]. change (2 ^ 32) with 4294967296 in *. read_back.
  - rewrite skipn_app, skipn_all2 by lia. rewrite H, Nat.sub_diag.
    cbn [skipn app]. apply to_Float32Array_pcm, R.
Qed.

Close Scope Z_scope.

(** ** Substrings *)

Lemma char_eqb_eq a b : char_eqb a b = true <-> a = b.
Proof. apply N.eqb_eq. Qed.

Lemma startsWith_iff p : forall s,
  startsWith p s = true <-> exists b, s = p ++ b.
Proof.
  induction p as [| x p IH]; intro s.
  - split; [intros _; exists s; reflexivity | reflexivity].
  - destruct s as [| y s]; simpl.
    + split; [discriminate | intros [b H]; discriminate].
    + rewrite andb_true_iff, char_eqb_eq, IH. split.
      * intros [-> [b ->]]. exists b. reflexivity.
      * intros [b H]. injection H as -> ->. split; [reflexivity | eauto].
Qed.

Lemma startsWith_skipn p s :
  startsWith p s = true -> s = p ++ skipn (length p) s.
Proof.
  intro H. apply startsWith_iff in H. destruct H as [b ->].
  rewrite skipn_app, skipn_all, Nat.sub_diag. reflexivity.
Qed.

Lemma includes_iff sub : forall s,
  includes s sub = true <-> exists a b, s = a ++ sub ++ b.
Proof.
  induction s as [| c s IH].
  - simpl. rewrite orb_false_r, startsWith_iff. split.
    + intros [b H]. exists [], b. exact H.
    + intros (a & b & H). destruct a; [| discriminate]. exists b. exact H.
  - cbn [includes]. rewrite orb_true_iff, startsWith_iff, IH. split.
    + intros [[b H] | (a & b & ->)].
      * exists [], b. exact H.
      * exists (c :: a), b. reflexivity.
    + intros (a & b & H). destruct a as [| x a].
      * left. exists b. exact H.
      * right. injection H as -> ->. eauto.
Qed.

Lemma endsWith_iff s p : endsWith s p = true <-> exists a, s = a ++ p.
Proof.
  unfold endsWith. rewrite startsWith_iff. split.
  - intros [b H]. exists (rev b).
    rewrite <- (rev_involutive s), H, rev_app_distr, rev_involutive.
    reflexivity.
  - intros [a ->]. exists (rev a). apply rev_app_distr.
Qed.

(** ** What the matcher accepts *)

Lemma run_re_Str total p : forall s k,
  run_re total (Str p) s k
  = if startsWith p s then k (skipn (length p) s) else None.
Proof.
  induction p as [| c p IH]; intros s k; [reflexivity |].
  assert (Y : forall x, char_eqb x c = char_eqb c x)
    by (intro; apply N.eqb_sym).
  destruct p as [| c' p].
  - destruct s as [| x s]; simpl; [reflexivity |]. rewrite Y, andb_true_r.
    destruct (char_eqb c x); reflexivity.
  - change (Str (c :: c' :: p)) with (Seq (Chr c) (Str (c' :: p))).
    cbn [run_re]. destruct s as [| x s]; [reflexivity |].
    cbn [startsWith]. rewrite Y. destruct (char_eqb c x); [| reflexivity].
    rewrite IH. reflexivity.
Qed.

Lemma run_re_Seq total r1 r2 s k :
  run_re total (Seq r1 r2) s k
  = run_re total r1 s (fun s' => run_re total r2 s' k).
Proof. reflexivity. Qed.

Lemma run_re_Star_skip total r s k :
  k s <> None -> run_re total (Star r) s k <> None.
Proof.
  intro H. cbn [run_re]. destruct (length s) as [| n]; [exact H |].
  match goal with |- match ?m with _ => _ end <> _ => destruct m end;
    [discriminate | exact H].
Qed.

Lemma run_re_AltL total l s k :
  run_re total (AltL l) s k <> None
  <-> exists r, In r l /\ run_re total r s k <> None.
Proof.
  induction l as [| r l IH].
  - simpl. split; [| intros (r & [] & _)].
    destruct s; intro H; exfalso; apply H; reflexivity.
  - destruct l as [| r' l].
    + simpl. split; [eauto | intros (r0 & [<- | []] & H); exact H].
    + change (AltL (r :: r' :: l)) with (Alt r (AltL (r' :: l))).
      cbn [run_re]. split.
      * intro H. destruct (run_re total r s k) eqn:E.
        -- exists r. split; [left; reflexivity | congruence].
        -- apply IH in H. destruct H as (r0 & I & H).
           exists r0. split; [right; exact I | exact H].
      * intros (r0 & [E | I] & H).
        -- subst r0. destruct (run_re total r s k); [discriminate | contradiction].
        -- destruct (run_re total r s k); [discriminate |].
           apply IH. eauto.
Qed.

Lemma search_iff total r : forall s acc,
  search total r acc s <> None
  <-> exists a b, s = a ++ b /\ match_here total r b <> None.
Proof.
  induction s as [| c s IH]; intro acc; cbn [search].
  - destruct (match_here total r []) eqn:E.
    + split; [| discriminate]. intros _. exists [], []. rewrite E.
      split; [reflexivity | discriminate].
    + split; [intro H; contradiction |].
      intros (a & b & H & M). destruct a; [| discriminate].
      simpl in H. subst b. contradiction.
  - destruct (match_here total r (c :: s)) eqn:E.
    + split; [| discriminate]. intros _. exists [], (c :: s). rewrite E.
      split; [reflexivity | discriminate].
    + rewrite IH. split.
      * intros (a & b & -> & M). exists (c :: a), b. auto.
      * intros (a & b & H & M). destruct a as [| x a].
        -- simpl in H. subst b. contradiction.
        -- injection H as -> ->. eauto.
Qed.

Lemma test_iff r s :
  test r s = true
  <-> exists a b, s = a ++ b /\ match_here (length s) r b <> None.
Proof.
  unfold test. rewrite <- (search_iff (length s) r s []).
  destruct (search (length s) r [] s); split; congruence.
Qed.

(** [/w.*/] and [/.*w/]: the text holds [w]. *)
Lemma test_word_then_anything w s :
  test (Seq (Str w) (Star Dot)) s = true <-> exists a b, s = a ++ w ++ b.
Proof.
  rewrite test_iff. unfold match_here. split.
  - intros (a & b & -> & M). rewrite run_re_Seq, run_re_Str in M.
    destruct (startsWith w b) eqn:E; [| contradiction].
    apply startsWith_iff in E. destruct E as [b' ->]. eauto.
  - intros (a & b & ->). exists a, (w ++ b). split; [reflexivity |].
    rewrite run_re_Seq, run_re_Str.
    replace (startsWith w (w ++ b)) with true
      by (symmetry; apply startsWith_iff; eauto).
    apply run_re_Star_skip. discriminate.
Qed.

Lemma test_anything_then_word w s :
  test (Seq (Star Dot) (Str w)) s = true <-> exists a b, s = a ++ w ++ b.
Proof.
  rewrite test_iff. unfold match_here. split.
  - intros (a & b & -> & M). rewrite run_re_Seq in M.
    destruct (run_re (length (a ++ b)) (Star Dot) b
                (fun s' => run_re (length (a ++ b)) (Str w) s' (fun e => Some e)))
      as [e |] eqn:E; [| contradiction].
    apply run_re_inv in E. destruct E as (pre & s' & -> & E).
    rewrite run_re_Str in E.
    destruct (startsWith w s') eqn:S; [| discriminate].
    apply startsWith_iff in S. destruct S as [b' ->].
    exists (a ++ pre), b'. rewrite <- app_assoc. reflexivity.
  - intros (a & b & ->). exists a, (w ++ b). split; [reflexivity |].
    rewrite run_re_Seq. apply run_re_Star_skip. rewrite run_re_Str.
    replace (startsWith w (w ++ b)) with true
      by (symmetry; apply startsWith_iff; eauto).
    discriminate.
Qed.

Lemma run_re_request_tail total (P : char16 -> bool) s :
  run_re total (Seq (Opt (Class P)) Eol) s (fun e => Some e) <> None
  <-> s = [] \/ exists c, s = [c] /\ P c = true.
Proof.
  destruct s as [| c [| c' s]]; simpl.
  - split; [auto | discriminate].
  - destruct (P c) eqn:E; simpl.
    + split; [intros _; right; eauto | discriminate].
    + split; [intro H; contradiction |].
      intros [H | (c0 & H & H')]; [discriminate |].
      injection H as <-. congruence.
  - destruct (P c); simpl;
      (split; [intro H; contradiction |]);
      intros [H | (c0 & H & _)]; discriminate.
Qed.

Lemma requestTails_iff t :
  In t (map utf16 requestTails)
  <-> t = [] \/ exists c, t = [c] /\ one_of "。?？" c = true.
Proof.
  split.
  - intros [<- | [<- | [<- | [<- | []]]]];
      [left; reflexivity | right ..]; eexists; split; reflexivity.
  - intros [-> | (c & -> & H)]; [left; reflexivity |].
    unfold one_of in H. apply existsb_exists in H.
    destruct H as (x & I & E). apply char_eqb_eq in E. subst x.
    destruct I as [<- | [<- | [<- | []]]]; simpl; auto.
Qed.

(** The last pattern of [looksLikeQuestion]: the text ends in a request
    ending, followed by at most one of [。?？]. *)
Lemma test_request_ending s :
  test (Seq (Star Dot)
         (Seq (Words politeEndings)
            (Seq (Opt (Class (one_of "。?？"))) Eol))) s = true
  <-> exists e t a,
      In e politeEndings /\ In t requestTails
      /\ s = a ++ utf16 e ++ utf16 t.
Proof.
  rewrite test_iff. unfold match_here. split.
  - intros (a & b & -> & M). rewrite run_re_Seq in M.
    match type of M with ?m <> None => destruct m as [e |] eqn:E end;
      [clear M | contradiction].
    apply run_re_inv in E. destruct E as (pre & s' & -> & E).
    assert (N : run_re (length (a ++ pre ++ s'))
                  (Seq (Words politeEndings)
                     (Seq (Opt (Class (one_of "。?？"))) Eol)) s'
                  (fun e => Some e) <> None) by congruence.
    clear E. rewrite run_re_Seq in N. unfold Words in N.
    apply run_re_AltL in N. destruct N as (r & I & N).
    apply in_map_iff in I. destruct I as (w & <- & I).
    unfold Lit in N. rewrite run_re_Str in N.
    destruct (startsWith (utf16 w) s') eqn:S; [| contradiction].
    apply startsWith_skipn in S. rewrite S.
    apply run_re_request_tail in N. apply requestTails_iff in N.
    apply in_map_iff in N. destruct N as (t & <- & T).
    exists w, t, (a ++ pre). rewrite <- !app_assoc. auto.
  - intros (w & t & a & I & T & ->).
    exists a, (utf16 w ++ utf16 t). split; [reflexivity |].
    rewrite run_re_Seq. apply run_re_Star_skip.
    rewrite run_re_Seq. unfold Words. apply run_re_AltL.
    exists (Lit w). split; [apply in_map, I |].
    unfold Lit. rewrite run_re_Str.
    replace (startsWith (utf16 w) (utf16 w ++ utf16 t)) with true
      by (symmetry; apply startsWith_iff; eauto).
    rewrite skipn_app, skipn_all, Nat.sub_diag. cbn [app skipn].
    apply run_re_request_tail. apply requestTails_iff. apply in_map, T.
Qed.

(** X4. [looksLikeQuestion] without the regular expressions: a text passes
    exactly when it holds one of the eighteen interrogatives and endings
    somewhere, or ends in one of the request endings, followed by at most
    one of [。?？]. *)
Theorem looksLikeQuestion_iff_marker_or_request :
  forall text : jsstring,
    looksLikeQuestion text = true
    <-> (exists w a b, In w questionMarkers /\ text = a ++ utf16 w ++ b)
        \/ (exists e t a,
               In e politeEndings /\ In t requestTails
               /\ text = a ++ utf16 e ++ utf16 t).
Proof.
  intro text. unfold looksLikeQuestion, questionPatterns.
  rewrite !existsb_app, !orb_true_iff.
  cbn [existsb]. rewrite orb_false_r, test_request_ending.
  rewrite !existsb_exists.
  assert (M : forall w, In w questionMarkers <->
             In w ["どう"; "どの"; "どこ"; "いつ"; "なぜ"; "なん"; "何";
                   "だれ"; "誰"; "どちら"; "どれ"; "いくら"; "いくつ"]%string
             \/ In w ["ですか"; "ますか"; "でしょうか"; "かしら"; "のか"]%string).
  { intro w. rewrite <- in_app_iff. reflexivity. }
  split.
  - intros [(r & I & T) | [(r & I & T) | H]]; [| | right; exact H]; left;
      apply in_map_iff in I; destruct I as (w & <- & I).
    + apply test_word_then_anything in T. destruct T as (a & b & ->).
      exists w, a, b. split; [apply M; left; exact I | reflexivity].
    + apply test_anything_then_word in T. destruct T as (a & b & ->).
      exists w, a, b. split; [apply M; right; exact I | reflexivity].
  - intros [(w & a & b & I & ->) | H]; [| right; right; exact H].
    apply M in I. destruct I as [I | I]; [left | right; left].
    + exists (Seq (Lit w) (Star Dot)). split.
      * apply (in_map (fun w => Seq (Lit w) (Star Dot))), I.
      * apply test_word_then_anything. eauto.
    + exists (Seq (Star Dot) (Lit w)). split.
      * apply (in_map (fun w => Seq (Star Dot) (Lit w))), I.
      * apply test_anything_then_word. eauto.
Qed.

(** X5. Step 2 of the refinement never drops a word: step 1 has removed every
    filler, and a word that is no filler is kept even when it repeats the
    one before. *)
Theorem deduplication_keeps_every_word :
  forall (words : list jsstring) (lastWord : jsstring),
    let cleanedWords :=
      filter (fun word => negb (fillerWords_has word)) words in
    deduplicate lastWord cleanedWords = cleanedWords.
Proof.
  intros words. cbv zeta.
  induction words as [| word words IH]; intro lastWord; [reflexivity |].
  cbn [filter]. destruct (fillerWords_has word) eqn:F; cbn [negb].
  - apply IH.
  - cbn [deduplicate]. rewrite F, orb_true_r, IH. reflexivity.
Qed.

(** ** [trim] once more *)

Lemma trimStart_head s c r : trimStart s = c :: r -> is_space c = false.
Proof.
  induction s as [| x s IH]; simpl; [discriminate |].
  destruct (is_space x) eqn:E; [exact IH |].
  intro H. injection H as <- <-. exact E.
Qed.

Lemma trimStart_fixed c r : is_space c = false -> trimStart (c :: r) = c :: r.
Proof. intro H. simpl. rewrite H. reflexivity. Qed.

Lemma trimEnd_last s a c : trimEnd s = a ++ [c] -> is_space c = false.
Proof.
  unfold trimEnd. intro H.
  assert (E : trimStart (rev s) = c :: rev a).
  { rewrite <- (rev_involutive (trimStart (rev s))), H, rev_app_distr.
    reflexivity. }
  apply trimStart_head in E. exact E.
Qed.

Lemma trimEnd_fixed a c : is_space c = false -> trimEnd (a ++ [c]) = a ++ [c].
Proof.
  intro H. unfold trimEnd. rewrite rev_app_distr. cbn [rev app].
  rewrite trimStart_fixed by exact H. cbn [rev].
  rewrite rev_involutive. reflexivity.
Qed.

Lemma trimStart_last a c :
  is_space c = false -> exists a', trimStart (a ++ [c]) = a' ++ [c].
Proof.
  intro H. induction a as [| x a [a' IH]]; simpl.
  - rewrite H. exists []. reflexivity.
  - destruct (is_space x).
    + exists a'. exact IH.
    + exists (x :: a). reflexivity.
Qed.

(** A text that ends in a character that is no white space loses nothing
    at its end. *)
Lemma trim_last a c :
  is_space c = false ->
  trim (a ++ [c]) = trimStart (a ++ [c])
  /\ exists a', trim (a ++ [c]) = a' ++ [c].
Proof.
  intro H. unfold trim. destruct (trimStart_last a c H) as [a' E].
  rewrite E, trimEnd_fixed by exact H. eauto.
Qed.

Lemma trim_ends s :
  trim s = [] \/ exists a c, trim s = a ++ [c] /\ is_space c = false.
Proof.
  destruct (trim s) as [| x r] eqn:E; [left; reflexivity | right].
  destruct (exists_last (l := x :: r)) as (a & c & L); [discriminate |].
  exists a, c. split; [exact L |].
  unfold trim in E. rewrite L in E. apply trimEnd_last in E. exact E.
Qed.

Lemma trim_starts s c r : trim s = c :: r -> is_space c = false.
Proof.
  unfold trim. intro H.
  destruct (trimEnd_prefix (trimStart s)) as [b Hb]. rewrite H in Hb.
  simpl in Hb. apply trimStart_head in Hb. exact Hb.
Qed.

Lemma trim_idempotent s : trim (trim s) = trim s.
Proof.
  destruct (trim_ends s) as [E | (a & c & E & H)]; rewrite E.
  - reflexivity.
  - destruct (trim_last a c H) as [T _]. rewrite T.
    destruct a as [| x a]; cbn [app].
    + apply trimStart_fixed, H.
    + apply trimStart_fixed. apply (trim_starts s x (a ++ [c])). exact E.
Qed.

Lemma trim_nil_inv a c : is_space c = false -> trim (a ++ [c]) <> [].
Proof.
  intros H E. destruct (trim_last a c H) as [_ [a' T]].
  rewrite E in T. destruct a'; discriminate.
Qed.

Lemma run_re_Star_Class_inv total (P : char16 -> bool) : forall s k e,
  run_re total (Star (Class P)) s k = Some e ->
  exists sp s', s = sp ++ s' /\ Forall (fun c => P c = true) sp /\ k s' = Some e.
Proof.
  intros s k e H. cbn [run_re] in H. revert H.
  generalize (length s) at 1. intro n. revert s.
  induction n as [| n IH]; intros s H.
  - exists [], s. auto.
  - destruct s as [| x s]; [exists [], []; auto |].
    destruct (P x) eqn:Px; [| exists [], (x :: s); auto].
    match type of H with
    | match (if ?c then _ else _) with _ => _ end = _ => destruct c
    end; [| exists [], (x :: s); auto].
    match type of H with
    | match ?m with _ => _ end = _ => destruct m eqn:E
    end; [| exists [], (x :: s); auto].
    injection H as ->. apply IH in E. destruct E as (sp & s' & -> & F & K).
    exists (x :: sp), s'. auto.
Qed.

Lemma run_re_Class total (P : char16 -> bool) s k :
  run_re total (Class P) s k
  = match s with
    | x :: s' => if P x then k s' else None
    | [] => None
    end.
Proof. reflexivity. Qed.

(** A match of the leading-preface pattern starts the text and ends in a
    white space. *)
Lemma leadingPrefacePattern_inv total s rest :
  match_here total leadingPrefacePattern s = Some rest ->
  length s = total
  /\ exists pre c, s = pre ++ [c] ++ rest /\ is_space c = true.
Proof.
  intro H. split; [apply (match_here_Bol _ _ _ _ H) |].
  unfold match_here, leadingPrefacePattern in H. rewrite run_re_Seq in H.
  cbn [run_re] in H.
  match type of H with
  | (if ?c then _ else _) = _ => destruct c; [| discriminate]
  end.
  apply run_re_inv in H. destruct H as (pre1 & s1 & -> & H).
  unfold Plus in H. rewrite run_re_Seq, run_re_Class in H.
  destruct s1 as [| x s1]; [discriminate |].
  destruct (is_space x) eqn:X; [| discriminate].
  apply run_re_Star_Class_inv in H. destruct H as (sp & s' & -> & F & K).
  injection K as ->.
  destruct (exists_last (l := x :: sp)) as (a & c & L); [discriminate |].
  exists (pre1 ++ a), c. split.
  - rewrite <- !app_assoc. cbn [app].
    change (x :: sp ++ rest) with ((x :: sp) ++ rest). rewrite L.
    rewrite <- app_assoc. reflexivity.
  - assert (I : In c (x :: sp)) by (rewrite L; apply in_or_app; right; left; reflexivity).
    destruct I as [<- | I]; [exact X |].
    rewrite Forall_forall in F. apply F, I.
Qed.

Lemma replace_leading_preface s :
  test leadingPrefacePattern s = true ->
  exists pre c,
    s = pre ++ [c] ++ replace leadingPrefacePattern [] s /\ is_space c = true.
Proof.
  unfold test, replace. intro T.
  destruct (search (length s) leadingPrefacePattern [] s)
    as [[before rest] |] eqn:E; [| discriminate].
  apply search_inv in E. destruct E as (skipped & s2 & -> & -> & E).
  apply leadingPrefacePattern_inv in E. destruct E as (L & pre & c & -> & S).
  rewrite !length_app in L. destruct skipped; [| simpl in L; lia].
  cbn [rev app]. exists pre, c. auto.
Qed.

Lemma strip_leading_preface_spec : forall (i : nat) (result : jsstring),
  (exists a c, result = a ++ [c] /\ is_space c = false) ->
  trim result = result ->
  (exists a c, strip_leading_preface i result = a ++ [c] /\ is_space c = false)
  /\ trim (strip_leading_preface i result) = strip_leading_preface i result
  /\ exists removed, result = removed ++ strip_leading_preface i result.
Proof.
  induction i as [| i IH]; intros result E T; cbn [strip_leading_preface].
  - split; [exact E |]. split; [exact T |]. exists []. reflexivity.
  - destruct (test leadingPrefacePattern result) eqn:M.
    2:{ split; [exact E |]. split; [exact T |]. exists []. reflexivity. }
    apply replace_leading_preface in M. destruct M as (pre & sp & R & S).
    destruct E as (a & c & E & C).
    set (rest := replace leadingPrefacePattern [] result) in *.
    assert (L : exists a', rest = a' ++ [c]).
    { destruct (exists_last (l := rest)) as (a' & c' & L).
      - intro Z. rewrite Z in R. rewrite R in E.
        cbn [app] in E.
        apply app_inj_tail in E. destruct E as [_ <-]. congruence.
      - exists a'. rewrite L in R. rewrite R in E. cbn [app] in E.
        replace (pre ++ sp :: a' ++ [c']) with ((pre ++ sp :: a') ++ [c']) in E
          by (rewrite <- app_assoc; reflexivity).
        apply app_inj_tail in E. destruct E as [_ <-]. exact L. }
    destruct L as [a' L].
    destruct (trim_last a' c C) as [T1 [a'' T2]]. rewrite <- L in T1, T2.
    destruct (IH (trim rest)) as (E' & T' & [removed S']).
    + exists a'', c. auto.
    + apply trim_idempotent.
    + split; [exact E' |]. split; [exact T' |].
      destruct (trimStart_suffix rest) as [b Hb].
      exists (pre ++ [sp] ++ b ++ removed).
      rewrite R at 1. rewrite Hb at 1. rewrite <- T1. rewrite S' at 1.
      rewrite <- !app_assoc. reflexivity.
Qed.

(** X6. [trimPreface] never erases a candidate: what it returns is the end of
    the trimmed text, it is trimmed itself, and it is empty only when the
    text is blank. *)
Theorem trimPreface_keeps_the_end_of_the_text :
  forall text : jsstring,
    (exists removed, trim text = removed ++ trimPreface text)
    /\ trim (trimPreface text) = trimPreface text
    /\ (trimPreface text = [] <-> trim text = []).
Proof.
  intro text. unfold trimPreface. cbv zeta.
  destruct (trim text) as [| x r] eqn:E; cbn [nonempty negb].
  - split; [exists []; reflexivity |]. split; [reflexivity | tauto].
  - rewrite <- E.
    destruct (existsb (fun p => test p (trim text)) keepTopicPatterns).
    + split; [exists []; reflexivity |].
      split; [apply trim_idempotent |]. tauto.
    + destruct (trim_ends text) as [Z | L]; [congruence |].
      destruct (strip_leading_preface_spec 3 (trim text) L (trim_idempotent text))
        as ((a & c & S & C) & T & R).
      split; [exact R |]. split; [exact T |].
      rewrite S, E. split; [intro H; destruct a; discriminate | discriminate].
Qed.

(** ** The candidates of [splitIntoQuestions] *)

Lemma in_order_In ps s : in_order ps s -> forall p, In p ps -> in_order [p] s.
Proof.
  intro H. induction H as [s | a p b ps H IH]; intros q I; [destruct I |].
  destruct I as [<- | I].
  - apply in_order_left, in_order_prefix.
  - apply in_order_left, in_order_left. apply IH, I.
Qed.

Lemma in_order_one_inv p s : in_order [p] s -> exists a b, s = a ++ p ++ b.
Proof. intro H. inversion H; subst. eauto. Qed.

Lemma in_order_Forall (P : char16 -> Prop) p s :
  in_order [p] s -> Forall P s -> Forall P p.
Proof.
  intros H F. apply in_order_one_inv in H. destruct H as (a & b & ->).
  apply Forall_app in F. destruct F as [_ F].
  apply Forall_app in F. destruct F as [F _]. exact F.
Qed.

Lemma split_loop_Forall total r (P : char16 -> Prop) :
  (forall c s, match_here total r (c :: s) = None -> P c) ->
  (forall s rest, match_here total r s = Some rest ->
                  (length rest < length s)%nat) ->
  forall s skip cur_rev,
    Forall P cur_rev ->
    Forall (Forall P) (split_loop total r skip cur_rev s).
Proof.
  intros H1 H2. induction s as [| c s IH]; intros skip cur_rev F.
  - simpl. constructor; [apply Forall_rev, F | constructor].
  - rewrite split_loop_cons. destruct skip as [| k]; [| apply IH; constructor].
    destruct (match_here total r (c :: s)) as [rest |] eqn:E.
    + apply H2 in E.
      destruct (length (c :: s) - length rest)%nat as [| k] eqn:D; [lia |].
      constructor; [apply Forall_rev, F | apply IH; constructor].
    + apply IH. constructor; [apply (H1 _ _ E) | exact F].
Qed.

Lemma re_sentence_miss total c s :
  match_here total re_sentence (c :: s) = None ->
  one_of "！？!。" c = false /\ c <> 0x0A%N.
Proof.
  unfold match_here, re_sentence, Plus. intro H.
  change (run_re total (Alt (Seq (Chr 10%N) (Star (Chr 10%N)))
                           (Class (one_of "！？!。"))) (c :: s)
                 (fun e => Some e))
    with (match (if char_eqb c 10%N
                 then run_re total (Star (Chr 10%N)) s (fun e => Some e)
                 else None) with
          | Some e => Some e
          | None => if one_of "！？!。" c then Some s else None
          end) in H.
  unfold char_eqb in H. destruct (N.eqb_spec c 10%N) as [-> | N].
  - destruct (run_re total (Star (Chr 10%N)) s (fun e => Some e)) eqn:E;
      [discriminate |].
    exfalso. revert E. apply run_re_Star_skip. discriminate.
  - destruct (one_of "！？!。" c); [discriminate | auto].
Qed.

Lemma re_sentence_consumes total s rest :
  match_here total re_sentence s = Some rest -> (length rest < length s)%nat.
Proof.
  unfold match_here, re_sentence, Plus. intro H.
  change (run_re total (Alt (Seq (Chr 10%N) (Star (Chr 10%N)))
                           (Class (one_of "！？!。"))) s (fun e => Some e))
    with (match run_re total (Seq (Chr 10%N) (Star (Chr 10%N))) s
                  (fun e => Some e) with
          | Some e => Some e
          | None => run_re total (Class (one_of "！？!。")) s (fun e => Some e)
          end) in H.
  destruct (run_re total (Seq (Chr 10%N) (Star (Chr 10%N))) s (fun e => Some e))
    as [e |] eqn:E.
  - injection H as ->. rewrite run_re_Seq in E.
    destruct s as [| x s]; [discriminate |].
    change (run_re total (Chr 10%N) (x :: s)
              (fun s' => run_re total (Star (Chr 10%N)) s' (fun e => Some e)))
      with (if char_eqb x 10%N
            then run_re total (Star (Chr 10%N)) s (fun e => Some e)
            else None) in E.
    destruct (char_eqb x 10%N); [| discriminate].
    apply run_re_inv in E. destruct E as (pre & s' & -> & E).
    injection E as ->. cbn [length]. rewrite length_app. lia.
  - rewrite run_re_Class in H. destruct s as [| x s]; [discriminate |].
    destruct (one_of "！？!。" x); [| discriminate].
    injection H as ->. cbn [length]. lia.
Qed.

Lemma split_re_sentence_Forall text :
  Forall (Forall (fun c => one_of "！？!。" c = false /\ c <> 0x0A%N))
         (split re_sentence text).
Proof.
  unfold split. destruct text as [| c s].
  - destruct (match_here 0 re_sentence []); repeat constructor.
  - apply split_loop_Forall.
    + apply re_sentence_miss.
    + apply re_sentence_consumes.
    + constructor.
Qed.

(** X7. Every candidate [splitIntoQuestions] gives is a part of the text (the
    candidates follow each other in it without overlap) that holds no
    sentence delimiter, so no full-width question mark either; it is
    trimmed, has two code units at least and one of the shapes of the last
    filter. *)
Theorem splitIntoQuestions_candidates_hold_no_delimiter :
  forall text : jsstring,
    in_order (splitIntoQuestions text) text
    /\ Forall (fun p =>
                 (exists a b, text = a ++ p ++ b)
                 /\ Forall (fun c => one_of "！？!。" c = false
                                     /\ c <> 0x0A%N) p
                 /\ trim p = p
                 /\ (2 <= length p)%nat
                 /\ question_shaped p = true)
              (splitIntoQuestions text).
Proof.
  intro text. split; [apply in_order_splitIntoQuestions |].
  apply Forall_forall. intros p I.
  split; [apply in_order_one_inv;
          apply (in_order_In _ _ (in_order_splitIntoQuestions text)), I |].
  unfold splitIntoQuestions in I.
  destruct (negb (nonempty text)); [destruct I |].
  apply filter_In in I. destruct I as [I Q].
  apply in_map_iff in I. destruct I as (q1 & <- & I).
  apply in_flat_map in I. destruct I as (q2 & I & I1).
  apply in_flat_map in I. destruct I as (q3 & I & I2).
  apply filter_In in I. destruct I as [I _].
  apply in_map_iff in I. destruct I as (q4 & <- & I).
  split; [| split; [| split]].
  - pose proof (split_re_sentence_Forall text) as F.
    rewrite Forall_forall in F. specialize (F q4 I).
    eapply in_order_Forall; [| exact F].
    eapply in_order_inside; [apply in_order_trim |].
    eapply in_order_inside;
      [apply (in_order_In _ _ (in_order_split_question_marks _)), I2 |].
    eapply in_order_inside;
      [apply (in_order_In _ _ (in_order_split_connectors _)), I1 |].
    apply in_order_strip_trailing_comma.
  - unfold strip_trailing_comma. apply trim_idempotent.
  - unfold question_shaped in Q. apply andb_true_iff in Q.
    destruct Q as [Q _]. apply Nat.leb_le in Q. exact Q.
  - exact Q.
Qed.

Open Scope Z_scope.

(** * The footprint of a step *)

Section FootprintOf.
Context {locale : Locale} {detector : QuestionDetector}.

Lemma effects_one o a b : effect o a b -> effects o a b.
Proof. intro H. eapply effects_then; [exact H | constructor]. Qed.

Lemma effects_trans o a b c : effects o a b -> effects o b c -> effects o a c.
Proof.
  intros H1 H2. induction H1 as [w | a b c' H H1 IH]; [exact H2 |].
  eapply effects_then; [exact H | apply IH, H2].
Qed.

Lemma effects_keep o (J : World -> Prop) :
  (forall a b, effect o a b -> J a -> J b) ->
  forall a b, effects o a b -> J a -> J b.
Proof.
  intros K a b H. induction H as [w | a b c H H1 IH]; [auto |].
  intro Ja. apply IH. apply (K a b H Ja).
Qed.

Lemma startListening_eq w :
  startListening w =
  if isListening (state (this w)) then (Returned tt, w)
  else (Returned tt, started w).
Proof.
  unfold startListening. unfold bind at 1. unfold get at 1.
  destruct (isListening (state (this w))); reflexivity.
Qed.

Lemma updateRecentAudioBuffer_eq text w :
  updateRecentAudioBuffer text w = (Returned tt, remembered text w).
Proof.
  unfold updateRecentAudioBuffer, remembered.
  destruct (negb (nonempty text) || (length (trim text) =? 0)%nat);
    [reflexivity |].
  unfold bind at 1. unfold update at 1.
  unfold bind at 1. unfold get at 1.
  cbn [this with_this recentAudioBuffer set_recentAudioBuffer].
  destruct (10 <? length (recentAudioBuffer (this w) ++ [toLowerCase text]))%nat;
    reflexivity.
Qed.

Section From.
Variable o : Origin.

Lemma fp_uuidv4 : sound (effects o) uuidv4.
Proof. intro w. apply effects_one, eff_uuid. Qed.

Lemma fp_await A t : may_park o t -> sound (effects o) (@await A t).
Proof. intros H w. apply effects_one. apply eff_parked, H. Qed.

Lemma fp_shouldCreateChunk :
  (exists audioData, o = from_call (call_processAudioChunk audioData)) ->
  sound (effects o) shouldCreateChunk.
Proof.
  intros H w. rewrite shouldCreateChunk_eq. apply effects_one.
  apply eff_hinted, H.
Qed.

Lemma fp_createAndProcessChunk caller :
  sound (effects o) (createAndProcessChunk caller).
Proof.
  intro w. rewrite createAndProcessChunk_eq.
  destruct (length (currentAudioData (this w)) =? 0)%nat eqn:E;
    [constructor |].
  rewrite transcribeChunk_eq.
  assert (N : currentAudioData (this w) <> []).
  { intro Z. rewrite Z in E. discriminate. }
  destruct (questionDetectionEnabled (config (this (drained w)))) eqn:Q;
    cbn [snd].
  - eapply effects_then; [apply eff_drained, N |].
    apply effects_one.
    apply (eff_transcribing o caller (next_chunk w) (drained w) Q).
    cbn [drained emitted]. rewrite chunks_of_app. apply in_or_app. right.
    left. reflexivity.
  - apply effects_one, eff_drained, N.
Qed.

Lemma fp_processAudioChunk_resume b :
  sound (effects o) (processAudioChunk_resume b).
Proof.
  unfold processAudioChunk_resume.
  apply sound_try_catch_quiet; [| quiet_tac].
  destruct b; cbn [when];
    [apply fp_createAndProcessChunk | intro w; constructor].
Qed.

Lemma fp_updateRecentAudioBuffer text :
  sound (effects o) (updateRecentAudioBuffer text).
Proof.
  intro w. rewrite updateRecentAudioBuffer_eq. apply effects_one, eff_remembered.
Qed.

Lemma fp_scan w :
  500 <= clock w - lastStreamingCheck (this w) ->
  effects o w (snd (scan w)).
Proof.
  intro H. rewrite scan_eq. cbv zeta.
  eapply effects_then; [apply eff_scanned, H |].
  destruct (hasStreamingQuestion (streamingBuffer (this w))); cbn [snd];
    [| constructor].
  eapply effects_trans; [| apply effects_one, eff_flushed].
  destruct (0 <? length (currentAudioData (this w)))%nat;
    [apply fp_createAndProcessChunk | constructor].
Qed.

Lemma fp_performStreamingQuestionDetection text :
  sound (effects o) (performStreamingQuestionDetection text).
Proof.
  intro w. rewrite performStreamingQuestionDetection_eq.
  destruct (clock w - lastStreamingCheck (this w) <? 500) eqn:E; cbn [snd].
  - apply effects_one, eff_fed.
  - eapply effects_then; [apply eff_fed |]. apply fp_scan.
    apply Z.ltb_ge in E. exact E.
Qed.

Lemma fp_questionPromise d tr part : sound (effects o) (questionPromise d tr part).
Proof.
  intro w. destruct (questionPromise_eq d tr part w) as (q & E & _).
  rewrite E. cbn [snd].
  assert (U : effects o w {| this := this w; emitted := emitted w;
                             pending := pending w; clock := clock w;
                             next_uuid := S (next_uuid w) |})
    by apply effects_one, eff_uuid.
  destruct q; [exact U |].
  destruct (negb _ || _); [constructor | exact U].
Qed.

Lemma fp_detectAndRefineQuestions caller tr :
  (exists chunk text,
      o = from_task (await_transcription caller chunk) (inr text)) ->
  sound (effects o) (detectAndRefineQuestions caller tr).
Proof.
  intro H. unfold detectAndRefineQuestions.
  apply sound_try_catch_quiet; [| quiet_tac].
  destruct (negb _ || _); [intro w; constructor |]. cbv zeta.
  destruct (length _ =? 0)%nat; [intro w; constructor |].
  apply (sound_bind _ (effects_trans o)).
  - apply (sound_map_M _ (effects_done o) (effects_trans o)).
    intro part. apply fp_questionPromise.
  - intro qs. apply fp_await. exact H.
Qed.

Lemma fp_log_questions caller questions answer :
  o = from_task (await_Promise_all caller questions) answer ->
  forall qs w,
    (forall q, In q qs -> In (Some q) questions) ->
    effects o w
      (snd (for_each qs (fun question =>
              update_state (fun s =>
                set_questionBuffer (questionBuffer s ++ [question]) s) ;;
              emit (question_detected question)) w)).
Proof.
  intro O. induction qs as [| q qs IH]; intros w I; [constructor |].
  cbn [for_each]. unfold bind at 1. unfold bind at 1.
  unfold update_state at 1. unfold update at 1.
  change (emit (question_detected q)) with (announce (question_detected q)).
  unfold announce at 1.
  eapply effects_then.
  - apply (eff_logged o caller questions answer q w O). apply I. left. reflexivity.
  - apply IH. intros q' I'. apply I. right. exact I'.
Qed.

Lemma not_null_In A (l : list (option A)) a : In a (not_null l) -> In (Some a) l.
Proof.
  unfold not_null. intro H. apply in_flat_map in H.
  destruct H as ([x |] & I & H); [| destruct H].
  destruct H as [<- | []]. exact I.
Qed.

Lemma fp_detectAndRefineQuestions_resume caller questions answer :
  o = from_task (await_Promise_all caller questions) answer ->
  sound (effects o) (detectAndRefineQuestions_resume questions).
Proof.
  intros O. unfold detectAndRefineQuestions_resume.
  apply sound_try_catch_quiet; [| quiet_tac]. cbv zeta.
  apply (sound_bind _ (effects_trans o)).
  - intro w. apply (fp_log_questions _ _ _ O). apply not_null_In.
  - intros _. destruct (0 <? length (not_null questions))%nat; cbn [when].
    + intro w. apply effects_one. apply (eff_announced o _ _ _ w O).
    + intro w. constructor.
Qed.

Lemma fp_finally t answer :
  o = from_task t answer -> (forall b, t <> await_shouldCreateChunk b) ->
  sound (effects o) (update_state (set_isProcessing false) ;; emit_state_changed).
Proof.
  intros O N w. apply effects_one. apply (eff_processed o t answer w O N).
Qed.

Lemma fp_transcribeChunk_try t answer body :
  o = from_task t answer -> (forall b, t <> await_shouldCreateChunk b) ->
  sound (effects o) body -> quiet body ->
  sound (effects o) (transcribeChunk_try body).
Proof.
  intros O N S Q. unfold transcribeChunk_try.
  apply (sound_try_finally _ (effects_trans o)).
  - apply sound_try_catch_quiet; assumption.
  - apply (fp_finally t answer O N).
Qed.

Lemma fp_transcribeChunk_settled caller chunk answer :
  o = from_task (await_transcription caller chunk) answer ->
  sound (effects o) (transcribeChunk_settled caller chunk answer).
Proof.
  intro O. unfold transcribeChunk_settled.
  assert (N : forall b, await_transcription caller chunk <> await_shouldCreateChunk b)
    by discriminate.
  destruct answer as [e | text].
  - unfold transcribeChunk_try.
    apply (sound_try_finally _ (effects_trans o));
      [| apply (fp_finally _ _ O N)].
    intro w. apply effects_one. apply (eff_failed o caller chunk e w O).
  - apply (fp_transcribeChunk_try _ _ _ O N); [| quiet_tac].
    intro w. rewrite bind_ret. revert w.
    apply (sound_bind _ (effects_trans o)); [apply fp_uuidv4 |].
    intro id. cbv zeta.
    apply (sound_bind _ (effects_trans o)).
    { intro w. apply effects_one.
      apply (eff_completed o caller chunk text _ w O); reflexivity. }
    intros _. apply (sound_bind _ (effects_trans o));
      [apply fp_updateRecentAudioBuffer |].
    intros _. apply (sound_bind _ (effects_trans o));
      [apply fp_performStreamingQuestionDetection |].
    intros _. cbn [tr_text].
    destruct (nonempty _); cbn [when]; [| apply (sound_ret _ (effects_done o))].
    apply (sound_bind _ (effects_trans o)).
    + apply fp_detectAndRefineQuestions. eauto.
    + intros _. apply fp_await. left. eauto.
Qed.

End From.

Lemma fp_resume t answer : sound (effects (from_task t answer)) (resume t answer).
Proof.
  apply sound_resume.
  destruct t as [b | caller chunk | caller questions | caller]; cbn [resumed].
  - apply fp_processAudioChunk_resume.
  - apply fp_transcribeChunk_settled. reflexivity.
  - apply (fp_transcribeChunk_try _ (await_Promise_all caller questions) answer);
      [reflexivity | discriminate | | quiet_tac].
    apply (sound_bind _ (effects_trans _)).
    + apply (fp_detectAndRefineQuestions_resume _ caller questions answer).
      reflexivity.
    + intros _. apply fp_await. right. eauto.
  - apply (fp_transcribeChunk_try _ (await_detectAndRefineQuestions caller) answer);
      [reflexivity | discriminate | | quiet_tac].
    apply (sound_ret _ (effects_done _)).
Qed.

(** Every step of the event loop is a sequence of effects. *)
Lemma step_footprint w s : effects (origin w s) (entry w s) (step w s).
Proof.
  unfold step. destruct s as [now c | now i answer]; cbn [run_stimulus origin entry].
  - destruct c as [| | audioData | | |]; cbn [run_call].
    + rewrite startListening_eq. cbn [this with_clock].
      destruct (isListening (state (this w))) eqn:L; cbn [snd];
        [constructor |].
      apply effects_one. apply eff_started; [reflexivity | exact L].
    + rewrite stopListening_eq. cbn [this with_clock].
      destruct (isListening (state (this w))) eqn:L; cbn [snd];
        [| constructor].
      apply effects_one. apply eff_stopped; [reflexivity | exact L].
    + destruct (isListening (state (this w))) eqn:L.
      * rewrite processAudioChunk_eq by exact L.
        match goal with
        | |- effects ?o _ (snd (?m ?x)) =>
          assert (S : sound (effects o) m); [| apply S]
        end.
        apply (sound_bind _ (effects_trans _)).
        -- apply fp_shouldCreateChunk. eauto.
        -- intro b. apply fp_await. cbn. eauto.
      * unfold processAudioChunk, bind, get. cbn [this with_clock].
        rewrite L. cbn. constructor.
    + apply effects_one. apply eff_cleared. reflexivity.
    + constructor.
    + constructor.
  - destruct (nth_error (pending w) i) as [t |]; [| constructor].
    apply fp_resume.
Qed.

Lemma run_invariant_where (ok : Stimulus -> Prop) (Inv : World -> Prop) :
  (forall w s, Inv w -> Inv (entry w s)) ->
  (forall w s a b, ok s -> effect (origin w s) a b -> Inv a -> Inv b) ->
  forall trace w, Forall ok trace -> Inv w -> Inv (run w trace).
Proof.
  intros He Hk. induction trace as [| s trace IH]; intros w F I; [exact I |].
  inversion F as [| s' trace' Hs Ft]; subst.
  cbn [run fold_left]. apply (IH _ Ft).
  apply (effects_keep (origin w s) Inv (fun a b => Hk w s a b Hs)
           _ _ (step_footprint w s)).
  apply He, I.
Qed.

Lemma run_invariant (Inv : World -> Prop) :
  (forall w s, Inv w -> Inv (entry w s)) ->
  (forall o a b, effect o a b -> Inv a -> Inv b) ->
  forall trace w, Inv w -> Inv (run w trace).
Proof.
  intros He Hk trace w. apply (run_invariant_where (fun _ => True)).
  - exact He.
  - intros w0 s a b _. apply Hk.
  - apply Forall_forall. auto.
Qed.

End FootprintOf.

(** * Invariants of a session *)

Section Invariants.
Context {locale : Locale} {detector : QuestionDetector}.

Lemma buffered_accumulated audioData w :
  buffered (this (accumulated audioData w))
  = buffered (this w) + Z.of_nat (length (to_Float32Array audioData)).
Proof.
  unfold accumulated, buffered.
  cbv [with_this this set_lastChunkTime set_state set_accumulatedSamples
       set_currentAudioData currentAudioData].
  rewrite concat_app, length_app. cbn [concat]. rewrite app_nil_r. lia.
Qed.

(** The cases of an effect, with the conditional ones opened. *)
Ltac effect_cases E :=
  destruct E;
  unfold hinted, remembered, fed, emit, unheard;
  repeat match goal with
         | |- context [if ?c then _ else _] => destruct c
         end.

Lemma transcriptions_of_app a b :
  transcriptions_of (a ++ b) = transcriptions_of a ++ transcriptions_of b.
Proof. apply flat_map_app. Qed.

(** X8. The sample counter never falls behind the accumulator: the duration
    the boundary policy works with is at least the duration of the audio
    that is held, and it is that duration as long as [stopListening] has
    not been called. *)
Theorem sample_counter_covers_the_accumulator :
  forall (cfg : AudioStreamConfig) (trace : list Stimulus),
    let w := run (new_World cfg) trace in
    0 <= buffered (this w) <= accumulatedSamples (this w)
    /\ (Forall (fun s => forall now, s <> invoke now call_stopListening) trace ->
        accumulatedSamples (this w) = buffered (this w)).
Proof.
  intros cfg trace w. subst w. split.
  - apply (run_invariant
             (fun w => 0 <= buffered (this w) <= accumulatedSamples (this w))).
    + intros w s I. destruct s as [now c | now i answer]; cbn [entry].
      * destruct c; try exact I.
        destruct (isListening (state (this w))); [| exact I].
        rewrite buffered_accumulated. unfold accumulated. cbn. cbn in I. lia.
      * destruct (nth_error (pending w) i); exact I.
    + intros o a b E I. unfold buffered in *.
      effect_cases E; cbn; cbn in I; lia.
    + unfold buffered. cbn. lia.
  - intro F.
    apply (run_invariant_where
             (fun s => forall now, s <> invoke now call_stopListening)
             (fun w => accumulatedSamples (this w) = buffered (this w)));
      [| | exact F | reflexivity].
    + intros w s I. destruct s as [now c | now i answer]; cbn [entry].
      * destruct c; try exact I.
        destruct (isListening (state (this w))); [| exact I].
        rewrite buffered_accumulated. unfold accumulated. cbn. cbn in I. lia.
      * destruct (nth_error (pending w) i); exact I.
    + intros w s a b Hs E I. unfold buffered in *.
      destruct E as [| a O L | | | | | | | | | | | | | | |]; subst;
        [| destruct s as [now c | now i answer]; cbn [origin] in O;
           [injection O as ->; exfalso; apply (Hs now); reflexivity
           | destruct (nth_error (pending w) i); discriminate] | ..];
        unfold hinted, remembered, fed, emit, unheard;
        repeat match goal with
               | |- context [if ?c then _ else _] => destruct c
               end;
        cbn; cbn in I; lia.
Qed.

(** X9. A chunk is announced with a word count of 0 and with the duration
    of its own samples at the configured rate, as [calculateDuration]
    computes it in double precision (samples / rate, rounded, times 1000,
    rounded; Infinity or NaN when the rate is 0): [wordCount] is never
    incremented, so it is 0 in every state and the word limit of the
    boundary policy is reached only when [maxWords] is not positive. *)
Theorem chunks_carry_their_own_duration_and_no_words :
  forall (cfg : AudioStreamConfig) (trace : list Stimulus),
    let w := run (new_World cfg) trace in
    config (this w) = cfg
    /\ wordCount (this w) = 0
    /\ (0 < maxWords cfg ->
        (maxWords (config (this w)) <=? wordCount (this w)) = false)
    /\ Forall (fun chunk =>
                 chunk_wordCount chunk = 0
                 /\ chunk_duration chunk
                    = milliseconds (Z.of_nat (length (chunk_data chunk)))
                                   (sampleRate cfg))
              (chunks_of (emitted w)).
Proof.
  intros cfg trace w. subst w.
  set (P := fun chunk =>
              chunk_wordCount chunk = 0
              /\ chunk_duration chunk
                 = milliseconds (Z.of_nat (length (chunk_data chunk)))
                                (sampleRate cfg)).
  assert (H : config (this (run (new_World cfg) trace)) = cfg
              /\ wordCount (this (run (new_World cfg) trace)) = 0
              /\ Forall P (chunks_of (emitted (run (new_World cfg) trace)))).
  { apply (run_invariant
             (fun w => config (this w) = cfg /\ wordCount (this w) = 0
                       /\ Forall P (chunks_of (emitted w)))).
    - intros w s I. destruct s as [now c | now i answer]; cbn [entry].
      + destruct c; try exact I.
        destruct (isListening (state (this w))); exact I.
      + destruct (nth_error (pending w) i); exact I.
    - intros o a b E (C & W & F).
      effect_cases E; cbn; rewrite ?chunks_of_app; cbn [chunks_of flat_map app];
        rewrite ?app_nil_r; repeat split; auto.
      apply Forall_app. split; [exact F |]. constructor; [| constructor].
      unfold P, next_chunk. cbn. rewrite C. auto.
    - cbn. auto. }
  destruct H as (C & W & F). repeat split; auto.
  intro M. rewrite C, W. apply Z.leb_gt. exact M.
Qed.

(** X10. The question log is what was announced since it was last cleared: it
    is always the end of the list of the questions announced, and it is
    that list when [clearQuestions] was never called. *)
Theorem question_log_is_what_was_announced :
  forall (cfg : AudioStreamConfig) (trace : list Stimulus),
    let w := run (new_World cfg) trace in
    (exists older,
        questions_of (emitted w) = older ++ questionBuffer (state (this w)))
    /\ (Forall (fun s => forall now, s <> invoke now call_clearQuestions) trace ->
        questionBuffer (state (this w)) = questions_of (emitted w)).
Proof.
  intros cfg trace w. subst w. split.
  - apply (run_invariant
             (fun w => exists older,
                  questions_of (emitted w)
                  = older ++ questionBuffer (state (this w)))).
    + intros w s I. destruct s as [now c | now i answer]; cbn [entry].
      * destruct c; try exact I.
        destruct (isListening (state (this w))); exact I.
      * destruct (nth_error (pending w) i); exact I.
    + intros o a b E [older I].
      effect_cases E; cbn; rewrite ?questions_of_app;
        cbn [questions_of flat_map app]; rewrite ?app_nil_r;
        try (exists older; exact I).
      * exists (questions_of (emitted w)). rewrite app_nil_r. reflexivity.
      * exists older. rewrite I, app_assoc. reflexivity.
    + exists []. reflexivity.
  - intro F.
    apply (run_invariant_where
             (fun s => forall now, s <> invoke now call_clearQuestions)
             (fun w => questionBuffer (state (this w))
                       = questions_of (emitted w)));
      [| | exact F | reflexivity].
    + intros w s I. destruct s as [now c | now i answer]; cbn [entry].
      * destruct c; try exact I.
        destruct (isListening (state (this w))); exact I.
      * destruct (nth_error (pending w) i); exact I.
    + intros w s a b Hs E I.
      destruct E as [| | a O | | | | | | | | | | | | | |]; subst;
        [| | destruct s as [now c | now i answer]; cbn [origin] in O;
             [injection O as ->; exfalso; apply (Hs now); reflexivity
             | destruct (nth_error (pending w) i); discriminate] | ..];
        unfold hinted, remembered, fed, emit, unheard;
        repeat match goal with
               | |- context [if ?c then _ else _] => destruct c
               end;
        cbn; rewrite ?questions_of_app; cbn [questions_of flat_map app];
        rewrite ?app_nil_r; try exact I.
      rewrite I. reflexivity.
Qed.

(** X11. The recent transcripts kept for the question hint: a blank text is
    not kept, any other text is added in lower case at the end, and the
    oldest entry is dropped when that makes eleven; so the buffer never
    holds more than ten entries. *)
Theorem recent_transcripts_are_the_last_ten :
  (forall (text : jsstring) (w : World),
      let recent := recentAudioBuffer (this w) in
      let w' := snd (updateRecentAudioBuffer text w) in
      fst (updateRecentAudioBuffer text w) = Returned tt
      /\ (trim text = [] -> w' = w)
      /\ (trim text <> [] ->
          (length recent < 10)%nat ->
          recentAudioBuffer (this w') = recent ++ [toLowerCase text])
      /\ (trim text <> [] ->
          (length recent = 10)%nat ->
          recentAudioBuffer (this w') = tl recent ++ [toLowerCase text])
      /\ ((length recent <= 10)%nat ->
          (length (recentAudioBuffer (this w')) <= 10)%nat))
  /\ (forall (cfg : AudioStreamConfig) (trace : list Stimulus),
        (length (recentAudioBuffer (this (run (new_World cfg) trace))) <= 10)%nat).
Proof.
  assert (K : forall text w,
             (length (recentAudioBuffer (this w)) <= 10)%nat ->
             (length (recentAudioBuffer (this (remembered text w))) <= 10)%nat).
  { intros text w L. unfold remembered.
    destruct (negb (nonempty text) || (length (trim text) =? 0)%nat);
      [exact L |].
    cbn [this with_this recentAudioBuffer set_recentAudioBuffer].
    match goal with
    | |- context [if ?c then _ else _] => destruct c eqn:E
    end; [| apply Nat.ltb_ge in E; exact E].
    destruct (recentAudioBuffer (this w)); cbn in *; [lia |].
    rewrite length_app. cbn. lia. }
  split.
  - intros text w recent w'. subst w'. rewrite updateRecentAudioBuffer_eq.
    cbn [fst snd]. split; [reflexivity |].
    assert (B : trim text = [] ->
                negb (nonempty text) || (length (trim text) =? 0)%nat = true).
    { intros ->. apply orb_true_r. }
    assert (N : trim text <> [] ->
                negb (nonempty text) || (length (trim text) =? 0)%nat = false).
    { intro H. destruct text as [| c t]; [exfalso; apply H; reflexivity |].
      destruct (trim (c :: t)); [congruence | reflexivity]. }
    split; [| split; [| split]].
    + intro H. unfold remembered. rewrite (B H). reflexivity.
    + intros H L. unfold remembered. rewrite (N H).
      cbn [this with_this recentAudioBuffer set_recentAudioBuffer].
      fold recent.
      replace (10 <? length (recent ++ [toLowerCase text]))%nat with false
        by (symmetry; apply Nat.ltb_ge; rewrite length_app; cbn [length]; lia).
      reflexivity.
    + intros H L. unfold remembered. rewrite (N H).
      cbn [this with_this recentAudioBuffer set_recentAudioBuffer].
      fold recent.
      replace (10 <? length (recent ++ [toLowerCase text]))%nat with true
        by (symmetry; apply Nat.ltb_lt; rewrite length_app; cbn [length]; lia).
      destruct recent; [discriminate | reflexivity].
    + apply K.
  - intros cfg trace.
    apply (run_invariant
             (fun w => (length (recentAudioBuffer (this w)) <= 10)%nat)).
    + intros w s I. destruct s as [now c | now i answer]; cbn [entry].
      * destruct c; try exact I.
        destruct (isListening (state (this w))); exact I.
      * destruct (nth_error (pending w) i); exact I.
    + intros o a b E I.
      destruct E; subst; try exact I; try (apply K; exact I);
      unfold hinted, emit, unheard; repeat match goal with
                            | |- context [if ?c then _ else _] => destruct c
                            end; exact I.
    + cbn. lia.
Qed.

(** X12. Only [startListening] and [stopListening] change the listening flag:
    no other call and no resumed call does, whatever the service answers. *)
Theorem listening_changes_only_by_start_and_stop :
  forall (w : World) (s : Stimulus),
    isListening (state (this (step w s)))
    = match s with
      | invoke _ call_startListening => true
      | invoke _ call_stopListening => false
      | _ => isListening (state (this w))
      end.
Proof.
  intros w s.
  assert (G : (forall now, s <> invoke now call_startListening) ->
              (forall now, s <> invoke now call_stopListening) ->
              isListening (state (this (step w s)))
              = isListening (state (this w))).
  { intros N1 N2.
    apply (effects_keep (origin w s)
             (fun a => isListening (state (this a))
                       = isListening (state (this w)))
             ) with (a := entry w s); [| apply step_footprint |].
    - intros a b E I.
      destruct E as [a O | a O | | | | | | | | | | | | | | |];
        try (destruct s as [now c | now i answer]; cbn [origin] in O;
             [injection O as ->; exfalso;
              first [apply (N1 now); reflexivity | apply (N2 now); reflexivity]
             | destruct (nth_error (pending w) i); discriminate]);
        unfold hinted, remembered, fed, emit, unheard;
        repeat match goal with
               | |- context [if ?c then _ else _] => destruct c
               end;
        exact I.
    - destruct s as [now c | now i answer]; cbn [entry].
      + destruct c; try reflexivity.
        destruct (isListening (state (this w))) eqn:L; cbn; auto.
      + destruct (nth_error (pending w) i); reflexivity. }
  destruct s as [now c | now i answer]; [| apply G; discriminate].
  destruct c; try (apply G; discriminate).
  - unfold step. cbn [run_stimulus run_call]. rewrite startListening_eq.
    cbn [this with_clock].
    destruct (isListening (state (this w))) eqn:L; cbn; auto.
  - unfold step. cbn [run_stimulus run_call]. rewrite stopListening_eq.
    cbn [this with_clock].
    destruct (isListening (state (this w))) eqn:L; cbn; auto.
Qed.

(** X13. While the processor is idle nothing is cut: the accumulator of an
    idle processor is empty, and whatever happens next (a call, or a
    suspended call that is resumed) announces no chunk and leaves the
    accumulator empty. *)
Theorem idle_processor_cuts_no_chunk :
  forall (cfg : AudioStreamConfig) (trace : list Stimulus) (s : Stimulus),
    let w := run (new_World cfg) trace in
    isListening (state (this w)) = false ->
    currentAudioData (this w) = []
    /\ chunks_of (emitted (step w s)) = chunks_of (emitted w)
    /\ currentAudioData (this (step w s)) = [].
Proof.
  intros cfg trace s w L.
  assert (A : currentAudioData (this w) = []).
  { destruct (run_conserves trace (new_World cfg)) as [_ I].
    apply I; [intro; reflexivity | exact L]. }
  split; [exact A |].
  assert (J : currentAudioData (this (step w s)) = []
              /\ chunks_of (emitted (step w s)) = chunks_of (emitted w)).
  { apply (effects_keep (origin w s)
             (fun a => currentAudioData (this a) = []
                       /\ chunks_of (emitted a) = chunks_of (emitted w))
             ) with (a := entry w s); [| apply step_footprint |].
    - intros a b E [I1 I2].
      effect_cases E; cbn; rewrite ?chunks_of_app;
        cbn [chunks_of flat_map app]; rewrite ?app_nil_r; auto.
      contradiction.
    - destruct s as [now c | now i answer]; cbn [entry].
      + destruct c; auto. rewrite L. auto.
      + destruct (nth_error (pending w) i); auto. }
  destruct J as [J1 J2]. auto.
Qed.

Lemma remove_nth_In A (l : list A) : forall i x,
  In x (remove_nth i l) -> In x l.
Proof.
  induction l as [| y l IH]; intros i x H; destruct i; simpl in *; auto.
  destruct H as [H | H]; [auto | right; apply (IH _ _ H)].
Qed.

Lemma remove_nth_Forall A (P : A -> Prop) (l : list A) i :
  Forall P l -> Forall P (remove_nth i l).
Proof.
  rewrite !Forall_forall. intros H x I. apply H, (remove_nth_In _ _ _ _ I).
Qed.

Lemma errors_of_app a b : errors_of (a ++ b) = errors_of a ++ errors_of b.
Proof. apply flat_map_app. Qed.

(** X14. With question detection switched off the processor still cuts chunks
    but never asks for a transcription: the processing flag stays false,
    the only calls ever suspended are those that wait for the boundary
    decision, and no transcription, question or error is announced. *)
Theorem detection_off_never_transcribes :
  forall (cfg : AudioStreamConfig) (trace : list Stimulus),
    questionDetectionEnabled cfg = false ->
    let w := run (new_World cfg) trace in
    isProcessing (state (this w)) = false
    /\ Forall (fun t => exists b, t = await_shouldCreateChunk b) (pending w)
    /\ transcriptions_of (emitted w) = []
    /\ questions_of (emitted w) = []
    /\ errors_of (emitted w) = [].
Proof.
  intros cfg trace Q w. subst w.
  set (Inv := fun w : World =>
         questionDetectionEnabled (config (this w)) = false
         /\ isProcessing (state (this w)) = false
         /\ Forall (fun t => exists b, t = await_shouldCreateChunk b) (pending w)
         /\ transcriptions_of (emitted w) = []
         /\ questions_of (emitted w) = []
         /\ errors_of (emitted w) = []).
  assert (H : Inv (run (new_World cfg) trace)).
  2:{ destruct H as (_ & H). exact H. }
  assert (I0 : Inv (new_World cfg)) by (unfold Inv; cbn; repeat split; auto).
  revert I0. generalize (new_World cfg). clear Q.
  induction trace as [| s trace IH]; intros w I; [exact I |].
  cbn [run fold_left]. apply IH.
  assert (O : match origin w s with
              | from_task (await_shouldCreateChunk _) _ => True
              | from_task _ _ => False
              | _ => True
              end).
  { destruct s as [now c | now i answer]; cbn [origin]; [exact Logic.I |].
    destruct (nth_error (pending w) i) as [t |] eqn:E; [| exact Logic.I].
    destruct I as (_ & _ & F & _). rewrite Forall_forall in F.
    destruct (F t (nth_error_In _ _ E)) as [b ->]. exact Logic.I. }
  apply (effects_keep (origin w s) Inv) with (a := entry w s);
    [| apply step_footprint |].
  - revert O. generalize (origin w s). clear. intros o O a b E I.
    destruct I as (I1 & I2 & I3 & I4 & I5 & I6). unfold Inv.
    destruct E as [| | | | t a P | | caller chunk a En | | caller chunk text result a Or
                   | caller chunk e a Or | | | | | caller qs answer q a Or
                   | caller qs answer a Or | ];
      try (rewrite Or in O; contradiction);
      try congruence;
      unfold hinted, remembered, fed, emit, unheard;
      repeat match goal with
             | |- context [if ?c then _ else _] => destruct c
             end;
      cbn; rewrite ?transcriptions_of_app, ?questions_of_app, ?errors_of_app;
      cbn [transcriptions_of questions_of errors_of flat_map app];
      rewrite ?app_nil_r; repeat split; auto.
    apply Forall_app. split; [exact I3 |]. constructor; [| constructor].
    destruct t as [b | | caller qs | caller]; cbn in P.
    + eauto.
    + contradiction.
    + destruct P as (chunk & text & ->). contradiction.
    + destruct P as [(chunk & text & ->) | (qs & answer & ->)]; contradiction.
  - destruct I as (I1 & I2 & I3 & I4 & I5 & I6). unfold Inv.
    destruct s as [now c | now i answer]; cbn [entry].
    + destruct c; try destruct (isListening (state (this w)));
        cbn; repeat split; auto.
    + destruct (nth_error (pending w) i); cbn; repeat split; auto.
      apply remove_nth_Forall, I3.
Qed.

Lemma app_one_inv A (l pre post : list A) (e x : A) :
  l ++ [e] = pre ++ x :: post ->
  (post = [] /\ pre = l /\ x = e)
  \/ exists post', post = post' ++ [e] /\ l = pre ++ x :: post'.
Proof.
  intro H. destruct (exists_last (l := x :: post)) as (m & y & L);
    [discriminate |].
  destruct post as [| z post].
  - left. apply app_inj_tail in H. destruct H as [-> ->]. auto.
  - right. destruct (exists_last (l := z :: post)) as (post' & y' & L');
      [discriminate |].
    rewrite L' in H. exists post'.
    replace (pre ++ x :: post' ++ [y']) with ((pre ++ x :: post') ++ [y']) in H
      by (rewrite <- app_assoc; reflexivity).
    apply app_inj_tail in H. destruct H as [-> ->]. auto.
Qed.

(** X15. Every transcription that is announced answers a chunk that was
    announced before it: it carries the id and the time stamp of that
    chunk. *)
Theorem transcription_answers_an_earlier_chunk :
  forall (cfg : AudioStreamConfig) (trace : list Stimulus)
         (before after : list Event) (result : TranscriptionResult),
    emitted (run (new_World cfg) trace)
    = before ++ transcription_completed result :: after ->
    exists chunk,
      In chunk (chunks_of before)
      /\ tr_originalChunkId result = chunk_id chunk
      /\ tr_timestamp result = chunk_timestamp chunk.
Proof.
  intros cfg trace.
  set (answered := fun events : list Event =>
         forall before after result,
           events = before ++ transcription_completed result :: after ->
           exists chunk,
             In chunk (chunks_of before)
             /\ tr_originalChunkId result = chunk_id chunk
             /\ tr_timestamp result = chunk_timestamp chunk).
  set (Inv := fun w : World =>
         answered (emitted w)
         /\ forall caller chunk,
             In (await_transcription caller chunk) (pending w) ->
             In chunk (chunks_of (emitted w))).
  assert (G : forall l e,
             answered l ->
             (forall r, e <> transcription_completed r) ->
             answered (l ++ [e])).
  { intros l e A N before after result H.
    apply app_one_inv in H. destruct H as [(_ & _ & H) | (post' & _ & H)].
    - exfalso. apply (N result). symmetry. exact H.
    - apply (A _ _ _ H). }
  assert (H : Inv (run (new_World cfg) trace)).
  2:{ intros before after result E. destruct H as [H _]. apply (H _ _ _ E). }
  assert (I0 : Inv (new_World cfg)).
  { split.
    - intros before after result E. destruct before; discriminate.
    - intros caller chunk []. }
  revert I0. generalize (new_World cfg).
  induction trace as [| s trace IH]; intros w I; [exact I |].
  cbn [run fold_left]. apply IH.
  set (J := fun a : World =>
         Inv a
         /\ forall caller chunk answer,
             origin w s = from_task (await_transcription caller chunk) answer ->
             In chunk (chunks_of (emitted a))).
  assert (Jstep : J (step w s)).
  2:{ destruct Jstep as [Jstep _]. exact Jstep. }
  apply (effects_keep (origin w s) J) with (a := entry w s);
    [| apply step_footprint |].
  - intros a b E [[A P] C]. unfold J, Inv.
    assert (M : forall e, (forall r, e <> transcription_completed r) ->
                (answered (emitted a ++ [e])
                 /\ forall caller chunk,
                     In (await_transcription caller chunk) (pending a) ->
                     In chunk (chunks_of (emitted a ++ [e])))
                /\ forall caller chunk answer,
                    origin w s
                    = from_task (await_transcription caller chunk) answer ->
                    In chunk (chunks_of (emitted a ++ [e]))).
    { intros e N. repeat split.
      - apply G; assumption.
      - intros caller chunk H. rewrite chunks_of_app. apply in_or_app. left.
        apply (P _ _ H).
      - intros caller chunk answer H. rewrite chunks_of_app.
        apply in_or_app. left. apply (C _ _ _ H). }
    destruct E as [a | a | a | a | t a Pk | a | caller chunk a En Ic | a
                   | caller chunk text result a Or Tx Ts Id
                   | caller chunk e a Or | text a | text a | a | a
                   | caller qs answer q a Or Iq
                   | caller qs answer a Or | t answer a Or Nb ];
      try (apply M; discriminate);
      try (unfold emit, unheard;
           destruct (errorListeners (this a) =? 0)%nat;
           [repeat split; assumption | apply M; discriminate]).
    + unfold hinted.
      repeat match goal with
             | |- context [if ?c then _ else _] => destruct c
             end; repeat split; assumption.
    + repeat split; try assumption. cbn [pending with_pending].
      intros caller chunk H. apply in_app_or in H.
      destruct H as [H | [-> | []]]; [apply (P _ _ H) | contradiction].
    + destruct (M (state_changed (set_isProcessing true (state (this a)))))
        as [[M1 M2] M3]; [discriminate |].
      repeat split; try assumption. cbn [pending transcribing].
      intros caller' chunk' H. apply in_app_or in H.
      destruct H as [H | [H | []]]; [apply (M2 _ _ H) |].
      injection H as <- <-. cbn [emitted transcribing].
      rewrite chunks_of_app. apply in_or_app. left. exact Ic.
    + repeat split; assumption.
    + cbn [snd emit unheard announce emitted this pending]. repeat split.
      * intros before after r H. apply app_one_inv in H.
        destruct H as [(_ & -> & H) | (post' & _ & H)]; [| apply (A _ _ _ H)].
        injection H as ->. exists chunk. split; [apply (C _ _ _ Or) |].
        auto.
      * intros caller' chunk' H. rewrite chunks_of_app. apply in_or_app.
        left. apply (P _ _ H).
      * intros caller' chunk' answer' H. rewrite chunks_of_app.
        apply in_or_app. left. apply (C _ _ _ H).
    + unfold remembered.
      repeat match goal with
             | |- context [if ?c then _ else _] => destruct c
             end; repeat split; assumption.
    + repeat split; assumption.
    + repeat split; assumption.
    + repeat split; assumption.
  - destruct I as [A P]. unfold J, Inv.
    assert (E : emitted (entry w s) = emitted w).
    { destruct s as [now c | now i answer]; cbn [entry].
      - destruct c; try reflexivity.
        destruct (isListening (state (this w))); reflexivity.
      - destruct (nth_error (pending w) i); reflexivity. }
    rewrite E. repeat split.
    + exact A.
    + intros caller chunk H. apply (P caller chunk).
      destruct s as [now c | now i answer]; cbn [entry] in H.
      * destruct c; try exact H.
        destruct (isListening (state (this w))); exact H.
      * destruct (nth_error (pending w) i); [| exact H].
        cbn in H. apply (remove_nth_In _ _ _ _ H).
    + intros caller chunk answer H.
      destruct s as [now c | now i answer']; cbn [origin] in H;
        [discriminate |].
      destruct (nth_error (pending w) i) as [t |] eqn:N; [| discriminate].
      injection H as -> _. apply (P caller chunk), (nth_error_In _ _ N).
Qed.

End Invariants.

(** ** The properties with a premise, on small sessions *)

(** X3 at a file for two samples at 16 kHz. *)
Lemma chunk_file_witness :
  0 <= 16000
  /\ 16000 * 2 < 2 ^ 32
  /\ 36 + 2 * Z.of_nat (length (to_Float32Array [x01; x00; xff; xff])) < 2 ^ 32
  /\ exists pcmBuffer file : Buffer,
      to_pcmBuffer (to_Float32Array [x01; x00; xff; xff]) = Some pcmBuffer
      /\ wavFile 16000 pcmBuffer = Some file
      /\ length file = (44 + 2 * length (to_Float32Array [x01; x00; xff; xff]))%nat
      /\ readUIntLE 4 40 file
         = 2 * Z.of_nat (length (to_Float32Array [x01; x00; xff; xff]))
      /\ to_Float32Array (skipn 44 file)
         = map (fun v => if 0 <? v then v - 1 else v)
               (to_Float32Array [x01; x00; xff; xff]).
Proof.
  assert (H1 : 0 <= 16000) by (vm_compute; discriminate).
  assert (H2 : 16000 * 2 < 2 ^ 32) by (vm_compute; reflexivity).
  assert (H3 : 36 + 2 * Z.of_nat (length (to_Float32Array [x01; x00; xff; xff]))
               < 2 ^ 32) by (vm_compute; reflexivity).
  split; [exact H1 |]. split; [exact H2 |]. split; [exact H3 |].
  exact (chunk_file_holds_the_requantised_samples
           16000 [x01; x00; xff; xff] H1 H2 H3).
Defined.

(** X13 at a processor that was stopped, and a batch handed to it. *)
Lemma idle_processor_witness :
  isListening
    (state (this (run (locale := latin) (detector := plain_detector)
                      (new_World defaultConfig) stale_counter_trace))) = false
  /\ chunks_of
       (emitted
          (step (locale := latin) (detector := plain_detector)
                (run (locale := latin) (detector := plain_detector)
                     (new_World defaultConfig) stale_counter_trace)
                (invoke (t0 + 30) (call_processAudioChunk (silence 5)))))
     = chunks_of
         (emitted (run (locale := latin) (detector := plain_detector)
                       (new_World defaultConfig) stale_counter_trace)).
Proof.
  assert (H : isListening
                (state (this (run (locale := latin) (detector := plain_detector)
                                  (new_World defaultConfig) stale_counter_trace)))
              = false) by (vm_compute; reflexivity).
  split; [exact H |].
  exact (proj1 (proj2 (idle_processor_cuts_no_chunk
                         (locale := latin) (detector := plain_detector)
                         defaultConfig stale_counter_trace
                         (invoke (t0 + 30) (call_processAudioChunk (silence 5)))
                         H))).
Defined.

(** X14 at two batches four seconds apart with detection switched off: the
    chunk is cut and nothing is asked of the service. *)
Lemma detection_off_witness :
  questionDetectionEnabled detection_off = false
  /\ isProcessing
       (state (this (run (locale := latin) (detector := plain_detector)
                         (new_World detection_off) (transcript_trace "はい"))))
     = false
  /\ transcriptions_of
       (emitted (run (locale := latin) (detector := plain_detector)
                     (new_World detection_off) (transcript_trace "はい")))
     = [].
Proof.
  assert (H : questionDetectionEnabled detection_off = false) by reflexivity.
  split; [exact H |].
  destruct (detection_off_never_transcribes
              (locale := latin) (detector := plain_detector)
              detection_off (transcript_trace "はい") H)
    as (P & _ & T & _).
  split; [exact P | exact T].
Defined.

(** X15 at the transcription of the session that is answered "はい". *)
Lemma transcription_answers_witness :
  emitted (run (locale := latin) (detector := plain_detector)
               (new_World defaultConfig) (transcript_trace "はい"))
  = firstn 3 (emitted (run (locale := latin) (detector := plain_detector)
                   (new_World defaultConfig) (transcript_trace "はい")))
    ++ transcription_completed first_transcription
    :: skipn 4 (emitted (run (locale := latin) (detector := plain_detector)
                   (new_World defaultConfig) (transcript_trace "はい")))
  /\ exists chunk,
      In chunk (chunks_of (firstn 3 (emitted (run (locale := latin) (detector := plain_detector)
                   (new_World defaultConfig) (transcript_trace "はい")))))
      /\ tr_originalChunkId first_transcription = chunk_id chunk
      /\ tr_timestamp first_transcription = chunk_timestamp chunk.
Proof.
  assert (H : emitted (run (locale := latin) (detector := plain_detector)
               (new_World defaultConfig) (transcript_trace "はい"))
              = firstn 3 (emitted (run (locale := latin) (detector := plain_detector)
                   (new_World defaultConfig) (transcript_trace "はい")))
                ++ transcription_completed first_transcription
                :: skipn 4 (emitted (run (locale := latin) (detector := plain_detector)
                   (new_World defaultConfig) (transcript_trace "はい"))))
    by (vm_compute; reflexivity).
  split; [exact H |].
  exact (transcription_answers_an_earlier_chunk
           (locale := latin) (detector := plain_detector)
           defaultConfig (transcript_trace "はい") _ _ _ H).
Defined.

(** * A blank transcript *)

Section Blank.
Context {locale : Locale} {detector : QuestionDetector}.

Lemma scan_returns w : fst (scan w) = Returned tt.
Proof.
  unfold scan, bind, Date_now, update, get, when, detached, ret. cbn.
  repeat match goal with
         | |- context [if ?b then _ else _] => destruct b; cbn
         end; reflexivity.
Qed.

Lemma performStreamingQuestionDetection_returns text w :
  fst (performStreamingQuestionDetection text w) = Returned tt.
Proof.
  rewrite performStreamingQuestionDetection_eq.
  destruct (clock w - lastStreamingCheck (this w) <? 500)%Z;
    [reflexivity | apply scan_returns].
Qed.

Lemma transcribeChunk_blank_eq caller chunk text w :
  trim (match text with Some t => t | None => [] end) = [] ->
  transcribeChunk_settled caller chunk (inr text) w
  = (Returned tt,
     processed
       (snd (performStreamingQuestionDetection
               (match text with Some t => t | None => [] end)
               (snd (announce
                       (transcription_completed
                          {| tr_id := next_uuid w;
                             tr_text := match text with
                                        | Some t => t
                                        | None => []
                                        end;
                             tr_timestamp := chunk_timestamp chunk;
                             tr_confidence := 1;
                             tr_isQuestion := false;
                             tr_originalChunkId := chunk_id chunk |})
                       (snd (uuidv4 w))))))).
Proof.
  intro B.
  set (t := match text with Some t => t | None => [] end) in *.
  unfold transcribeChunk_settled, transcribeChunk_try.
  unfold try_finally, try_catch. rewrite bind_ret.
  unfold bind at 1. unfold uuidv4 at 1.
  unfold bind at 1. unfold emit at 1. cbn [unheard]. unfold announce at 1.
  unfold bind at 1. rewrite updateRecentAudioBuffer_eq.
  cbn [tr_text]. fold t. unfold remembered.
  replace (negb (nonempty t) || (length (trim t) =? 0)%nat) with true
    by (rewrite B; symmetry; apply orb_true_r).
  unfold bind at 1.
  match goal with
  | |- context [performStreamingQuestionDetection t ?x] => set (w1 := x)
  end.
  change (snd (announce _ (snd (uuidv4 w)))) with w1.
  pose proof (performStreamingQuestionDetection_returns t w1) as P.
  destruct (performStreamingQuestionDetection t w1) as [c w2].
  cbn [fst snd] in *. subst c.
  rewrite B. cbn [nonempty when ret]. reflexivity.
Qed.

(** X16. A transcription that comes back blank (no text, or white space
    only) raises no question, but it is not dropped: it is announced, and
    a space and the blank text are added to the streaming buffer before
    the text is tested. When 500 ms have passed since the last scan the
    buffer is scanned, and when it holds a question pattern it is emptied
    and the audio that is held, if any, is cut into a chunk; with
    detection enabled a new request is sent for it. The step ends
    normally with the processing flag false, also when it has just sent
    that request. Nothing else happens: no question and no error is
    announced, and the question log, the recent transcripts and the
    listening flag are left as they were. *)
Theorem blank_transcript_only_feeds_the_streaming_scan :
  forall (w : World) (now : Z) (i : nat) (caller : Caller)
         (chunk : AudioChunk) (text : option jsstring),
    nth_error (pending w) i = Some (await_transcription caller chunk) ->
    trim (match text with Some t => t | None => [] end) = [] ->
    let t := match text with Some t => t | None => [] end in
    let w' := step w (settle now i (inr text)) in
    let buffer := capped (streamingBuffer (this w) ++ utf16 " " ++ t) in
    let scans := negb (now - lastStreamingCheck (this w) <? 500) in
    let positive := scans && hasStreamingQuestion buffer in
    let cuts :=
      positive && negb (length (currentAudioData (this w)) =? 0)%nat in
    let cut :=
      {| chunk_id := S (next_uuid w);
         chunk_data := concat (currentAudioData (this w));
         chunk_timestamp := now;
         chunk_duration :=
           milliseconds
             (Z.of_nat (length (concat (currentAudioData (this w)))))
             (sampleRate (config (this w)));
         chunk_wordCount := wordCount (this w) |} in
    fst (run_stimulus (settle now i (inr text)) w) = Returned tt
    /\ transcriptions_of (emitted w')
       = transcriptions_of (emitted w)
         ++ [ {| tr_id := next_uuid w;
                 tr_text := t;
                 tr_timestamp := chunk_timestamp chunk;
                 tr_confidence := 1;
                 tr_isQuestion := false;
                 tr_originalChunkId := chunk_id chunk |} ]
    /\ questions_of (emitted w') = questions_of (emitted w)
    /\ errors_of (emitted w') = errors_of (emitted w)
    /\ questionBuffer (state (this w')) = questionBuffer (state (this w))
    /\ recentAudioBuffer (this w') = recentAudioBuffer (this w)
    /\ isListening (state (this w')) = isListening (state (this w))
    /\ isProcessing (state (this w')) = false
    /\ streamingBuffer (this w') = (if positive then [] else buffer)
    /\ lastStreamingCheck (this w')
       = (if scans then now else lastStreamingCheck (this w))
    /\ chunks_of (emitted w')
       = chunks_of (emitted w) ++ (if cuts then [cut] else [])
    /\ currentAudioData (this w')
       = (if cuts then [] else currentAudioData (this w))
    /\ pending w'
       = remove_nth i (pending w)
         ++ (if cuts && questionDetectionEnabled (config (this w))
             then [await_transcription by_streaming_detection cut] else []).
Proof.
  intros w now i caller chunk text N B t w' buffer scans positive cuts cut.
  assert (R : run_stimulus (settle now i (inr text)) w
              = resume (await_transcription caller chunk) (inr text)
                  (with_clock now (with_pending (remove_nth i (pending w)) w))).
  { cbn [run_stimulus]. rewrite N. reflexivity. }
  split.
  { rewrite R. cbn [resume].
    rewrite in_callers_eq;
      [| apply listeners_transcribeChunk_settled
       | apply contained_transcribeChunk_settled ].
    rewrite transcribeChunk_blank_eq by exact B.
    destruct caller; reflexivity. }
  subst w' cuts positive scans. unfold step. rewrite R, resume_world.
  cbn [resumed]. rewrite transcribeChunk_blank_eq by exact B. cbn [snd].
  rewrite performStreamingQuestionDetection_eq, scan_eq. cbv zeta.
  rewrite createAndProcessChunk_eq, transcribeChunk_eq.
  clear R N. fold t.
  destruct w as [[el st cf ca wc lc acs ra lq sb ls] em pe cl nu].
  cbn [this streamingBuffer lastStreamingCheck currentAudioData config
       wordCount next_uuid pending emitted state recentAudioBuffer]
    in buffer, cut |- *.
  change (clock _ - lastStreamingCheck (this _) <? 500)
    with (now - ls <? 500).
  change (hasStreamingQuestion (streamingBuffer _))
    with (hasStreamingQuestion buffer).
  change (questionDetectionEnabled (config (this _)))
    with (questionDetectionEnabled cf).
  change (length (currentAudioData (this _)) =? 0)%nat
    with (length ca =? 0)%nat.
  change (0 <? length (currentAudioData (this _)))%nat
    with (0 <? length ca)%nat.
  unfold drained, next_chunk, fed.
  change (capped _) with buffer.
  set (ms := milliseconds _ _) in cut.
  change (milliseconds _ _) with ms.
  clearbody buffer ms.
  match goal with
  | |- context [processed ?x] => remember (processed x) as w' eqn:E
  end.
  destruct (now - ls <? 500);
    [| destruct (hasStreamingQuestion buffer);
       [destruct ca as [| batch ca];
        [| destruct (questionDetectionEnabled cf)] |]];
    cbv [negb andb Nat.eqb Nat.ltb Nat.leb length
         processed with_this set_streamingBuffer
         set_lastStreamingCheck set_state set_isProcessing
         set_currentAudioData set_wordCount set_accumulatedSamples
         set_lastChunkTime announce uuidv4 snd this emitted
         pending clock next_uuid with_clock with_pending
         errorListeners state config currentAudioData wordCount
         lastChunkTime accumulatedSamples recentAudioBuffer
         lastQuestionHintTime streamingBuffer lastStreamingCheck
         isListening isProcessing lastActivityTime questionBuffer] in E;
    subst w';
    cbn [negb andb Nat.eqb length this emitted pending state streamingBuffer
         lastStreamingCheck currentAudioData recentAudioBuffer isListening
         isProcessing questionBuffer];
    rewrite <- ?app_assoc;
    rewrite ?transcriptions_of_app, ?questions_of_app, ?errors_of_app,
      ?chunks_of_app;
    cbn [transcriptions_of questions_of errors_of chunks_of flat_map app];
    rewrite ?app_nil_r; repeat split; reflexivity.
Qed.

End Blank.

(** X16 in a session in which the blank answer cuts a chunk. Three
    chunks are cut and sent, and 100 samples more are held. The first
    answer is blank and makes the streaming scan run; the second holds a
    question pattern and comes 100 ms later, too early for a scan; the
    third is blank again and comes 600 ms after that: the scan it
    triggers finds the pattern and cuts the 100 samples into a fourth
    chunk, and the step ends with the processing flag false. *)
Lemma blank_transcript_witness :
  nth_error
    (pending (run (locale := latin) (detector := plain_detector)
                  (new_World defaultConfig) blank_answer_trace)) 0
  = Some (await_transcription by_processAudioChunk
            {| chunk_id := 2%nat;
               chunk_data := to_Float32Array (silence 160);
               chunk_timestamp := t0 + 12010;
               chunk_duration := milliseconds 160 16000;
               chunk_wordCount := 0 |})
  /\ trim (utf16 " ") = []
  /\ chunks_of
       (emitted
          (step (locale := latin) (detector := plain_detector)
                (run (locale := latin) (detector := plain_detector)
                     (new_World defaultConfig) blank_answer_trace)
                (settle (t0 + 13700) 0 (inr (Some (utf16 " "))))))
     = chunks_of
         (emitted (run (locale := latin) (detector := plain_detector)
                       (new_World defaultConfig) blank_answer_trace))
       ++ [ {| chunk_id := 7%nat;
               chunk_data := to_Float32Array (silence 100);
               chunk_timestamp := t0 + 13700;
               chunk_duration := milliseconds 100 16000;
               chunk_wordCount := 0 |} ]
  /\ isProcessing
       (state
          (this
             (step (locale := latin) (detector := plain_detector)
                   (run (locale := latin) (detector := plain_detector)
                        (new_World defaultConfig) blank_answer_trace)
                   (settle (t0 + 13700) 0 (inr (Some (utf16 " "))))))) = false.
Proof.
  assert (N : nth_error
                (pending (run (locale := latin) (detector := plain_detector)
                              (new_World defaultConfig) blank_answer_trace)) 0
              = Some (await_transcription by_processAudioChunk
                        {| chunk_id := 2%nat;
                           chunk_data := to_Float32Array (silence 160);
                           chunk_timestamp := t0 + 12010;
                           chunk_duration := milliseconds 160 16000;
                           chunk_wordCount := 0 |}))
    by (vm_compute; reflexivity).
  assert (B : trim (utf16 " ") = []) by reflexivity.
  pose proof (blank_transcript_only_feeds_the_streaming_scan
                (locale := latin) (detector := plain_detector)
                _ (t0 + 13700) 0%nat _ _ (Some (utf16 " ")) N B) as H.
  cbv zeta in H.
  destruct H as (_ & _ & _ & _ & _ & _ & _ & P & _ & _ & C & _).
  split; [exact N |]. split; [exact B |]. split; [| exact P].
  rewrite C.
  match goal with
  | |- _ ++ ?l = _ ++ ?r =>
    assert (K : l = r) by (vm_compute; reflexivity); rewrite K
  end.
  reflexivity.
Defined.
